(** * Pauli validator monitor: a shallow embedding of the monitoring engine

    The Go sources are embedded package by package: fixed-width integers,
    the [backoff] package, the [beacon] client (JSON integer decoders and
    the request loop), the [storage] repository, and the [monitor]
    scheduler and job processor; then slot arithmetic, the scheduler's
    clock and waits, the dispatch of events to jobs, results and log lines,
    the [config] package, the ScyllaDB client and its migrations.  External
    collaborators (the HTTP transport, the rate limiter, the database
    session, the wall clock, the context) are represented by the values
    they return to the code. *)

From Stdlib Require Import ZArith List String Ascii Bool Lia.
From Stdlib Require PrimFloat.
Import ListNotations.
Open Scope Z_scope.

(** ** Fixed-width integers

    Go's [uint64] and [int64] are carried as [Z]; every arithmetic
    operation the sources perform is followed by the reduction the machine
    applies. *)

Module MachineInt.

Definition two64 : Z := 2 ^ 64.
Definition two63 : Z := 2 ^ 63.
Definition max_u64 : Z := two64 - 1.
Definition max_i64 : Z := two63 - 1.
Definition min_i64 : Z := - two63.

Definition is_u64 (z : Z) : Prop := 0 <= z <= max_u64.
Definition is_i64 (z : Z) : Prop := min_i64 <= z <= max_i64.

(** Reduction of a mathematical result to the [uint64] it is stored as. *)
Definition wrap_u64 (z : Z) : Z := z mod two64.

(** Reduction of a mathematical result to the [int64] it is stored as
    (two's complement). *)
Definition wrap_i64 (z : Z) : Z := (z + two63) mod two64 - two63.

Definition add_u64 (a b : Z) : Z := wrap_u64 (a + b).
Definition mul_u64 (a b : Z) : Z := wrap_u64 (a * b).
Definition add_i64 (a b : Z) : Z := wrap_i64 (a + b).
Definition neg_i64 (a : Z) : Z := wrap_i64 (- a).

(** The conversion [int64(u)] of a [uint64]. *)
Definition i64_of_u64 (u : Z) : Z := wrap_i64 u.

End MachineInt.
Import MachineInt.

(** ** Errors and results

    Go's [error] values.  The constructors follow the places where the
    sources build an error; [Wrapped] is [fmt.Errorf("...: %w", err)]. *)

Inductive error : Type :=
| ErrSyntax (fn num : string)            (* strconv.NumError with ErrSyntax *)
| ErrRange (fn num : string)             (* strconv.NumError with ErrRange *)
| ErrTransport (msg : string)            (* error returned by http.Client.Do *)
| ErrContext                             (* ctx.Err() *)
| ErrExternal (msg : string)             (* error of a collaborator (limiter, driver) *)
| RetryableError (StatusCode : Z) (body : string)
| UnexpectedStatus (StatusCode : Z) (body : string)
| RequestFailedAfter (attempts : Z) (cause : error)
| Wrapped (msg : string) (cause : error).

Inductive result (A : Type) : Type :=
| Ok (a : A)
| Err (e : error).
Arguments Ok {A} a.
Arguments Err {A} e.

(** ** monitor: the scheduler's event generator *)

Module Scheduler.

(** SlotsPerEpoch is the number of slots in an epoch (32). *)
Definition SlotsPerEpoch : Z := 32.

Inductive EventType : Type :=
| EventTypeSlotPoll
| EventTypeEpochBoundary
| EventTypeEpochFinalized.

Record ScheduleEvent : Type := mkEvent {
  Slot : Z;
  Epoch : Z;
  Type_ : EventType;
  Validators : list Z
}.

(** beacon.Checkpoint and beacon.FinalityCheckpoints. *)
Record Checkpoint : Type := mkCheckpoint {
  cp_Epoch : Z;
  cp_Root : string
}.

Record FinalityCheckpoints : Type := mkFinality {
  PreviousJustified : Checkpoint;
  CurrentJustified : Checkpoint;
  Finalized : Checkpoint
}.

(** The mutable part of [Scheduler] together with the validator set it was
    created with.  [warnings] counts the log lines written at warn level. *)
Record Scheduler : Type := mkScheduler {
  validators : list Z;
  lastEpoch : Z;
  lastFinalEpoch : Z;
  warnings : nat
}.

(** NewScheduler leaves [lastEpoch] and [lastFinalEpoch] at their zero value. *)
Definition NewScheduler (vs : list Z) : Scheduler :=
  mkScheduler vs 0 0 0.

Definition finalized_event (s : Scheduler) (slot e : Z) : ScheduleEvent :=
  mkEvent slot e EventTypeEpochFinalized (validators s).

(** The loop
    [for e := s.lastFinalEpoch + 1; e <= finalizedEpoch; e++ { append }]
    with [e] a [uint64].  One unit of fuel pays for one evaluation of the
    loop condition; [None] is a loop still running when the fuel is gone. *)
Fixpoint finalized_loop (fuel : nat) (s : Scheduler) (slot finalizedEpoch e : Z)
    (events : list ScheduleEvent) : option (list ScheduleEvent) :=
  match fuel with
  | O => None
  | S fuel' =>
      if e <=? finalizedEpoch
      then finalized_loop fuel' s slot finalizedEpoch (add_u64 e 1)
             (events ++ [finalized_event s slot e])
      else Some events
  end.

(** NextEvents returns the events to process for the current slot, the
    error (always nil) and the scheduler as the call leaves it.  The
    argument [checkpoints] is what [s.client.GetFinalityCheckpoints(ctx,
    "head")] returned. *)
Definition NextEvents (fuel : nat) (s : Scheduler) (slot : Z)
    (checkpoints : result FinalityCheckpoints)
  : option (list ScheduleEvent * option error * Scheduler) :=
  let epoch := slot / SlotsPerEpoch in
  let events := [mkEvent slot epoch EventTypeSlotPoll (validators s)] in
  let '(events, s) :=
    if (slot mod SlotsPerEpoch =? 0) && negb (epoch =? lastEpoch s)
    then (events ++ [mkEvent slot (add_u64 epoch 1) EventTypeEpochBoundary (validators s)],
          mkScheduler (validators s) epoch (lastFinalEpoch s) (warnings s))
    else (events, s) in
  match checkpoints with
  | Err _ =>
      Some (events, None,
            mkScheduler (validators s) (lastEpoch s) (lastFinalEpoch s) (S (warnings s)))
  | Ok cps =>
      let finalizedEpoch := cp_Epoch (Finalized cps) in
      if finalizedEpoch >? lastFinalEpoch s
      then
        match finalized_loop fuel s slot finalizedEpoch
                (add_u64 (lastFinalEpoch s) 1) events with
        | None => None
        | Some events =>
            Some (events, None,
                  mkScheduler (validators s) (lastEpoch s) finalizedEpoch (warnings s))
        end
      else Some (events, None, s)
  end.

(** The tick loop asks for events slot after slot; [run_ticks] threads the
    scheduler through a sequence of calls and collects what each returned. *)
Fixpoint run_ticks (fuel : nat) (s : Scheduler)
    (ticks : list (Z * result FinalityCheckpoints))
  : option (list (list ScheduleEvent) * Scheduler) :=
  match ticks with
  | [] => Some ([], s)
  | (slot, cps) :: rest =>
      match NextEvents fuel s slot cps with
      | None => None
      | Some (events, _, s') =>
          match run_ticks fuel s' rest with
          | None => None
          | Some (evs, s'') => Some (events :: evs, s'')
          end
      end
  end.

(** The epochs [lo, lo+1, ..., lo+n-1]. *)
Definition epochs_from (lo : Z) (n : nat) : list Z :=
  map (fun i => lo + Z.of_nat i) (seq 0 n).

(** The epochs of the half-open range (last, F]. *)
Definition epochs_between (last F : Z) : list Z :=
  epochs_from (last + 1) (Z.to_nat (F - last)).

Definition finality_ok (F : Z) : result FinalityCheckpoints :=
  Ok (mkFinality (mkCheckpoint 0 EmptyString) (mkCheckpoint 0 EmptyString)
        (mkCheckpoint F EmptyString)).

(** Names for the pieces of a tick, used to state its properties. *)
Definition slot_poll_event (s : Scheduler) (slot : Z) : ScheduleEvent :=
  mkEvent slot (slot / SlotsPerEpoch) EventTypeSlotPoll (validators s).

Definition boundary_due (s : Scheduler) (slot : Z) : bool :=
  (slot mod SlotsPerEpoch =? 0) && negb (slot / SlotsPerEpoch =? lastEpoch s).

Definition boundary_event (s : Scheduler) (slot : Z) : ScheduleEvent :=
  mkEvent slot (add_u64 (slot / SlotsPerEpoch) 1) EventTypeEpochBoundary (validators s).

Definition boundary_events (s : Scheduler) (slot : Z) : list ScheduleEvent :=
  if boundary_due s slot then [boundary_event s slot] else [].

Definition after_boundary (s : Scheduler) (slot : Z) : Scheduler :=
  if boundary_due s slot
  then mkScheduler (validators s) (slot / SlotsPerEpoch) (lastFinalEpoch s) (warnings s)
  else s.

Definition is_finalized_event (ev : ScheduleEvent) : bool :=
  match Type_ ev with EventTypeEpochFinalized => true | _ => false end.

(** The finalized epoch a tick has to catch up to, when there is one. *)
Definition pending_finalized (s : Scheduler) (cps : result FinalityCheckpoints)
  : option Z :=
  match cps with
  | Ok c => if cp_Epoch (Finalized c) >? lastFinalEpoch s
            then Some (cp_Epoch (Finalized c)) else None
  | Err _ => None
  end.

Definition checkpoints_wf (cps : result FinalityCheckpoints) : Prop :=
  match cps with
  | Ok c => is_u64 (cp_Epoch (Finalized c))
  | Err _ => True
  end.

End Scheduler.

(** ** strconv, as the decoders use it

    [ParseUint] and [ParseInt] of Go's standard library at base 10 and
    bit size 64, the arguments both decoders pass, followed statement by
    statement. *)

Module Strconv.

Definition byte_of (c : ascii) : Z := Z.of_N (N_of_ascii c).

(** [lower(c)] is [c | ('x' - 'X')]. *)
Definition lower (c : Z) : Z := Z.lor c 32.

Definition fnParseUint : string := "ParseUint".
Definition fnParseInt : string := "ParseInt".

(** The digit of a byte as the switch in the loop of ParseUint computes
    it; [None] is the [default] branch (a syntax error).  The first case of
    the switch, [c == '_' && base0], needs base 0 and is never taken with
    the base 10 of the decoders. *)
Definition digit_of (c : Z) : option Z :=
  if (48 <=? c) && (c <=? 57) then Some (c - 48)
  else if (97 <=? lower c) && (lower c <=? 122) then Some (lower c - 97 + 10)
  else None.

(** The loop of ParseUint over the bytes of [s], with [n] the value read so
    far.  The result is the pair Go returns. *)
Fixpoint parse_uint_loop (base cutoff maxVal : Z) (s0 s : string) (n : Z)
  : Z * option error :=
  match s with
  | EmptyString => (n, None)
  | String c rest =>
      match digit_of (byte_of c) with
      | None => (0, Some (ErrSyntax fnParseUint s0))
      | Some d =>
          if d >=? base then (0, Some (ErrSyntax fnParseUint s0))
          else if n >=? cutoff then (maxVal, Some (ErrRange fnParseUint s0))
          else
            let n' := mul_u64 n base in
            let n1 := add_u64 n' d in
            if (n1 <? n') || (n1 >? maxVal)
            then (maxVal, Some (ErrRange fnParseUint s0))
            else parse_uint_loop base cutoff maxVal s0 rest n1
      end
  end.

(** For base 10, [cutoff = maxUint64/10 + 1]: the smallest number whose
    product with the base overflows. *)
Definition cutoff10 : Z := max_u64 / 10 + 1.

(** [strconv.ParseUint(s, 10, 64)]. *)
Definition ParseUint (s : string) : Z * option error :=
  match s with
  | EmptyString => (0, Some (ErrSyntax fnParseUint s))
  | _ => parse_uint_loop 10 cutoff10 max_u64 s s 0
  end.

(** [strconv.ParseInt(s, 10, 64)]. *)
Definition ParseInt (s : string) : Z * option error :=
  match s with
  | EmptyString => (0, Some (ErrSyntax fnParseInt s))
  | String c rest =>
      let s0 := s in
      let '(neg, s) :=
        if byte_of c =? 43 then (false, rest)
        else if byte_of c =? 45 then (true, rest)
        else (false, s) in
      let '(un, err) := ParseUint s in
      match err with
      | Some (ErrRange _ _) | None =>
          let cutoff := two63 in
          if negb neg && (un >=? cutoff)
          then (i64_of_u64 (cutoff - 1), Some (ErrRange fnParseInt s0))
          else if neg && (un >? cutoff)
          then (neg_i64 (i64_of_u64 cutoff), Some (ErrRange fnParseInt s0))
          else
            let n := i64_of_u64 un in
            ((if neg then neg_i64 n else n), None)
      | Some _ => (0, Some (ErrSyntax fnParseInt s0))
      end
  end.

End Strconv.

(** ** beacon: integers that arrive quoted or unquoted *)

Module BeaconTypes.
Import Strconv.

(** The double quote, byte 34. *)
Definition quote_char : ascii := ascii_of_N 34.

(** The quote removal shared by both decoders: when [len(s) >= 2] and both
    [s[0]] and [s[len(s)-1]] are the double quote, [s = s[1 : len(s)-1]]. *)
Definition strip_quotes (s : string) : string :=
  let len := String.length s in
  if (2 <=? len)%nat
     && match String.get 0 s with Some c => Ascii.eqb c quote_char | None => false end
     && match String.get (len - 1) s with Some c => Ascii.eqb c quote_char | None => false end
  then String.substring 1 (len - 2) s
  else s.

(** [Uint64Str.UnmarshalJSON]: the decoded value, or the error. *)
Definition Uint64Str_UnmarshalJSON (data : string) : result Z :=
  let s := strip_quotes data in
  match ParseUint s with
  | (_, Some err) => Err err
  | (v, None) => Ok v
  end.

(** [Int64Str.UnmarshalJSON]. *)
Definition Int64Str_UnmarshalJSON (data : string) : result Z :=
  let s := strip_quotes data in
  match ParseInt s with
  | (_, Some err) => Err err
  | (v, None) => Ok v
  end.

(** *** Decimal notation, for stating what the decoders accept *)

Definition digit_char (d : Z) : ascii := ascii_of_N (Z.to_N (48 + d)).

(** The decimal digits of [n], most significant first; [fuel] bounds the
    number of digits. *)
Fixpoint digits_of (fuel : nat) (n : Z) : string :=
  match fuel with
  | O => EmptyString
  | S fuel' =>
      if n <? 10 then String (digit_char n) EmptyString
      else digits_of fuel' (n / 10) ++ String (digit_char (n mod 10)) EmptyString
  end.

(** The JSON number of an unsigned and of a signed 64-bit integer. *)
Definition encode_uint (n : Z) : string := digits_of 20 n.

Definition encode_int (z : Z) : string :=
  if z <? 0 then String "-"%char (encode_uint (- z)) else encode_uint z.

(** The JSON string holding the same characters. *)
Definition quoted (s : string) : string :=
  String quote_char (s ++ String quote_char EmptyString).

Definition is_digit (c : ascii) : bool :=
  (48 <=? byte_of c) && (byte_of c <=? 57).

Fixpoint all_digits (s : string) : bool :=
  match s with
  | EmptyString => true
  | String c rest => is_digit c && all_digits rest
  end.

(** The number a string of decimal digits denotes, continuing from [acc]. *)
Fixpoint dec_value (s : string) (acc : Z) : Z :=
  match s with
  | EmptyString => acc
  | String c rest => dec_value rest (acc * 10 + (byte_of c - 48))
  end.

(** The integer written by a base-10 numeral with an optional sign. *)
Definition body_integer (s : string) : option Z :=
  let '(neg, ds) :=
    match s with
    | String c rest =>
        if Ascii.eqb c "-"%char then (true, rest)
        else if Ascii.eqb c "+"%char then (false, rest)
        else (false, s)
    | EmptyString => (false, s)
    end in
  if negb (String.eqb ds EmptyString) && all_digits ds
  then Some (if neg then - dec_value ds 0 else dec_value ds 0)
  else None.

(** The integer written by a token that is such a numeral, bare or between
    double quotes. *)
Definition token_integer (tok : string) : option Z :=
  match body_integer tok with
  | Some v => Some v
  | None =>
      let inner := String.substring 1 (String.length tok - 2) tok in
      if String.eqb tok (quoted inner) then body_integer inner else None
  end.

(** An optionally double-quoted base-10 integer representable in [lo, hi]. *)
Definition integer_token (lo hi : Z) (tok : string) : bool :=
  match token_integer tok with
  | Some v => (lo <=? v) && (v <=? hi)
  | None => false
  end.

End BeaconTypes.

(** ** time.Time, as far as the sources look at it *)

Module GoTime.

Inductive Location : Type := UTC | Local.

(** An instant ([sec], [nsec] counted from January 1 of year 1) and the
    location it is presented in. *)
Record Time : Type := mkTime {
  sec : Z;
  nsec : Z;
  loc : Location
}.

(** The zero value of [time.Time]. *)
Definition zero : Time := mkTime 0 0 UTC.

(** [t.IsZero()]: the instant is January 1, year 1, 00:00:00 UTC. *)
Definition IsZero (t : Time) : bool := (sec t =? 0) && (nsec t =? 0).

(** [t.UTC()]: the same instant, presented in UTC. *)
Definition ToUTC (t : Time) : Time := mkTime (sec t) (nsec t) UTC.

End GoTime.

(** ** backoff *)

Module Backoff.

(** Durations are [int64] nanoseconds. *)
Definition Millisecond : Z := 1000000.
Definition Second : Z := 1000000000.

(** [Multiplier] and [JitterFactor] are [float64] in the source; the
    embedding keeps them as the pair (numerator, denominator) the literal
    denotes and never computes with them. *)
Record Config : Type := mkConfig {
  InitialDelay : Z;
  MaxDelay : Z;
  Multiplier : Z * Z;
  JitterFactor : Z * Z
}.

Definition DefaultConfig : Config :=
  mkConfig (100 * Millisecond) (30 * Second) (2, 1) (2, 10).

Record Backoff : Type := mkBackoff {
  cfg : Config;
  attempts : Z
}.

Definition New (c : Config) : Backoff := mkBackoff c 0.
Definition NewDefault : Backoff := New DefaultConfig.

Definition Reset (b : Backoff) : Backoff := mkBackoff (cfg b) 0.
Definition Attempts (b : Backoff) : Z := attempts b.

(** NextDelay.  The branch for [attempts <> 0] is computed by the source in
    [float64] ([math.Pow], [rand.Float64], the comparison with [MaxDelay]
    and the conversion back to a duration); its value is the argument
    [jittered] here, supplied from outside the embedding. *)
Definition NextDelay (b : Backoff) (jittered : Z) : Z * Backoff :=
  if attempts b =? 0
  then (InitialDelay (cfg b), mkBackoff (cfg b) (wrap_i64 (attempts b + 1)))
  else (jittered, mkBackoff (cfg b) (wrap_i64 (attempts b + 1))).

(** ShouldRetry: 429 (Too Many Requests) and 503 (Service Unavailable). *)
Definition ShouldRetry (statusCode : Z) : bool :=
  (statusCode =? 429) || (statusCode =? 503).

End Backoff.

(** ** beacon: the request loop *)

Module BeaconClient.
Import Backoff.

Inductive HttpOutcome : Type :=
| HttpFailed (e : error)                       (* Do returned an error *)
| HttpResponse (StatusCode : Z) (body : string).

(** What the collaborators answer during one pass through the loop. *)
Record Attempt : Type := mkAttempt {
  limiter_wait : option error;     (* c.limiter.Wait(ctx) *)
  new_request : option error;      (* http.NewRequestWithContext *)
  http_do : HttpOutcome;           (* c.httpClient.Do(req) *)
  jittered_delay : Z;              (* the float64 branch of NextDelay *)
  wait_completed : bool            (* b.Wait(ctx): false when ctx is cancelled *)
}.

(** The calls that leave the client, in order. *)
Inductive Effect : Type :=
| ELimiter
| EDo (attempt : Z)
| EBackoff (delay : Z).

Definition StatusOK : Z := 200.

Section Requests.

Variable A : Type.
(** [json.NewDecoder(resp.Body).Decode(result)] for the type of [result]. *)
Variable decode : string -> result A.
Variable maxRetries : Z.
(** The answers of the collaborators, by value of [attempt]. *)
Variable net : Z -> Attempt.

(** What a request hands back: the error, the value decoded into
    [result] (if any), and the calls made. *)
Definition Reply : Type := option error * option A * list Effect.

Definition with_effects (es : list Effect) (r : Reply) : Reply :=
  let '(err, a, tr) := r in (err, a, es ++ tr).

(** The loop of doRequest, [for attempt := 0; attempt <= c.maxRetries;
    attempt++].  [remaining] is the number of values of [attempt] still
    satisfying the loop condition, [maxRetries + 1 - attempt]. *)
Fixpoint doRequest_loop (remaining : nat) (attempt : Z) (b : Backoff)
    (lastErr : option error) : Reply :=
  match remaining with
  | O => (lastErr, None, [])
  | S remaining' =>
      let a := net attempt in
      match limiter_wait a with
      | Some err => (Some (Wrapped "rate limiter error" err), None, [ELimiter])
      | None =>
      match new_request a with
      | Some err => (Some (Wrapped "failed to create request" err), None, [ELimiter])
      | None =>
      match http_do a with
      | HttpFailed err =>
          if attempt <? maxRetries
          then
            let '(delay, b') := NextDelay b (jittered_delay a) in
            if wait_completed a
            then with_effects [ELimiter; EDo attempt; EBackoff delay]
                   (doRequest_loop remaining' (attempt + 1) b' (Some err))
            else (Some ErrContext, None, [ELimiter; EDo attempt; EBackoff delay])
          else (Some (RequestFailedAfter (attempt + 1) err), None,
                [ELimiter; EDo attempt])
      | HttpResponse status body =>
          if ShouldRetry status
          then
            let lastErr' := RetryableError status body in
            if attempt <? maxRetries
            then
              let '(delay, b') := NextDelay b (jittered_delay a) in
              if wait_completed a
              then with_effects [ELimiter; EDo attempt; EBackoff delay]
                     (doRequest_loop remaining' (attempt + 1) b' (Some lastErr'))
              else (Some ErrContext, None, [ELimiter; EDo attempt; EBackoff delay])
            else (Some lastErr', None, [ELimiter; EDo attempt])
          else if negb (status =? StatusOK)
          then (Some (UnexpectedStatus status body), None, [ELimiter; EDo attempt])
          else
            match decode body with
            | Err err => (Some (Wrapped "failed to decode response" err), None,
                          [ELimiter; EDo attempt])
            | Ok v => (None, Some v, [ELimiter; EDo attempt])
            end
      end end end
  end.

(** doRequest (and [get], which only fixes the method). *)
Definition doRequest : Reply :=
  doRequest_loop (Z.to_nat (maxRetries + 1)) 0 NewDefault None.

(** doRequestWithBody (and [post]); the request body and [result] are both
    non-nil at every call site. *)
Definition doRequestWithBody : Reply :=
  let a := net 0 in
  match limiter_wait a with
  | Some err => (Some (Wrapped "rate limiter error" err), None, [ELimiter])
  | None =>
  match new_request a with
  | Some err => (Some (Wrapped "failed to create request" err), None, [ELimiter])
  | None =>
  match http_do a with
  | HttpFailed err => (Some (Wrapped "request failed" err), None, [ELimiter; EDo 0])
  | HttpResponse status body =>
      if negb (status =? StatusOK)
      then (Some (UnexpectedStatus status body), None, [ELimiter; EDo 0])
      else
        match decode body with
        | Err err => (Some (Wrapped "failed to decode response" err), None,
                      [ELimiter; EDo 0])
        | Ok v => (None, Some v, [ELimiter; EDo 0])
        end
  end end end.

End Requests.

Definition reply_error {A} (r : Reply A) : option error := fst (fst r).
Definition reply_value {A} (r : Reply A) : option A := snd (fst r).
Definition reply_trace {A} (r : Reply A) : list Effect := snd r.

Definition is_do (e : Effect) : bool :=
  match e with EDo _ => true | _ => false end.
Definition is_backoff (e : Effect) : bool :=
  match e with EBackoff _ => true | _ => false end.

(** The number of HTTP attempts a request made. *)
Definition attempts_made {A} (r : Reply A) : nat :=
  List.length (filter is_do (reply_trace r)).

Definition backoff_waits {A} (r : Reply A) : list Effect :=
  filter is_backoff (reply_trace r).

(** Attempt number [i] reached the wire. *)
Definition made {A} (r : Reply A) (i : Z) : Prop := In (EDo i) (reply_trace r).

(** An attempt that ended in a transport-level error or in 429 / 503. *)
Definition retryable (o : HttpOutcome) : bool :=
  match o with
  | HttpFailed _ => true
  | HttpResponse status _ => ShouldRetry status
  end.

(** The limiter and the request constructor let the attempt reach the wire. *)
Definition admitted (a : Attempt) : bool :=
  match limiter_wait a, new_request a with
  | None, None => true
  | _, _ => false
  end.

(** Attempt number [i] of a GET ended in a way that is retried: a
    retryable outcome, retries left, and a backoff wait that ran to its
    end. *)
Definition retry_granted (maxRetries : Z) (net : Z -> Attempt) (i : Z) : bool :=
  retryable (http_do (net i)) && (i <? maxRetries) && wait_completed (net i).

(** A node that answers every request with 503. *)
Definition always_503 (i : Z) : Attempt :=
  mkAttempt None None (HttpResponse 503 "busy") (200 * Millisecond) true.

End BeaconClient.

(** ** storage: models and repository *)

Module Storage.
Import GoTime.

Record ValidatorSnapshot : Type := mkSnapshot {
  vs_ValidatorIndex : Z;
  vs_Slot : Z;
  vs_Status : string;
  vs_Balance : Z;
  vs_EffectiveBalance : Z;
  vs_Timestamp : Time
}.

Record AttestationDuty : Type := mkDuty {
  ad_ValidatorIndex : Z;
  ad_Epoch : Z;
  ad_Slot : Z;
  ad_CommitteeIndex : Z;
  ad_CommitteePosition : Z;
  ad_Timestamp : Time
}.

Record AttestationReward : Type := mkReward {
  ar_ValidatorIndex : Z;
  ar_Epoch : Z;
  ar_HeadReward : Z;
  ar_SourceReward : Z;
  ar_TargetReward : Z;
  ar_TotalReward : Z;
  ar_Timestamp : Time
}.

Record ValidatorPenalty : Type := mkPenalty {
  vp_ValidatorIndex : Z;
  vp_Epoch : Z;
  vp_Slot : Z;
  vp_PenaltyType : string;
  vp_PenaltyGwei : Z;
  vp_Timestamp : Time
}.

Definition PenaltyTypeSlashing : string := "slashing".
Definition PenaltyTypeInactivityLeak : string := "inactivity_leak".
Definition PenaltyTypeAttestationMiss : string := "attestation_miss".

(** An INSERT with the values bound to its placeholders, in column order. *)
Inductive Insert : Type :=
| InsertSnapshot (validator_index slot : Z) (status : string)
    (balance effective_balance : Z) (timestamp : Time)
| InsertDuty (validator_index epoch slot committee_index committee_position : Z)
    (timestamp : Time)
| InsertReward (validator_index epoch head_reward source_reward target_reward
    total_reward : Z) (timestamp : Time)
| InsertPenalty (validator_index epoch slot : Z) (penalty_type : string)
    (penalty_gwei : Z) (timestamp : Time).

(** What is handed to the session for execution: one query, or an unlogged
    batch of queries. *)
Inductive Stmt : Type :=
| Query (q : Insert)
| Batch (queries : list Insert).

(** The collaborators of the workers: the wall clock, read by [time.Now()],
    and the database session, which answers each execution with an error or
    with nil.  Both are indexed by how often they were used before. *)
Record Env : Type := mkEnv {
  wall : nat -> Time;
  exec_result : nat -> option error
}.

(** The state a worker's calls act on. *)
Record World : Type := mkWorld {
  clock_reads : nat;
  issued : list Stmt;
  logged_errors : nat
}.

(** State passing, with the usual notation. *)
Definition M (A : Type) : Type := World -> A * World.

Definition ret {A} (a : A) : M A := fun w => (a, w).
Definition bind {A B} (m : M A) (k : A -> M B) : M B :=
  fun w => let '(a, w') := m w in k a w'.

Declare Scope go_scope.
Delimit Scope go_scope with go.
Notation "x <- m ;; k" := (bind m (fun x => k))
  (at level 61, m at next level, right associativity) : go_scope.
Notation "m ;;; k" := (bind m (fun _ => k))
  (at level 61, right associativity) : go_scope.
Open Scope go_scope.

Fixpoint mapM {A B} (f : A -> M B) (l : list A) : M (list B) :=
  match l with
  | [] => ret []
  | a :: l' => b <- f a ;; bs <- mapM f l' ;; ret (b :: bs)
  end.

Section Repository.

Variable env : Env.

(** [time.Now()]. *)
Definition Now : M Time :=
  fun w => (wall env (clock_reads w),
            mkWorld (S (clock_reads w)) (issued w) (logged_errors w)).

(** Execution of a statement by the session: [Query(...).Exec()] and
    [ExecuteBatch]. *)
Definition Exec (q : Stmt) : M (option error) :=
  fun w => (exec_result env (List.length (issued w)),
            mkWorld (clock_reads w) (issued w ++ [q]) (logged_errors w)).

(** A line written at error level. *)
Definition LogError : M unit :=
  fun w => (tt, mkWorld (clock_reads w) (issued w) (S (logged_errors w))).

(** [if x.Timestamp.IsZero() { x.Timestamp = time.Now().UTC() }] *)
Definition fill_timestamp (ts : Time) : M Time :=
  if IsZero ts then (t <- Now ;; ret (ToUTC t)) else ret ts.

Definition wrap_error (msg : string) (err : option error) : option error :=
  match err with
  | Some e => Some (Wrapped msg e)
  | None => None
  end.

Definition snapshot_insert (s : ValidatorSnapshot) : Insert :=
  InsertSnapshot (vs_ValidatorIndex s) (vs_Slot s) (vs_Status s) (vs_Balance s)
    (vs_EffectiveBalance s) (vs_Timestamp s).

Definition duty_insert (d : AttestationDuty) : Insert :=
  InsertDuty (ad_ValidatorIndex d) (ad_Epoch d) (ad_Slot d) (ad_CommitteeIndex d)
    (ad_CommitteePosition d) (ad_Timestamp d).

Definition reward_insert (r : AttestationReward) : Insert :=
  InsertReward (ar_ValidatorIndex r) (ar_Epoch r) (ar_HeadReward r)
    (ar_SourceReward r) (ar_TargetReward r) (ar_TotalReward r) (ar_Timestamp r).

Definition penalty_insert (p : ValidatorPenalty) : Insert :=
  InsertPenalty (vp_ValidatorIndex p) (vp_Epoch p) (vp_Slot p) (vp_PenaltyType p)
    (vp_PenaltyGwei p) (vp_Timestamp p).

(** The save operations take a pointer; the row as the call leaves it is
    returned next to the error. *)

Definition SaveValidatorSnapshot (snapshot : ValidatorSnapshot)
  : M (ValidatorSnapshot * option error) :=
  ts <- fill_timestamp (vs_Timestamp snapshot) ;;
  let snapshot := mkSnapshot (vs_ValidatorIndex snapshot) (vs_Slot snapshot)
                    (vs_Status snapshot) (vs_Balance snapshot)
                    (vs_EffectiveBalance snapshot) ts in
  err <- Exec (Query (snapshot_insert snapshot)) ;;
  ret (snapshot, wrap_error "failed to save validator snapshot" err).

Definition SaveAttestationDuty (duty : AttestationDuty)
  : M (AttestationDuty * option error) :=
  ts <- fill_timestamp (ad_Timestamp duty) ;;
  let duty := mkDuty (ad_ValidatorIndex duty) (ad_Epoch duty) (ad_Slot duty)
                (ad_CommitteeIndex duty) (ad_CommitteePosition duty) ts in
  err <- Exec (Query (duty_insert duty)) ;;
  ret (duty, wrap_error "failed to save attestation duty" err).

Definition SaveAttestationReward (reward : AttestationReward)
  : M (AttestationReward * option error) :=
  ts <- fill_timestamp (ar_Timestamp reward) ;;
  let reward := mkReward (ar_ValidatorIndex reward) (ar_Epoch reward)
                  (ar_HeadReward reward) (ar_SourceReward reward)
                  (ar_TargetReward reward) (ar_TotalReward reward) ts in
  err <- Exec (Query (reward_insert reward)) ;;
  ret (reward, wrap_error "failed to save attestation reward" err).

Definition SaveValidatorPenalty (penalty : ValidatorPenalty)
  : M (ValidatorPenalty * option error) :=
  ts <- fill_timestamp (vp_Timestamp penalty) ;;
  let penalty := mkPenalty (vp_ValidatorIndex penalty) (vp_Epoch penalty)
                   (vp_Slot penalty) (vp_PenaltyType penalty)
                   (vp_PenaltyGwei penalty) ts in
  err <- Exec (Query (penalty_insert penalty)) ;;
  ret (penalty, wrap_error "failed to save validator penalty" err).

(** The batch operations: every row gets its timestamp and its query, then
    the batch is executed once. *)

Definition SaveAttestationDuties (duties : list AttestationDuty)
  : M (list AttestationDuty * option error) :=
  duties <- mapM (fun duty =>
              ts <- fill_timestamp (ad_Timestamp duty) ;;
              ret (mkDuty (ad_ValidatorIndex duty) (ad_Epoch duty) (ad_Slot duty)
                     (ad_CommitteeIndex duty) (ad_CommitteePosition duty) ts))
            duties ;;
  err <- Exec (Batch (map duty_insert duties)) ;;
  ret (duties, wrap_error "failed to save attestation duties batch" err).

Definition SaveAttestationRewards (rewards : list AttestationReward)
  : M (list AttestationReward * option error) :=
  rewards <- mapM (fun reward =>
               ts <- fill_timestamp (ar_Timestamp reward) ;;
               ret (mkReward (ar_ValidatorIndex reward) (ar_Epoch reward)
                      (ar_HeadReward reward) (ar_SourceReward reward)
                      (ar_TargetReward reward) (ar_TotalReward reward) ts))
             rewards ;;
  err <- Exec (Batch (map reward_insert rewards)) ;;
  ret (rewards, wrap_error "failed to save attestation rewards batch" err).

(** The timestamp a save operation writes for a row whose timestamp is
    [ts], when it starts in world [w]. *)
Definition stamped (w : World) (ts : Time) : Time :=
  if IsZero ts then ToUTC (wall env (clock_reads w)) else ts.

End Repository.

(** The fields of a row other than its timestamp. *)
Definition snapshot_payload (s : ValidatorSnapshot) : Z * Z * string * Z * Z :=
  (vs_ValidatorIndex s, vs_Slot s, vs_Status s, vs_Balance s, vs_EffectiveBalance s).

Definition duty_payload (d : AttestationDuty) : Z * Z * Z * Z * Z :=
  (ad_ValidatorIndex d, ad_Epoch d, ad_Slot d, ad_CommitteeIndex d,
   ad_CommitteePosition d).

Definition reward_payload (r : AttestationReward) : Z * Z * Z * Z * Z * Z :=
  (ar_ValidatorIndex r, ar_Epoch r, ar_HeadReward r, ar_SourceReward r,
   ar_TargetReward r, ar_TotalReward r).

Definition penalty_payload (p : ValidatorPenalty) : Z * Z * Z * string * Z :=
  (vp_ValidatorIndex p, vp_Epoch p, vp_Slot p, vp_PenaltyType p, vp_PenaltyGwei p).

End Storage.

(** ** beacon: response types and typed operations *)

Module BeaconAPI.
Import BeaconTypes BeaconClient.

(** The anonymous struct nested in [Validator]. *)
Record ValidatorDetails : Type := mkDetails {
  Pubkey : string;
  WithdrawalCredentials : string;
  EffectiveBalance : Z;
  Slashed : bool;
  ActivationEligibilityEpoch : Z;
  ActivationEpoch : Z;
  ExitEpoch : Z;
  WithdrawableEpoch : Z
}.

Record Validator : Type := mkValidator {
  Index : Z;
  Balance : Z;
  Status : string;
  Validator_ : ValidatorDetails
}.

Record AttesterDuty : Type := mkAttesterDuty {
  duty_Pubkey : string;
  duty_ValidatorIndex : Z;
  duty_CommitteeIndex : Z;
  duty_CommitteeLength : Z;
  duty_CommitteesAtSlot : Z;
  duty_ValidatorCommitteeIndex : Z;
  duty_Slot : Z
}.

Record AttesterDutiesResponse : Type := mkDutiesResponse {
  DependentRoot : string;
  ExecutionOptimistic : bool;
  Data : list AttesterDuty
}.

Record AttestationReward : Type := mkApiReward {
  ValidatorIndex : Z;
  Head : Z;
  Target : Z;
  Source : Z
}.

Record AttestationRewardsData : Type := mkRewardsData {
  IdealRewards : list AttestationReward;
  TotalRewards : list AttestationReward
}.

(** The zero value of [Validator], what [resp.Data] holds before decoding. *)
Definition zero_validator : Validator :=
  mkValidator 0 0 EmptyString
    (mkDetails EmptyString EmptyString 0 false 0 0 0 0).

(** The [data] object of a validator response as the JSON decoder sees it
    before it fills the struct: strings and booleans already read, and for
    each Uint64Str field the raw token it will pass to UnmarshalJSON
    ([None] when the key is absent and the field keeps its zero value). *)
Record RawValidator : Type := mkRawValidator {
  raw_Index : option string;
  raw_Balance : option string;
  raw_Status : string;
  raw_Pubkey : string;
  raw_WithdrawalCredentials : string;
  raw_EffectiveBalance : option string;
  raw_Slashed : bool;
  raw_ActivationEligibilityEpoch : option string;
  raw_ActivationEpoch : option string;
  raw_ExitEpoch : option string;
  raw_WithdrawableEpoch : option string
}.

Definition and_then {A B} (r : result A) (k : A -> result B) : result B :=
  match r with
  | Ok a => k a
  | Err e => Err e
  end.

Definition decode_uint64 (tok : option string) : result Z :=
  match tok with
  | Some t => Uint64Str_UnmarshalJSON t
  | None => Ok 0
  end.

(** Filling the struct: the first UnmarshalJSON that fails ends decoding
    with its error. *)
Definition fill_validator (raw : RawValidator) : result Validator :=
  and_then (decode_uint64 (raw_Index raw)) (fun index =>
  and_then (decode_uint64 (raw_Balance raw)) (fun balance =>
  and_then (decode_uint64 (raw_EffectiveBalance raw)) (fun effective =>
  and_then (decode_uint64 (raw_ActivationEligibilityEpoch raw)) (fun eligibility =>
  and_then (decode_uint64 (raw_ActivationEpoch raw)) (fun activation =>
  and_then (decode_uint64 (raw_ExitEpoch raw)) (fun exit =>
  and_then (decode_uint64 (raw_WithdrawableEpoch raw)) (fun withdrawable =>
  Ok (mkValidator index balance (raw_Status raw)
        (mkDetails (raw_Pubkey raw) (raw_WithdrawalCredentials raw) effective
           (raw_Slashed raw) eligibility activation exit withdrawable))))))))).

Section Operations.

(** The scanner of encoding/json on a validator response body: the raw
    [data] object, or the error for a body that is not such a document. *)
Variable scan : string -> result RawValidator.
Variable maxRetries : Z.
Variable net : Z -> Attempt.

(** [json.NewDecoder(resp.Body).Decode(&resp)] for a ValidatorResponse. *)
Definition decode_validator_response (body : string) : result Validator :=
  and_then (scan body) fill_validator.

(** GetValidator: a GET through doRequest; the error is wrapped, the value
    is [&resp.Data]. *)
Definition GetValidator (stateID : string) (validatorID : Z)
  : result Validator * list Effect :=
  let r := doRequest Validator decode_validator_response maxRetries net in
  match reply_error r with
  | Some err => (Err (Wrapped "failed to get validator" err), reply_trace r)
  | None =>
      (Ok (match reply_value r with Some v => v | None => zero_validator end),
       reply_trace r)
  end.

End Operations.

End BeaconAPI.

(** ** monitor: job processing *)

Module Monitor.
Import GoTime Storage.

Inductive JobType : Type :=
| JobTypeStatus
| JobTypeDuties
| JobTypeRewards
| JobTypeOther (n : Z).      (* any other value of the underlying int *)

Record Job : Type := mkJob {
  ValidatorIndex : Z;
  Slot : Z;
  Epoch : Z;
  Type_ : JobType
}.

(** The payload of a result ([interface{}] in the source). *)
Inductive JobData : Type :=
| DataNil
| DataSnapshot (snapshot : ValidatorSnapshot)
| DataDuties (duties : list AttestationDuty)
| DataRewards (rewards : list AttestationReward).

(** What the Beacon client returns for the calls a job makes, as a function
    of the arguments the job passes. *)
Record Api : Type := mkApi {
  GetValidator : string -> Z -> result BeaconAPI.Validator;
  GetAttesterDuties : Z -> list Z -> result BeaconAPI.AttesterDutiesResponse;
  GetAttestationRewards : Z -> list Z -> result BeaconAPI.AttestationRewardsData
}.

Section Processor.

Variable env : Env.
Variable api : Api.
(** [m.cfg.Validators]. *)
Variable validators : list Z.

Definition log_if_error (err : option error) : M unit :=
  match err with
  | Some _ => LogError
  | None => ret tt
  end.

Definition processStatusJob (job : Job) : M (option ValidatorSnapshot * option error) :=
  match GetValidator api "head" (ValidatorIndex job) with
  | Err err => ret (None, Some err)
  | Ok validator =>
      now <- Now env ;;
      let snapshot :=
        mkSnapshot (ValidatorIndex job) (Slot job) (BeaconAPI.Status validator)
          (BeaconAPI.Balance validator)
          (BeaconAPI.EffectiveBalance (BeaconAPI.Validator_ validator))
          (ToUTC now) in
      saved <- SaveValidatorSnapshot env snapshot ;;
      log_if_error (snd saved) ;;;
      ret (Some (fst saved), None)
  end.

Definition processDutiesJob (job : Job)
  : M (option (list AttestationDuty) * option error) :=
  match GetAttesterDuties api (Epoch job) validators with
  | Err err => ret (None, Some err)
  | Ok resp =>
      duties <- mapM (fun d =>
                  now <- Now env ;;
                  ret (mkDuty (BeaconAPI.duty_ValidatorIndex d) (Epoch job)
                         (BeaconAPI.duty_Slot d)
                         (i64_of_u64 (BeaconAPI.duty_CommitteeIndex d))
                         (i64_of_u64 (BeaconAPI.duty_ValidatorCommitteeIndex d))
                         (ToUTC now)))
                (BeaconAPI.Data resp) ;;
      saved <- SaveAttestationDuties env duties ;;
      log_if_error (snd saved) ;;;
      ret (Some (fst saved), None)
  end.

(** [totalReward := r.Head.Int64() + r.Source.Int64() + r.Target.Int64()],
    in [int64]. *)
Definition totalReward (r : BeaconAPI.AttestationReward) : Z :=
  add_i64 (add_i64 (BeaconAPI.Head r) (BeaconAPI.Source r)) (BeaconAPI.Target r).

(** The loop of processRewardsJob over [resp.TotalRewards]: one reward per
    entry, and a penalty after it when the total is negative. *)
Fixpoint collect_rewards (job : Job) (entries : list BeaconAPI.AttestationReward)
  : M (list AttestationReward * list ValidatorPenalty) :=
  match entries with
  | [] => ret ([], [])
  | r :: rest =>
      let totalReward := totalReward r in
      now <- Now env ;;
      let reward :=
        mkReward (BeaconAPI.ValidatorIndex r) (Epoch job) (BeaconAPI.Head r)
          (BeaconAPI.Source r) (BeaconAPI.Target r) totalReward (ToUTC now) in
      penalty <- (if totalReward <? 0
                  then now' <- Now env ;;
                       ret [mkPenalty (BeaconAPI.ValidatorIndex r) (Epoch job) (Slot job)
                              PenaltyTypeAttestationMiss (neg_i64 totalReward)
                              (ToUTC now')]
                  else ret []) ;;
      tail <- collect_rewards job rest ;;
      ret (reward :: fst tail, penalty ++ snd tail)
  end.

Definition processRewardsJob (job : Job)
  : M (option (list AttestationReward) * option error) :=
  match GetAttestationRewards api (Epoch job) validators with
  | Err err => ret (None, Some err)
  | Ok resp =>
      collected <- collect_rewards job (BeaconAPI.TotalRewards resp) ;;
      saved <- SaveAttestationRewards env (fst collected) ;;
      log_if_error (snd saved) ;;;
      mapM (fun penalty =>
              saved <- SaveValidatorPenalty env penalty ;;
              log_if_error (snd saved))
           (snd collected) ;;;
      ret (Some (fst saved), None)
  end.

(** Process implements the JobProcessor interface. *)
Definition Process (job : Job) : M (JobData * option error) :=
  match Type_ job with
  | JobTypeStatus =>
      r <- processStatusJob job ;;
      ret (match fst r with Some s => DataSnapshot s | None => DataNil end, snd r)
  | JobTypeDuties =>
      r <- processDutiesJob job ;;
      ret (match fst r with Some d => DataDuties d | None => DataNil end, snd r)
  | JobTypeRewards =>
      r <- processRewardsJob job ;;
      ret (match fst r with Some d => DataRewards d | None => DataNil end, snd r)
  | JobTypeOther _ => ret (DataNil, None)
  end.

End Processor.

(** The rows a REWARDS job is to build from an entry, timestamps apart. *)
Definition expected_reward (job : Job) (r : BeaconAPI.AttestationReward)
  : Z * Z * Z * Z * Z * Z :=
  (BeaconAPI.ValidatorIndex r, Epoch job, BeaconAPI.Head r, BeaconAPI.Source r,
   BeaconAPI.Target r, totalReward r).

Definition expected_penalty (job : Job) (r : BeaconAPI.AttestationReward)
  : Z * Z * Z * string * Z :=
  (BeaconAPI.ValidatorIndex r, Epoch job, Slot job, "attestation_miss"%string,
   neg_i64 (totalReward r)).

Definition is_penalised (r : BeaconAPI.AttestationReward) : bool :=
  totalReward r <? 0.

Definition expected_duty (job : Job) (d : BeaconAPI.AttesterDuty)
  : Z * Z * Z * Z * Z :=
  (BeaconAPI.duty_ValidatorIndex d, Epoch job, BeaconAPI.duty_Slot d,
   i64_of_u64 (BeaconAPI.duty_CommitteeIndex d),
   i64_of_u64 (BeaconAPI.duty_ValidatorCommitteeIndex d)).

End Monitor.

(** ** Concrete inputs: the end-to-end scenarios of the specification *)

Module Scenarios.
Import GoTime Storage.

Definition empty_world : World := mkWorld 0 [] 0.

(** A clock that advances and a session whose every write fails. *)
Definition failing_store : Env :=
  mkEnv (fun k => mkTime (63900000000 + Z.of_nat k) 0 Local)
        (fun _ => Some (ErrExternal "write timeout")).

(** Scenario 3: lastFinalEpoch = 10, seen at slot 32 with one validator. *)
Definition scheduler_at_10 : Scheduler.Scheduler :=
  Scheduler.mkScheduler [100] 0 10 0.

(** Scenario 4: epoch 50, validator 100, head -1000, source -500, target 200. *)
Definition penalty_rewards : BeaconAPI.AttestationRewardsData :=
  BeaconAPI.mkRewardsData [] [BeaconAPI.mkApiReward 100 (-1000) 200 (-500)].

Definition active_validator : BeaconAPI.Validator :=
  BeaconAPI.mkValidator 100 32000000000 "active_ongoing"
    (BeaconAPI.mkDetails "0xab" "0x01" 32000000000 false 0 0 0 0).

Definition one_duty : BeaconAPI.AttesterDutiesResponse :=
  BeaconAPI.mkDutiesResponse "0x00" false
    [BeaconAPI.mkAttesterDuty "0xab" 100 3 128 4 5 70].

Definition answering_api : Monitor.Api :=
  Monitor.mkApi (fun _ _ => Ok active_validator)
                (fun _ _ => Ok one_duty)
                (fun _ _ => Ok penalty_rewards).

Definition status_job : Monitor.Job := Monitor.mkJob 100 1 0 Monitor.JobTypeStatus.
Definition duties_job : Monitor.Job := Monitor.mkJob 0 32 2 Monitor.JobTypeDuties.
Definition rewards_job : Monitor.Job := Monitor.mkJob 0 1600 50 Monitor.JobTypeRewards.

(** A validator response whose balance is the number -5. *)
Definition negative_balance : BeaconAPI.RawValidator :=
  BeaconAPI.mkRawValidator (Some "100"%string) (Some "-5"%string)
    "active_ongoing" "0xab" "0x01" (Some "32000000000"%string) false
    (Some "0"%string) (Some "0"%string) (Some "0"%string) (Some "0"%string).

(** A node that answers the first request with 200. *)
Definition answers_200 (i : Z) : BeaconClient.Attempt :=
  BeaconClient.mkAttempt None None (BeaconClient.HttpResponse 200 "{}")
    (200 * Backoff.Millisecond) true.

(** Scenario 5: 503, 503, then 200. *)
Definition busy_twice (i : Z) : BeaconClient.Attempt :=
  BeaconClient.mkAttempt None None
    (if i <? 2 then BeaconClient.HttpResponse 503 "busy"
     else BeaconClient.HttpResponse 200 "{}")
    (190 * Backoff.Millisecond) true.

End Scenarios.

(** ** beacon and monitor: slot and epoch arithmetic *)

Module Slots.

(** SlotToEpoch converts a slot number to an epoch number. *)
Definition SlotToEpoch (slot : Z) : Z := slot / 32.

(** EpochStartSlot returns the first slot of an epoch ([epoch * 32] in
    [uint64]). *)
Definition EpochStartSlot (epoch : Z) : Z := mul_u64 epoch 32.

(** EpochEndSlot returns the last slot of an epoch ([(epoch+1)*32 - 1] in
    [uint64]). *)
Definition EpochEndSlot (epoch : Z) : Z :=
  wrap_u64 (mul_u64 (add_u64 epoch 1) 32 - 1).

(** IsEpochBoundary returns true if the slot is the first slot of an epoch. *)
Definition IsEpochBoundary (slot : Z) : bool := slot mod 32 =? 0.

(** The number of epochs whose first slot is below 2^64. *)
Definition epoch_limit : Z := 2 ^ 59.

End Slots.

(** ** time: durations, Add and Sub

    [time.Duration] is an [int64] count of nanoseconds.  [Add] follows the
    standard library statement by statement; [Sub] is its documented
    result: the difference, or the largest (smallest) duration when the
    difference does not fit. *)

Module GoDuration.
Import GoTime.

Definition Nanosecond : Z := 1.
Definition Second : Z := 1000000000.
Definition maxDuration : Z := max_i64.
Definition minDuration : Z := min_i64.

Definition mul_i64 (a b : Z) : Z := wrap_i64 (a * b).

(** Nanoseconds from January 1 of year 1 to the instant. *)
Definition ns_of (t : Time) : Z := sec t * Second + nsec t.

(** A time whose nanosecond field is in [0, 999999999]. *)
Definition time_wf (t : Time) : Prop := 0 <= nsec t < Second.

(** [t.addSec(d)]: the seconds saturate instead of overflowing. *)
Definition addSec (s d : Z) : Z :=
  let sum := wrap_i64 (s + d) in
  if Bool.eqb (sum >? s) (d >? 0) then sum
  else if d >? 0 then max_i64 else - max_i64.

(** [t.Add(d)]. *)
Definition Add (t : Time) (d : Z) : Time :=
  let dsec := Z.quot d Second in
  let ns := nsec t + Z.rem d Second in
  let '(dsec, ns) :=
    if ns >=? Second then (dsec + 1, ns - Second)
    else if ns <? 0 then (dsec - 1, ns + Second)
    else (dsec, ns) in
  mkTime (addSec (sec t) dsec) ns (loc t).

(** [t.Sub(u)]. *)
Definition Sub (t u : Time) : Z :=
  let d := ns_of t - ns_of u in
  if d >? maxDuration then maxDuration
  else if d <? minDuration then minDuration
  else d.

(** [t.Before(u)]. *)
Definition Before (t u : Time) : bool := ns_of t <? ns_of u.

End GoDuration.

(** ** monitor: the scheduler's clock *)

Module SchedulerClock.
Import GoTime GoDuration.

(** SlotDuration is the Ethereum slot duration (12 seconds). *)
Definition SlotDuration : Z := 12 * Second.

(** The largest slot whose offset from genesis fits in a duration. *)
Definition last_slot : Z := maxDuration / SlotDuration.

(** CurrentSlot calculates the current slot based on genesis time; [now] is
    the reading of the wall clock inside [time.Since]. *)
Definition CurrentSlot (genesisTime now : Time) : Z :=
  let elapsed := Sub now genesisTime in
  if elapsed <? 0 then 0
  else wrap_u64 (Z.quot elapsed SlotDuration).

(** CurrentEpoch returns the current epoch. *)
Definition CurrentEpoch (genesisTime now : Time) : Z :=
  CurrentSlot genesisTime now / Scheduler.SlotsPerEpoch.

(** SlotTime returns the start time of a slot:
    [genesisTime.Add(time.Duration(slot) * SlotDuration)]. *)
Definition SlotTime (genesisTime : Time) (slot : Z) : Time :=
  Add genesisTime (mul_i64 (i64_of_u64 slot) SlotDuration).

End SchedulerClock.

(** ** monitor: from events to jobs *)

Module Dispatch.
Import Monitor.

(** What the tick loop acts on: how often [ctx.Done()] has been polled, and
    the jobs sent to the worker pool so far, in order. *)
Record Queue : Type := mkQueue {
  polls : nat;
  sent : list Job
}.

Section WithContext.

(** The outcome of the k-th [select] on [ctx.Done()] with a [default]
    branch: [true] when the context is already cancelled. *)
Variable cancelled : nat -> bool.

(** [m.workerPool.Submit(job)] after a poll that found the context alive. *)
Definition submit (job : Job) (q : Queue) : Queue :=
  mkQueue (S (polls q)) (sent q ++ [job]).

Definition stop (q : Queue) : Queue := mkQueue (S (polls q)) (sent q).

(** pollValidators submits jobs to poll validator status; the loop returns
    at the first poll that finds the context cancelled. *)
Fixpoint pollValidators_loop (slot epoch : Z) (vs : list Z) (q : Queue) : Queue :=
  match vs with
  | [] => q
  | validatorIndex :: rest =>
      if cancelled (polls q) then stop q
      else pollValidators_loop slot epoch rest
             (submit (mkJob validatorIndex slot epoch JobTypeStatus) q)
  end.

Definition pollValidators (event : Scheduler.ScheduleEvent) (q : Queue) : Queue :=
  pollValidators_loop (Scheduler.Slot event) (Scheduler.Epoch event)
    (Scheduler.Validators event) q.

(** fetchDuties submits one job for all validators. *)
Definition fetchDuties (event : Scheduler.ScheduleEvent) (q : Queue) : Queue :=
  if cancelled (polls q) then stop q
  else submit (mkJob 0 (Scheduler.Slot event) (Scheduler.Epoch event) JobTypeDuties) q.

(** fetchRewards submits one job for all validators. *)
Definition fetchRewards (event : Scheduler.ScheduleEvent) (q : Queue) : Queue :=
  if cancelled (polls q) then stop q
  else submit (mkJob 0 (Scheduler.Slot event) (Scheduler.Epoch event) JobTypeRewards) q.

(** processEvent handles a scheduled event. *)
Definition processEvent (event : Scheduler.ScheduleEvent) (q : Queue) : Queue :=
  match Scheduler.Type_ event with
  | Scheduler.EventTypeSlotPoll => pollValidators event q
  | Scheduler.EventTypeEpochBoundary => fetchDuties event q
  | Scheduler.EventTypeEpochFinalized => fetchRewards event q
  end.

(** The body of runLoop after NextEvents returned:
    [for _, event := range events { m.processEvent(ctx, event) }]. *)
Definition processEvents (events : list Scheduler.ScheduleEvent) (q : Queue) : Queue :=
  fold_left (fun q event => processEvent event q) events q.

End WithContext.

(** A context that is never cancelled. *)
Definition alive (k : nat) : bool := false.

(** A context that stays cancelled once it is. *)
Definition permanent (cancelled : nat -> bool) : Prop :=
  forall k, cancelled k = true -> cancelled (S k) = true.

(** The jobs an event stands for. *)
Definition jobs_of_event (event : Scheduler.ScheduleEvent) : list Job :=
  match Scheduler.Type_ event with
  | Scheduler.EventTypeSlotPoll =>
      map (fun v => mkJob v (Scheduler.Slot event) (Scheduler.Epoch event) JobTypeStatus)
          (Scheduler.Validators event)
  | Scheduler.EventTypeEpochBoundary =>
      [mkJob 0 (Scheduler.Slot event) (Scheduler.Epoch event) JobTypeDuties]
  | Scheduler.EventTypeEpochFinalized =>
      [mkJob 0 (Scheduler.Slot event) (Scheduler.Epoch event) JobTypeRewards]
  end.

(** The STATUS jobs of a slot, one per validator. *)
Definition status_jobs (slot : Z) (vs : list Z) : list Job :=
  map (fun v => mkJob v slot (slot / Scheduler.SlotsPerEpoch) JobTypeStatus) vs.

(** The REWARDS jobs of a slot, one per epoch. *)
Definition rewards_jobs (slot : Z) (epochs : list Z) : list Job :=
  map (fun e => mkJob 0 slot e JobTypeRewards) epochs.

End Dispatch.

(** ** monitor: results and log lines *)

Module Results.
Import Storage Monitor.

(** Result represents the outcome of processing a job. *)
Record Result : Type := mkResult {
  Job_ : Job;
  Data : JobData;
  Error : option error
}.

(** The structured lines the result consumer writes. *)
Inductive LogLine : Type :=
| JobFailed (err : error) (validator_index slot job_type : Z)
| ValidatorStatus (slot validator_index : Z) (status : string)
    (effective_balance_gwei balance_gwei : Z)
| AttestationDutyLine (slot epoch validator_index committee_index
    committee_position : Z)
| AttestationRewardLine (epoch validator_index head_reward source_reward
    target_reward total_reward_gwei : Z) (duty_success : bool).

(** [int(job.Type)]: the constants are numbered by [iota]. *)
Definition job_type_code (t : JobType) : Z :=
  match t with
  | JobTypeStatus => 0
  | JobTypeDuties => 1
  | JobTypeRewards => 2
  | JobTypeOther n => n
  end.

(** logResult logs the result in the required JSON format; a payload of
    another type than the job's fails the type assertion and logs nothing. *)
Definition logResult (result : Result) : list LogLine :=
  match Type_ (Job_ result) with
  | JobTypeStatus =>
      match Data result with
      | DataSnapshot snapshot =>
          [ValidatorStatus (vs_Slot snapshot) (vs_ValidatorIndex snapshot)
             (vs_Status snapshot) (vs_EffectiveBalance snapshot) (vs_Balance snapshot)]
      | _ => []
      end
  | JobTypeDuties =>
      match Data result with
      | DataDuties duties =>
          map (fun duty =>
                 AttestationDutyLine (ad_Slot duty) (ad_Epoch duty)
                   (ad_ValidatorIndex duty) (ad_CommitteeIndex duty)
                   (ad_CommitteePosition duty)) duties
      | _ => []
      end
  | JobTypeRewards =>
      match Data result with
      | DataRewards rewards =>
          map (fun reward =>
                 AttestationRewardLine (ar_Epoch reward) (ar_ValidatorIndex reward)
                   (ar_HeadReward reward) (ar_SourceReward reward)
                   (ar_TargetReward reward) (ar_TotalReward reward)
                   (ar_TotalReward reward >=? 0)) rewards
      | _ => []
      end
  | JobTypeOther _ => []
  end.

(** What processResults writes for one result it received. *)
Definition consume (result : Result) : list LogLine :=
  match Error result with
  | Some err =>
      [JobFailed err (ValidatorIndex (Job_ result)) (Slot (Job_ result))
         (job_type_code (Type_ (Job_ result)))]
  | None => logResult result
  end.

Section Worker.

Variable env : Env.
Variable api : Api.
Variable validators : list Z.

(** One turn of a worker: process the job and build the result. *)
Definition work (job : Job) : M Result :=
  fun w =>
    let '((data, err), w') := Process env api validators job w in
    (mkResult job data err, w').

End Worker.

(** The line of a reward entry. *)
Definition reward_line (job : Job) (r : BeaconAPI.AttestationReward) : LogLine :=
  AttestationRewardLine (Epoch job) (BeaconAPI.ValidatorIndex r) (BeaconAPI.Head r)
    (BeaconAPI.Source r) (BeaconAPI.Target r) (totalReward r)
    (negb (is_penalised r)).

Definition is_failed_duty (l : LogLine) : bool :=
  match l with
  | AttestationRewardLine _ _ _ _ _ _ success => negb success
  | _ => false
  end.

Definition is_penalty_insert (q : Stmt) : bool :=
  match q with
  | Query (InsertPenalty _ _ _ _ _ _) => true
  | _ => false
  end.

End Results.

(** ** backoff: Retry *)

Module BackoffRetry.
Import Backoff.

(** IsRetryable checks if an error is a RetryableError: a type assertion
    on the error itself, which an error wrapping a RetryableError fails. *)
Definition IsRetryable (err : error) : bool :=
  match err with
  | RetryableError _ _ => true
  | _ => false
  end.

(** What Retry does, in order: calls of [fn] and backoff waits. *)
Inductive Call : Type :=
| CallFn (i : Z)
| CallWait (delay : Z).

Section Retry.

Variable maxRetries : Z.
(** What [fn] returns when the loop counter is [i]. *)
Variable fn : Z -> option error.
(** The float64 branch of NextDelay, and whether the timer fired before
    the context was cancelled, for the wait after call [i]. *)
Variable jittered : Z -> Z.
Variable wait_completed : Z -> bool.

(** Wait waits for the next backoff delay or until context is cancelled. *)
Definition Wait (b : Backoff) (i : Z) : bool * Z * Backoff :=
  let '(delay, b') := NextDelay b (jittered i) in
  (wait_completed i, delay, b').

(** The loop of Retry, [for i := 0; i <= maxRetries; i++]; [remaining] is
    the number of values of [i] still satisfying the loop condition. *)
Fixpoint Retry_loop (remaining : nat) (i : Z) (b : Backoff)
    (lastErr : option error) : option error * list Call :=
  match remaining with
  | O => (lastErr, [])
  | S remaining' =>
      match fn i with
      | None => (None, [CallFn i])
      | Some err =>
          if negb (IsRetryable err) then (Some err, [CallFn i])
          else if i <? maxRetries
          then
            let '(completed, delay, b') := Wait b i in
            if completed
            then let '(e, calls) := Retry_loop remaining' (i + 1) b' (Some err) in
                 (e, CallFn i :: CallWait delay :: calls)
            else (Some ErrContext, [CallFn i; CallWait delay])
          else
            let '(e, calls) := Retry_loop remaining' (i + 1) b (Some err) in
            (e, CallFn i :: calls)
      end
  end.

(** Retry executes the given function with exponential backoff. *)
Definition Retry : option error * list Call :=
  Retry_loop (Z.to_nat (maxRetries + 1)) 0 NewDefault None.

End Retry.

Definition is_fn_call (c : Call) : bool :=
  match c with CallFn _ => true | _ => false end.
Definition is_wait (c : Call) : bool :=
  match c with CallWait _ => true | _ => false end.

(** The number of calls of [fn] and of waits in a run. *)
Definition fn_calls (r : option error * list Call) : nat :=
  List.length (filter is_fn_call (snd r)).
Definition waits (r : option error * list Call) : nat :=
  List.length (filter is_wait (snd r)).

End BackoffRetry.

(** ** storage: the batch of snapshots, and the timestamps of a batch *)

Module Batches.
Import GoTime Storage.

Section Repository.

Variable env : Env.

(** SaveValidatorSnapshots saves multiple validator snapshots in a batch. *)
Definition SaveValidatorSnapshots (snapshots : list ValidatorSnapshot)
  : M (list ValidatorSnapshot * option error) :=
  snapshots <- mapM (fun snapshot =>
                 ts <- fill_timestamp env (vs_Timestamp snapshot) ;;
                 ret (mkSnapshot (vs_ValidatorIndex snapshot) (vs_Slot snapshot)
                        (vs_Status snapshot) (vs_Balance snapshot)
                        (vs_EffectiveBalance snapshot) ts))
               snapshots ;;
  err <- Exec env (Batch (map snapshot_insert snapshots)) ;;
  ret (snapshots, wrap_error "failed to save validator snapshots batch" err).

(** The timestamps a batch leaves in its rows: a row with a zero timestamp
    takes the next reading of the clock, the others keep theirs.  [n] is
    the number of readings taken before. *)
Fixpoint stamps (n : nat) (l : list Time) : list Time :=
  match l with
  | [] => []
  | ts :: rest =>
      if IsZero ts then ToUTC (wall env n) :: stamps (S n) rest
      else ts :: stamps n rest
  end.

End Repository.

(** How many rows of a batch come without a timestamp. *)
Definition unstamped (l : list Time) : nat := List.length (filter IsZero l).

End Batches.

(** ** config *)

Module Config.
Import GoDuration.
Import PrimFloat.

(** RateLimitConf configures the rate limiter. *)
Record RateLimitConf : Type := mkRateLimitConf {
  RequestsPerSecond : PrimFloat.float;
  Burst : Z
}.

(** HTTPConf configures the HTTP client. *)
Record HTTPConf : Type := mkHTTPConf {
  http_TimeoutSeconds : Z;
  MaxIdleConns : Z
}.

(** ScyllaDBConf configures ScyllaDB connection. *)
Record ScyllaDBConf : Type := mkScyllaDBConf {
  Hosts : list string;
  Keyspace : string;
  ReplicationFactor : Z;
  Consistency : string;
  scylla_TimeoutSeconds : Z;
  MaxRetries : Z;
  TTLDays : Z
}.

(** Config represents the application configuration; the [int] fields are
    64 bits wide. *)
Record Config : Type := mkConfig {
  BeaconNodeURL : string;
  Validators : list Z;
  PollingIntervalSlots : Z;
  WorkerPoolSize : Z;
  RateLimit : RateLimitConf;
  HTTP : HTTPConf;
  ScyllaDB : ScyllaDBConf
}.

(** [time.Duration(h.TimeoutSeconds) * time.Second]. *)
Definition HTTPConf_Timeout (h : HTTPConf) : Z :=
  mul_i64 (http_TimeoutSeconds h) Second.

Definition ScyllaDBConf_Timeout (s : ScyllaDBConf) : Z :=
  mul_i64 (scylla_TimeoutSeconds s) Second.

(** TTLSeconds returns the TTL in seconds for ScyllaDB:
    [s.TTLDays * 24 * 60 * 60]. *)
Definition TTLSeconds (s : ScyllaDBConf) : Z :=
  mul_i64 (mul_i64 (mul_i64 (TTLDays s) 24) 60) 60.

Definition is_empty (s : string) : bool :=
  match s with
  | EmptyString => true
  | String _ _ => false
  end.

Definition no_elements {A} (l : list A) : bool :=
  match l with
  | [] => true
  | _ :: _ => false
  end.

(** validate checks the configuration for required fields; the result is
    the message of the error, if any. *)
Definition validate (c : Config) : option string :=
  if is_empty (BeaconNodeURL c) then Some "beacon_node_url is required"%string
  else if no_elements (Validators c)
  then Some "at least one validator index is required"%string
  else if no_elements (Hosts (ScyllaDB c))
  then Some "at least one scylladb host is required"%string
  else if is_empty (Keyspace (ScyllaDB c))
  then Some "scylladb keyspace is required"%string
  else None.

(** [if x <= 0 { x = d }] on an [int]. *)
Definition default_int (x d : Z) : Z := if x <=? 0 then d else x.

(** The same on a [float64]; the comparison is false on a NaN. *)
Definition default_float (x d : PrimFloat.float) : PrimFloat.float :=
  if PrimFloat.leb x 0%float then d else x.

(** setDefaults sets default values for optional fields. *)
Definition setDefaults (c : Config) : Config :=
  mkConfig (BeaconNodeURL c) (Validators c)
    (default_int (PollingIntervalSlots c) 1)
    (default_int (WorkerPoolSize c) 10)
    (mkRateLimitConf
       (default_float (RequestsPerSecond (RateLimit c)) 50%float)
       (default_int (Burst (RateLimit c)) 100))
    (mkHTTPConf
       (default_int (http_TimeoutSeconds (HTTP c)) 30)
       (default_int (MaxIdleConns (HTTP c)) 100))
    (mkScyllaDBConf
       (Hosts (ScyllaDB c))
       (Keyspace (ScyllaDB c))
       (default_int (ReplicationFactor (ScyllaDB c)) 3)
       (if is_empty (Consistency (ScyllaDB c)) then "local_quorum"%string
        else Consistency (ScyllaDB c))
       (default_int (scylla_TimeoutSeconds (ScyllaDB c)) 10)
       (default_int (MaxRetries (ScyllaDB c)) 3)
       (default_int (TTLDays (ScyllaDB c)) 90)).

Inductive LoadError : Type :=
| ReadFailed (cause : error)              (* failed to read config file *)
| ParseFailed (cause : error)             (* failed to parse config file *)
| InvalidConfiguration (reason : string). (* invalid configuration *)

Inductive Loaded : Type :=
| LoadOk (cfg : Config)
| LoadErr (e : LoadError).

(** Load reads and parses the configuration from a YAML file.  [read] is
    what [os.ReadFile] returns for the path, [unmarshal] what
    [yaml.Unmarshal] makes of the bytes, starting from the zero Config. *)
Definition Load (read : result string) (unmarshal : string -> result Config)
  : Loaded :=
  match read with
  | Err err => LoadErr (ReadFailed err)
  | Ok data =>
      match unmarshal data with
      | Err err => LoadErr (ParseFailed err)
      | Ok cfg =>
          match validate cfg with
          | Some reason => LoadErr (InvalidConfiguration reason)
          | None => LoadOk (setDefaults cfg)
          end
      end
  end.

(** The largest number of seconds whose Timeout does not overflow. *)
Definition max_timeout_seconds : Z := max_i64 / Second.

(** The largest number of days whose TTLSeconds does not overflow. *)
Definition max_ttl_days : Z := max_i64 / 86400.

End Config.

(** ** beacon: NewClient *)

Module ClientSetup.

(** The fields of the client and of the transport and limiter it builds. *)
Record Client : Type := mkClient {
  baseURL : string;
  MaxIdleConns : Z;
  MaxIdleConnsPerHost : Z;
  Timeout : Z;
  limit : PrimFloat.float;
  burst : Z;
  maxRetries : Z
}.

(** NewClient creates a new Beacon API client with rate limiting and
    connection pooling. *)
Definition NewClient (cfg : Config.Config) : Client :=
  mkClient (Config.BeaconNodeURL cfg)
    (Config.MaxIdleConns (Config.HTTP cfg))
    (Config.MaxIdleConns (Config.HTTP cfg))
    (Config.HTTPConf_Timeout (Config.HTTP cfg))
    (Config.RequestsPerSecond (Config.RateLimit cfg))
    (Config.Burst (Config.RateLimit cfg))
    (Config.MaxRetries (Config.ScyllaDB cfg)).

End ClientSetup.

(** ** storage: the ScyllaDB client and the migrations *)

Module Scylla.
Import Storage.

(** gocql.Consistency. *)
Inductive Consistency : Type :=
| Any | One | Two | Three | Quorum | All | LocalQuorum | EachQuorum | LocalOne.

(** [strings.ToLower] on the bytes of the string: the letters A to Z are
    mapped to a to z.  A byte outside ASCII is kept, so a string holding
    one never equals one of the names below, as in the source, where no
    character outside ASCII has a lower case among the letters of these
    names. *)
Definition lower_byte (c : ascii) : ascii :=
  let n := N_of_ascii c in
  if ((65 <=? n) && (n <=? 90))%N then ascii_of_N (n + 32) else c.

Fixpoint ToLower (s : string) : string :=
  match s with
  | EmptyString => EmptyString
  | String c rest => String (lower_byte c) (ToLower rest)
  end.

Inductive SetupError : Type :=
| UnknownConsistency (level : string)
| ConnectFailed (cause : error)
| CreateKeyspaceFailed (cause : error)
| KeyspaceConnectFailed (keyspace : string) (cause : error).

(** parseConsistency converts a string consistency level to
    gocql.Consistency. *)
Definition parseConsistency (level : string) : Consistency * option SetupError :=
  let l := ToLower level in
  if String.eqb l "any" then (Any, None)
  else if String.eqb l "one" then (One, None)
  else if String.eqb l "two" then (Two, None)
  else if String.eqb l "three" then (Three, None)
  else if String.eqb l "quorum" then (Quorum, None)
  else if String.eqb l "all" then (All, None)
  else if String.eqb l "local_quorum" then (LocalQuorum, None)
  else if String.eqb l "each_quorum" then (EachQuorum, None)
  else if String.eqb l "local_one" then (LocalOne, None)
  else (LocalQuorum, Some (UnknownConsistency level)).

(** The names parseConsistency knows. *)
Definition consistency_names : list string :=
  ["any"; "one"; "two"; "three"; "quorum"; "all"; "local_quorum"; "each_quorum";
   "local_one"]%string.

(** What NewClient does with the cluster, in order. *)
Inductive Action : Type :=
| CreateSession (keyspace : option string) (opened : bool)
| CreateKeyspace (keyspace : string) (replicationFactor : Z)
| CloseSession.

(** Client wraps the ScyllaDB session with configuration. *)
Record Client : Type := mkClient {
  Keyspace : string;
  TTLSeconds : Z
}.

(** The settings of the cluster the session of the client was created
    with. *)
Record ClusterConfig : Type := mkClusterConfig {
  Timeout : Z;
  ConnectTimeout : Z;
  NumRetries : Z;
  cluster_Consistency : Consistency;
  cluster_Keyspace : string
}.

Section Cluster.

(** The answers of the cluster: to the first CreateSession, to the
    CREATE KEYSPACE statement, and to the CreateSession with the
    keyspace. *)
Variable connect : option error.
Variable create : option error.
Variable reconnect : option error.

(** NewClient creates a new ScyllaDB client with the given configuration. *)
Definition NewClient (cfg : Config.ScyllaDBConf)
  : option (Client * ClusterConfig) * option SetupError * list Action :=
  let '(level, err) := parseConsistency (Config.Consistency cfg) in
  match err with
  | Some e => (None, Some e, [])
  | None =>
  match connect with
  | Some e => (None, Some (ConnectFailed e), [CreateSession None false])
  | None =>
  match create with
  | Some e =>
      (None, Some (CreateKeyspaceFailed e),
       [CreateSession None true;
        CreateKeyspace (Config.Keyspace cfg) (Config.ReplicationFactor cfg);
        CloseSession])
  | None =>
  match reconnect with
  | Some e =>
      (None, Some (KeyspaceConnectFailed (Config.Keyspace cfg) e),
       [CreateSession None true;
        CreateKeyspace (Config.Keyspace cfg) (Config.ReplicationFactor cfg);
        CloseSession;
        CreateSession (Some (Config.Keyspace cfg)) false])
  | None =>
      (Some (mkClient (Config.Keyspace cfg) (Config.TTLSeconds cfg),
             mkClusterConfig (Config.ScyllaDBConf_Timeout cfg)
               (Config.ScyllaDBConf_Timeout cfg) (Config.MaxRetries cfg) level
               (Config.Keyspace cfg)),
       None,
       [CreateSession None true;
        CreateKeyspace (Config.Keyspace cfg) (Config.ReplicationFactor cfg);
        CloseSession;
        CreateSession (Some (Config.Keyspace cfg)) true])
  end end end end.

End Cluster.

(** The sessions left open by a sequence of actions. *)
Fixpoint open_sessions (n : Z) (actions : list Action) : Z :=
  match actions with
  | [] => n
  | CreateSession _ true :: rest => open_sessions (n + 1) rest
  | CloseSession :: rest => open_sessions (n - 1) rest
  | _ :: rest => open_sessions n rest
  end.

(** A table of the schema: its name and its columns with their types, in
    the order of the CREATE TABLE statement. *)
Record Table : Type := mkTable {
  table_name : string;
  columns : list (string * string);
  primary_key : list string
}.

(** migrations contains all table creation statements. *)
Definition migrations : list Table :=
  [ mkTable "validator_snapshots"
      [("validator_index", "BIGINT"); ("slot", "BIGINT"); ("status", "TEXT");
       ("balance", "BIGINT"); ("effective_balance", "BIGINT");
       ("timestamp", "TIMESTAMP")]
      ["validator_index"; "slot"];
    mkTable "attestation_duties"
      [("validator_index", "BIGINT"); ("epoch", "BIGINT"); ("slot", "BIGINT");
       ("committee_index", "INT"); ("committee_position", "INT");
       ("timestamp", "TIMESTAMP")]
      ["validator_index"; "epoch"; "slot"];
    mkTable "attestation_rewards"
      [("validator_index", "BIGINT"); ("epoch", "BIGINT"); ("head_reward", "BIGINT");
       ("source_reward", "BIGINT"); ("target_reward", "BIGINT");
       ("total_reward", "BIGINT"); ("timestamp", "TIMESTAMP")]
      ["validator_index"; "epoch"];
    mkTable "validator_penalties"
      [("validator_index", "BIGINT"); ("epoch", "BIGINT"); ("slot", "BIGINT");
       ("penalty_type", "TEXT"); ("penalty_gwei", "BIGINT");
       ("timestamp", "TIMESTAMP")]
      ["validator_index"; "epoch"; "slot"] ]%string.

(** tableNames for TTL updates. *)
Definition tableNames : list string :=
  ["validator_snapshots"; "attestation_duties"; "attestation_rewards";
   "validator_penalties"]%string.

(** The statements of the migration. *)
Inductive DDL : Type :=
| CreateTable (table : Table)
| AlterTableTTL (table : string) (default_time_to_live : Z).

Section Migrations.

(** The answer of the session to its n-th execution. *)
Variable exec : nat -> option error.
(** [c.TTLSeconds]. *)
Variable ttl : Z.

(** [for _, migration := range migrations { ... }]; [n] executions were
    made before. *)
Fixpoint create_tables (ms : list Table) (n : nat) : option error * list DDL :=
  match ms with
  | [] => (None, [])
  | migration :: rest =>
      match exec n with
      | Some err => (Some (Wrapped "migration failed" err), [CreateTable migration])
      | None =>
          let '(e, done) := create_tables rest (S n) in
          (e, CreateTable migration :: done)
      end
  end.

(** setTableTTL sets the default TTL for a table. *)
Definition setTableTTL (table : string) (n : nat) : option error * DDL :=
  (match exec n with
   | Some err => Some (Wrapped ("failed to set TTL on " ++ table) err)
   | None => None
   end,
   AlterTableTTL table ttl).

(** [for _, table := range tableNames { ... }]. *)
Fixpoint set_ttls (tables : list string) (n : nat) : option error * list DDL :=
  match tables with
  | [] => (None, [])
  | table :: rest =>
      let '(err, stmt) := setTableTTL table n in
      match err with
      | Some e => (Some e, [stmt])
      | None =>
          let '(e, done) := set_ttls rest (S n) in
          (e, stmt :: done)
      end
  end.

(** RunMigrations creates all required tables and sets TTL. *)
Definition RunMigrations : option error * list DDL :=
  let '(err, created) := create_tables migrations 0 in
  match err with
  | Some e => (Some e, created)
  | None =>
      let '(err, altered) := set_ttls tableNames (List.length created) in
      (err, created ++ altered)
  end.

End Migrations.

(** The statements of a migration that meets no error. *)
Definition all_statements (ttl : Z) : list DDL :=
  map CreateTable migrations ++ map (fun t => AlterTableTTL t ttl) tableNames.

(** The table and the columns an INSERT of the repository names. *)
Definition insert_target (q : Insert) : string * list string :=
  match q with
  | InsertSnapshot _ _ _ _ _ _ =>
      ("validator_snapshots",
       ["validator_index"; "slot"; "status"; "balance"; "effective_balance";
        "timestamp"])
  | InsertDuty _ _ _ _ _ _ =>
      ("attestation_duties",
       ["validator_index"; "epoch"; "slot"; "committee_index"; "committee_position";
        "timestamp"])
  | InsertReward _ _ _ _ _ _ _ =>
      ("attestation_rewards",
       ["validator_index"; "epoch"; "head_reward"; "source_reward"; "target_reward";
        "total_reward"; "timestamp"])
  | InsertPenalty _ _ _ _ _ _ =>
      ("validator_penalties",
       ["validator_index"; "epoch"; "slot"; "penalty_type"; "penalty_gwei";
        "timestamp"])
  end%string.

(** The number of values an INSERT binds. *)
Definition bound_values (q : Insert) : nat :=
  match q with
  | InsertSnapshot _ _ _ _ _ _ => 6
  | InsertDuty _ _ _ _ _ _ => 6
  | InsertReward _ _ _ _ _ _ _ => 7
  | InsertPenalty _ _ _ _ _ _ => 6
  end.

End Scylla.

(** ** beacon: maps by validator index, and the reward summary *)

Module BeaconMaps.
Import BeaconAPI.

(** A Go map with [uint64] keys: what a lookup returns for each key. *)
Definition GoMap (V : Type) : Type := Z -> option V.

Definition make {V} : GoMap V := fun _ => None.

(** [m[k] = v]. *)
Definition store {V} (m : GoMap V) (k : Z) (v : V) : GoMap V :=
  fun k' => if k' =? k then Some v else m k'.

(** GetAttesterDutiesMap fetches attestation duties and returns them as a
    map keyed by validator index; [fetched] is what GetAttesterDuties
    returned. *)
Definition GetAttesterDutiesMap (fetched : result AttesterDutiesResponse)
  : result (GoMap AttesterDuty) :=
  match fetched with
  | Err err => Err err
  | Ok resp =>
      Ok (fold_left (fun duties duty => store duties (duty_ValidatorIndex duty) duty)
            (Data resp) make)
  end.

(** GetAttestationRewardsMap fetches attestation rewards and returns them
    as a map keyed by validator index. *)
Definition GetAttestationRewardsMap (fetched : result AttestationRewardsData)
  : result (GoMap AttestationReward) :=
  match fetched with
  | Err err => Err err
  | Ok resp =>
      Ok (fold_left (fun rewards reward => store rewards (ValidatorIndex reward) reward)
            (TotalRewards resp) make)
  end.

(** RewardSummary provides a summary of rewards for a validator. *)
Record RewardSummary : Type := mkRewardSummary {
  rs_ValidatorIndex : Z;
  rs_HeadReward : Z;
  rs_SourceReward : Z;
  rs_TargetReward : Z;
  rs_TotalReward : Z;
  rs_IsPenalty : bool
}.

(** CalculateRewardSummary creates a summary from an AttestationReward. *)
Definition CalculateRewardSummary (reward : AttestationReward) : RewardSummary :=
  let total := add_i64 (add_i64 (Head reward) (Source reward)) (Target reward) in
  mkRewardSummary (ValidatorIndex reward) (Head reward) (Source reward)
    (Target reward) total (total <? 0).

(** The last element of a list that satisfies [p]. *)
Definition find_last {A} (p : A -> bool) (l : list A) : option A :=
  find p (rev l).

End BeaconMaps.

(** ** monitor: initialising the scheduler and waiting for a slot *)

Module SchedulerWait.
Import GoTime GoDuration SchedulerClock.

(** Seconds from January 1 of year 1 to January 1, 1970. *)
Definition unixToInternal : Z := 62135596800.

(** [time.Unix(sec, 0)]. *)
Definition Unix (sec : Z) : Time :=
  mkTime (wrap_i64 (sec + unixToInternal)) 0 Local.

(** Initialize fetches genesis time and sets up the scheduler; [genesis] is
    what GetGenesis returned, reduced to [Data.GenesisTime].  The result is
    the error, or the genesis time the scheduler keeps. *)
Definition Initialize (genesis : result Z) : result Time :=
  match genesis with
  | Err err => Err err
  | Ok genesisTime => Ok (Unix (i64_of_u64 genesisTime))
  end.

(** [time.Until(t)], with [now] the reading of the clock it takes. *)
Definition Until (t now : Time) : Z := Sub t now.

(** What a wait returns: the slot and the error, and the duration of the
    timer it set, if it set one. *)
Record Waited : Type := mkWaited {
  slot : Z;
  err : option error;
  timer : option Z
}.

Section Waiting.

Variable genesisTime : Time.
(** [s.intervalSlots], an [int]. *)
Variable intervalSlots : Z.
(** The two readings of the clock a wait takes (in CurrentSlot and in
    time.Until), and whether the timer fired before the context was
    cancelled. *)
Variable now1 now2 : Time.
Variable fired : bool.

(** WaitForNextSlot waits until the next slot begins. *)
Definition WaitForNextSlot : Waited :=
  let currentSlot := CurrentSlot genesisTime now1 in
  let nextSlot := add_u64 currentSlot 1 in
  let nextSlotTime := SlotTime genesisTime nextSlot in
  let waitDuration := Until nextSlotTime now2 in
  if waitDuration >? 0
  then if fired then mkWaited nextSlot None (Some waitDuration)
       else mkWaited 0 (Some ErrContext) (Some waitDuration)
  else mkWaited nextSlot None None.

(** WaitForSlotInterval waits for the configured number of slots. *)
Definition WaitForSlotInterval : Waited :=
  let currentSlot := CurrentSlot genesisTime now1 in
  let targetSlot := add_u64 currentSlot (wrap_u64 intervalSlots) in
  let targetTime := SlotTime genesisTime targetSlot in
  let waitDuration := Until targetTime now2 in
  if waitDuration >? 0
  then if fired then mkWaited targetSlot None (Some waitDuration)
       else mkWaited 0 (Some ErrContext) (Some waitDuration)
  else mkWaited targetSlot None None.

End Waiting.

(** The largest genesis time, in Unix seconds, the theorems below consider
    (about 146 thousand million years). *)
Definition genesis_limit : Z := 2 ^ 62 - unixToInternal.

End SchedulerWait.

(** ** storage and monitor: the executions a session refuses *)

Module WriteFailures.
Import Storage.

(** The session answers its k-th execution with an error. *)
Definition refused (env : Env) (k : nat) : bool :=
  match exec_result env k with
  | Some _ => true
  | None => false
  end.

(** How many of the [n] executions from the [from]-th on are refused. *)
Definition refusals (env : Env) (from n : nat) : nat :=
  List.length (filter (refused env) (seq from n)).

(** A computation that leaves the statements and the log alone. *)
Definition quiet {A} (m : M A) : Prop :=
  forall w, issued (snd (m w)) = issued w /\ logged_errors (snd (m w)) = logged_errors w.

(** From [w] to [w'] statements were only added, and one error line was
    written for each execution the session refused. *)
Definition accounted (env : Env) (w w' : World) : Prop :=
  exists stmts,
    issued w' = issued w ++ stmts /\
    logged_errors w' =
      (logged_errors w + refusals env (List.length (issued w)) (List.length stmts))%nat.

End WriteFailures.

(** ** beacon: the requests of the duty and reward fetches *)

Module BeaconPosts.
Import BeaconTypes BeaconClient BeaconAPI.

(** [fmt.Sprintf("%d", idx)] for each validator index: the JSON body of the
    request is the array of these strings. *)
Definition request_indices (validatorIndices : list Z) : list string :=
  map encode_uint validatorIndices.

Definition duties_path (epoch : Z) : string :=
  "/eth/v1/validator/duties/attester/" ++ encode_uint epoch.

Definition rewards_path (epoch : Z) : string :=
  "/eth/v1/beacon/rewards/attestations/" ++ encode_uint epoch.

(** A POST as it leaves the client, and what came back. *)
Record Posted (A : Type) : Type := mkPosted {
  path : string;
  body : list string;
  answer : result A;
  calls : list Effect
}.
Arguments mkPosted {A} _ _ _ _.
Arguments path {A} _.
Arguments body {A} _.
Arguments answer {A} _.
Arguments calls {A} _.

Section Operations.

Variable net : Z -> Attempt.

(** GetAttesterDuties fetches attestation duties for validators in an
    epoch; [decode] is the JSON decoder for an AttesterDutiesResponse. *)
Definition GetAttesterDuties (decode : string -> result AttesterDutiesResponse)
    (epoch : Z) (validatorIndices : list Z) : Posted AttesterDutiesResponse :=
  let r := doRequestWithBody AttesterDutiesResponse decode net in
  mkPosted (duties_path epoch) (request_indices validatorIndices)
    (match reply_error r with
     | Some err => Err (Wrapped ("failed to get attester duties for epoch " ++ encode_uint epoch) err)
     | None =>
         Ok (match reply_value r with
             | Some resp => resp
             | None => mkDutiesResponse EmptyString false []
             end)
     end)
    (reply_trace r).

(** GetAttestationRewards fetches attestation rewards for validators in an
    epoch; [decode] is the JSON decoder for the response, whose [Data] is
    returned. *)
Definition GetAttestationRewards (decode : string -> result AttestationRewardsData)
    (epoch : Z) (validatorIndices : list Z) : Posted AttestationRewardsData :=
  let r := doRequestWithBody AttestationRewardsData decode net in
  mkPosted (rewards_path epoch) (request_indices validatorIndices)
    (match reply_error r with
     | Some err => Err (Wrapped ("failed to get attestation rewards for epoch " ++ encode_uint epoch) err)
     | None =>
         Ok (match reply_value r with
             | Some data => data
             | None => mkRewardsData [] []
             end)
     end)
    (reply_trace r).

End Operations.

End BeaconPosts.

(** ** monitor: the epochs reported as finalized over a run of ticks *)

Module Catchup.
Import Scheduler.

(** The epochs of the EPOCH_FINALIZED events of a run, in the order they
    were emitted. *)
Definition finalized_epochs (evs : list (list ScheduleEvent)) : list Z :=
  map Epoch (filter is_finalized_event (List.concat evs)).

Definition is_boundary_event (ev : ScheduleEvent) : bool :=
  match Type_ ev with EventTypeEpochBoundary => true | _ => false end.

(** The epochs of the EPOCH_BOUNDARY events of a run, in the order they
    were emitted. *)
Definition boundary_epochs (evs : list (list ScheduleEvent)) : list Z :=
  map Epoch (filter is_boundary_event (List.concat evs)).

(** Every element is at least [from] and at least the one before it. *)
Fixpoint nondecreasing (from : Z) (l : list Z) : Prop :=
  match l with
  | [] => True
  | x :: rest => from <= x /\ nondecreasing x rest
  end.

(** Every element is above [from] and above the one before it. *)
Fixpoint increasing (from : Z) (l : list Z) : Prop :=
  match l with
  | [] => True
  | x :: rest => from < x /\ increasing x rest
  end.

End Catchup.

(** ** Concrete inputs for the clock, the dispatcher and the configuration *)

Module Examples.
Import GoTime.
Import PrimFloat.

(** A genesis time and an instant 125 s and 5 ns later, in slot 10. *)
Definition genesis : Time := mkTime 63900000000 0 Local.
Definition in_slot_10 : Time := mkTime 63900000125 5 Local.

(** A context cancelled from its third poll on. *)
Definition cancelled_from_2 (k : nat) : bool := Nat.leb 2 k.

(** The events of a tick at slot 32 for two validators. *)
Definition poll_and_boundary : list Scheduler.ScheduleEvent :=
  [Scheduler.mkEvent 32 1 Scheduler.EventTypeSlotPoll [100; 101];
   Scheduler.mkEvent 32 2 Scheduler.EventTypeEpochBoundary [100; 101]].

(** Ticks at slots 32, 33, 34 and 64: the node reports epoch 13 as
    finalized, then fails, then reports 12, then 15. *)
Definition four_ticks : list (Z * result Scheduler.FinalityCheckpoints) :=
  [(32, Scheduler.finality_ok 13);
   (33, Err (ErrTransport "connection refused"));
   (34, Scheduler.finality_ok 12);
   (64, Scheduler.finality_ok 15)].

(** A configuration file that sets the required fields only. *)
Definition minimal_config : Config.Config :=
  Config.mkConfig "http://localhost:5052" [100] 0 0
    (Config.mkRateLimitConf 0%float 0)
    (Config.mkHTTPConf 0 0)
    (Config.mkScyllaDBConf ["127.0.0.1"%string] "pauli" 0 EmptyString 0 0 0).

End Examples.

(** * Properties *)

(** ** Fixed-width integers *)

Lemma wrap_u64_id z : is_u64 z -> wrap_u64 z = z.
Proof.
  unfold is_u64, wrap_u64, max_u64. intros H.
  apply Z.mod_small. lia.
Qed.

Lemma wrap_u64_range z : is_u64 (wrap_u64 z).
Proof.
  unfold is_u64, wrap_u64, max_u64.
  assert (0 <= z mod two64 < two64) by (apply Z.mod_pos_bound; reflexivity).
  lia.
Qed.

Lemma wrap_i64_id z : is_i64 z -> wrap_i64 z = z.
Proof.
  unfold is_i64, wrap_i64, min_i64, max_i64. intros H.
  rewrite Z.mod_small; [lia |].
  change two64 with (2 * two63). lia.
Qed.

Lemma wrap_i64_range z : is_i64 (wrap_i64 z).
Proof.
  unfold is_i64, wrap_i64, min_i64, max_i64.
  assert (0 <= (z + two63) mod two64 < two64) by (apply Z.mod_pos_bound; reflexivity).
  change two64 with (2 * two63) in *. lia.
Qed.

(** ** Scheduler *)

Module SchedulerFacts.
Import Scheduler.

Lemma epochs_from_S lo n : epochs_from lo (S n) = lo :: epochs_from (lo + 1) n.
Proof.
  unfold epochs_from. cbn [seq map]. f_equal; [lia |].
  rewrite <- seq_shift, map_map.
  apply map_ext. intros i. lia.
Qed.

Lemma epochs_from_length lo n : List.length (epochs_from lo n) = n.
Proof. unfold epochs_from. now rewrite length_map, length_seq. Qed.

Lemma finalized_loop_step fuel s slot F e events :
  finalized_loop (S fuel) s slot F e events =
    if e <=? F
    then finalized_loop fuel s slot F (add_u64 e 1) (events ++ [finalized_event s slot e])
    else Some events.
Proof. reflexivity. Qed.

(** Below the largest [uint64] the loop stops after one event per epoch. *)
Lemma finalized_loop_returns s slot F :
  F < max_u64 ->
  forall n e events k,
    0 <= e -> e + Z.of_nat n = F + 1 ->
    finalized_loop (S (n + k)) s slot F e events =
      Some (events ++ map (finalized_event s slot) (epochs_from e n)).
Proof.
  intros HF. induction n as [| n IH]; intros e events k He Hn.
  - rewrite finalized_loop_step.
    replace (e <=? F) with false by (symmetry; apply Z.leb_gt; lia).
    cbn. now rewrite app_nil_r.
  - change (S (S n + k)) with (S (S (n + k))). rewrite finalized_loop_step.
    replace (e <=? F) with true by (symmetry; apply Z.leb_le; lia).
    unfold add_u64. rewrite wrap_u64_id by (unfold is_u64; lia).
    rewrite IH by lia.
    rewrite epochs_from_S. cbn [map]. now rewrite <- app_assoc.
Qed.

(** At the largest [uint64] the condition [e <= finalizedEpoch] never fails. *)
Lemma finalized_loop_max s slot :
  forall fuel e events,
    is_u64 e -> finalized_loop fuel s slot max_u64 e events = None.
Proof.
  induction fuel as [| fuel IH]; intros e events He; [reflexivity |].
  rewrite finalized_loop_step.
  replace (e <=? max_u64) with true by (symmetry; apply Z.leb_le; unfold is_u64 in He; lia).
  apply IH, wrap_u64_range.
Qed.

Lemma finalized_loop_shape s slot F :
  forall fuel e events events',
    finalized_loop fuel s slot F e events = Some events' ->
    exists fin, events' = events ++ fin /\
                forallb is_finalized_event fin = true.
Proof.
  induction fuel as [| fuel IH]; intros e events events' H; [discriminate |].
  rewrite finalized_loop_step in H. destruct (e <=? F).
  - apply IH in H. destruct H as (fin & -> & Hfin).
    exists (finalized_event s slot e :: fin). split.
    + now rewrite <- app_assoc.
    + cbn. exact Hfin.
  - injection H as <-. exists []. now rewrite app_nil_r.
Qed.

Lemma after_boundary_fields s slot :
  validators (after_boundary s slot) = validators s /\
  lastFinalEpoch (after_boundary s slot) = lastFinalEpoch s /\
  lastEpoch (after_boundary s slot) =
    (if boundary_due s slot then slot / SlotsPerEpoch else lastEpoch s).
Proof. unfold after_boundary. destruct (boundary_due s slot); auto. Qed.

(** NextEvents with the epoch-boundary step named. *)
Lemma NextEvents_unfold fuel s slot cps :
  NextEvents fuel s slot cps =
    let s1 := after_boundary s slot in
    let events := slot_poll_event s slot :: boundary_events s slot in
    match cps with
    | Err _ =>
        Some (events, None,
              mkScheduler (validators s1) (lastEpoch s1) (lastFinalEpoch s1) (S (warnings s1)))
    | Ok c =>
        if cp_Epoch (Finalized c) >? lastFinalEpoch s1
        then match finalized_loop fuel s1 slot (cp_Epoch (Finalized c))
                     (add_u64 (lastFinalEpoch s1) 1) events with
             | None => None
             | Some events' =>
                 Some (events', None,
                       mkScheduler (validators s1) (lastEpoch s1)
                                   (cp_Epoch (Finalized c)) (warnings s1))
             end
        else Some (events, None, s1)
    end.
Proof.
  unfold NextEvents, after_boundary, boundary_events, boundary_event,
    slot_poll_event, boundary_due.
  destruct ((slot mod SlotsPerEpoch =? 0) && negb (slot / SlotsPerEpoch =? lastEpoch s));
    reflexivity.
Qed.

Lemma boundary_due_iff s slot :
  boundary_due s slot = true <->
  slot mod SlotsPerEpoch = 0 /\ slot / SlotsPerEpoch <> lastEpoch s.
Proof.
  unfold boundary_due.
  rewrite andb_true_iff, negb_true_iff, Z.eqb_eq, Z.eqb_neq. tauto.
Qed.

Lemma finalized_event_validators s slot :
  finalized_event (after_boundary s slot) slot = finalized_event s slot.
Proof.
  unfold finalized_event.
  now destruct (after_boundary_fields s slot) as (-> & _).
Qed.

(** Catch-up: with F below the largest [uint64], one tick emits the events
    of every epoch of (last, F] in ascending order and records F. *)
Lemma NextEvents_catch_up s slot c :
  let last := lastFinalEpoch s in
  let F := cp_Epoch (Finalized c) in
  0 <= last -> last < F -> F < max_u64 ->
  forall fuel, (S (Z.to_nat (F - last)) <= fuel)%nat ->
  exists s',
    NextEvents fuel s slot (Ok c) =
      Some (slot_poll_event s slot :: boundary_events s slot ++
              map (finalized_event s slot) (epochs_between last F),
            None, s') /\
    lastFinalEpoch s' = F /\
    lastEpoch s' = (if boundary_due s slot then slot / SlotsPerEpoch else lastEpoch s).
Proof.
  intros last F Hlast HF Hmax fuel Hfuel.
  rewrite NextEvents_unfold. cbv zeta.
  destruct (after_boundary_fields s slot) as (Hv & Hl & He).
  rewrite Hl. fold last F.
  replace (F >? last) with true by (symmetry; apply Z.gtb_lt; lia).
  unfold add_u64. rewrite wrap_u64_id by (unfold is_u64; lia).
  replace fuel with (S (Z.to_nat (F - last) + (fuel - S (Z.to_nat (F - last)))))%nat by lia.
  rewrite finalized_loop_returns by lia.
  rewrite finalized_event_validators.
  eexists. split; [reflexivity |]. cbn. split; [reflexivity | exact He].
Qed.

Lemma NextEvents_lastFinal fuel s slot cps events err s' :
  NextEvents fuel s slot cps = Some (events, err, s') ->
  lastFinalEpoch s' = lastFinalEpoch s \/
  (lastFinalEpoch s < lastFinalEpoch s' /\ pending_finalized s cps = Some (lastFinalEpoch s')).
Proof.
  rewrite NextEvents_unfold. cbv zeta.
  destruct (after_boundary_fields s slot) as (Hv & Hl & He).
  unfold pending_finalized.
  destruct cps as [c | e0].
  - rewrite Hl. destruct (cp_Epoch (Finalized c) >? lastFinalEpoch s) eqn:Hgt.
    + destruct (finalized_loop _ _ _ _ _ _); [| discriminate].
      intros H. injection H as <- <- <-. right. cbn.
      apply Z.gtb_lt in Hgt. split; [lia | reflexivity].
    + intros H. injection H as <- <- <-. now left.
  - intros H. injection H as <- <- <-. now left.
Qed.

Lemma run_ticks_monotone :
  forall ticks fuel s evs s',
    run_ticks fuel s ticks = Some (evs, s') ->
    lastFinalEpoch s <= lastFinalEpoch s'.
Proof.
  induction ticks as [| [slot cps] rest IH]; intros fuel s evs s' H; cbn in H.
  - injection H as <- <-. lia.
  - destruct (NextEvents fuel s slot cps) as [[[events err] s1] |] eqn:Hn; [| discriminate].
    destruct (run_ticks fuel s1 rest) as [[evs1 s2] |] eqn:Hr; [| discriminate].
    injection H as <- <-.
    apply IH in Hr. apply NextEvents_lastFinal in Hn. lia.
Qed.

(** C4.  Shape of a tick.  Whenever NextEvents returns at a slot s (a
    uint64) with e = s / 32, the error is nil and the list is the SLOT_POLL
    event for (s, e, V), then the EPOCH_BOUNDARY event for epoch e+1 exactly
    when s mod 32 = 0 and e differs from lastEpoch (which is then set to e,
    and is otherwise kept), then only EPOCH_FINALIZED events.  The call does
    return unless a finalized epoch equal to the largest uint64 is pending. *)
Theorem NextEvents_tick_order s slot cps :
  is_u64 slot ->
  let e := slot / SlotsPerEpoch in
  let due := boundary_due s slot in
  (due = true <-> slot mod SlotsPerEpoch = 0 /\ e <> lastEpoch s) /\
  (forall fuel events err s',
      NextEvents fuel s slot cps = Some (events, err, s') ->
      err = None /\
      lastEpoch s' = (if due then e else lastEpoch s) /\
      exists fin,
        events =
          mkEvent slot e EventTypeSlotPoll (validators s)
          :: (if due
              then [mkEvent slot (e + 1) EventTypeEpochBoundary (validators s)]
              else [])
          ++ fin /\
        forallb is_finalized_event fin = true) /\
  (is_u64 (lastFinalEpoch s) -> checkpoints_wf cps ->
   pending_finalized s cps <> Some max_u64 ->
   exists n, forall fuel, (n <= fuel)%nat -> NextEvents fuel s slot cps <> None).
Proof.
  intros Hslot e due.
  assert (Hb : boundary_events s slot =
               if due then [mkEvent slot (e + 1) EventTypeEpochBoundary (validators s)]
               else []).
  { unfold boundary_events, boundary_event. fold due. fold e.
    unfold add_u64. rewrite wrap_u64_id; [reflexivity |].
    unfold is_u64, max_u64, two64 in *. subst e. unfold SlotsPerEpoch.
    assert (0 <= slot / 32 <= slot) by (split; [apply Z.div_pos | apply Z.div_le_upper_bound]; lia).
    assert (slot / 32 < 2 ^ 64 / 32) by (apply Z.div_lt_upper_bound; [lia |];
      change (32 * (2 ^ 64 / 32)) with (2 ^ 64); lia).
    change (2 ^ 64 / 32) with 576460752303423488 in *. lia. }
  split; [apply boundary_due_iff |]. split.
  - intros fuel events err s'. rewrite NextEvents_unfold. cbv zeta.
    destruct (after_boundary_fields s slot) as (Hv & Hl & He).
    fold due e in He. rewrite Hb.
    destruct cps as [c | e0].
    + destruct (cp_Epoch (Finalized c) >? _).
      * destruct (finalized_loop _ _ _ _ _ _) as [events' |] eqn:Hloop; [| discriminate].
        intros H. injection H as <- <- <-.
        apply finalized_loop_shape in Hloop. destruct Hloop as (fin & -> & Hfin).
        split; [reflexivity |]. split; [exact He |].
        exists fin. split; [reflexivity | exact Hfin].
      * intros H. injection H as <- <- <-.
        split; [reflexivity |]. split; [exact He |].
        exists []. split; [now rewrite app_nil_r | reflexivity].
    + intros H. injection H as <- <- <-.
      split; [reflexivity |]. split; [exact He |].
      exists []. split; [now rewrite app_nil_r | reflexivity].
  - intros Hlast Hwf Hpend.
    destruct cps as [c | e0].
    + unfold checkpoints_wf in Hwf. unfold pending_finalized in Hpend.
      destruct (cp_Epoch (Finalized c) >? lastFinalEpoch s) eqn:Hgt.
      * apply Z.gtb_lt in Hgt.
        assert (cp_Epoch (Finalized c) < max_u64).
        { unfold is_u64 in Hwf.
          destruct (Z.eq_dec (cp_Epoch (Finalized c)) max_u64) as [E | E]; [| lia].
          rewrite E in Hpend. congruence. }
        exists (S (Z.to_nat (cp_Epoch (Finalized c) - lastFinalEpoch s))).
        intros fuel Hfuel.
        destruct (NextEvents_catch_up s slot c) with (fuel := fuel) as (s' & Hs' & _);
          try (unfold is_u64 in Hlast; lia).
        rewrite Hs'. discriminate.
      * exists O. intros fuel _. rewrite NextEvents_unfold. cbv zeta.
        destruct (after_boundary_fields s slot) as (_ & Hl & _). rewrite Hl, Hgt.
        discriminate.
    + exists O. intros fuel _. rewrite NextEvents_unfold. discriminate.
Qed.

(** C7.  When the finality lookup fails, NextEvents returns a nil error
    and the list made of the SLOT_POLL event followed by the EPOCH_BOUNDARY
    event when one is due; the list holds no EPOCH_FINALIZED event and
    lastFinalEpoch is unchanged. *)
Theorem NextEvents_finality_failure fuel s slot err :
  exists s',
    NextEvents fuel s slot (Err err) =
      Some (slot_poll_event s slot
              :: (if boundary_due s slot then [boundary_event s slot] else []),
            None, s') /\
    existsb is_finalized_event
      (slot_poll_event s slot
         :: (if boundary_due s slot then [boundary_event s slot] else [])) = false /\
    lastFinalEpoch s' = lastFinalEpoch s /\
    lastEpoch s' = (if boundary_due s slot then slot / SlotsPerEpoch else lastEpoch s).
Proof.
  rewrite NextEvents_unfold. cbv zeta.
  destruct (after_boundary_fields s slot) as (Hv & Hl & He).
  eexists. split; [reflexivity |]. cbn.
  split; [now destruct (boundary_due s slot) |]. now split.
Qed.

(** C3 (defect).  When the finality lookup reports the largest uint64 as
    finalized epoch and lastFinalEpoch is below it, the loop condition
    [e <= finalizedEpoch] holds for every uint64 [e]: the call never
    returns, whatever number of iterations it is given. *)
Theorem NextEvents_finalized_max_never_returns s slot c :
  is_u64 (lastFinalEpoch s) ->
  lastFinalEpoch s < max_u64 ->
  cp_Epoch (Finalized c) = max_u64 ->
  forall fuel, NextEvents fuel s slot (Ok c) = None.
Proof.
  intros Hu Hlt HF fuel. rewrite NextEvents_unfold. cbv zeta.
  destruct (after_boundary_fields s slot) as (Hv & Hl & He).
  rewrite Hl, HF.
  replace (max_u64 >? lastFinalEpoch s) with true by (symmetry; apply Z.gtb_lt; lia).
  rewrite finalized_loop_max; [reflexivity | apply wrap_u64_range].
Qed.

End SchedulerFacts.

(** ** strconv and the quoted-integer decoders *)

Module DecoderFacts.
Import Strconv BeaconTypes.

(** *** Strings *)

Lemma string_length_app s t :
  String.length (s ++ t)%string = (String.length s + String.length t)%nat.
Proof. induction s as [| c s IH]; cbn; [reflexivity | now rewrite IH]. Qed.

Lemma get_app_end s c :
  String.get (String.length s) (s ++ String c EmptyString)%string = Some c.
Proof. induction s as [| a s IH]; cbn; [reflexivity | exact IH]. Qed.

Lemma substring_app_prefix s t :
  String.substring 0 (String.length s) (s ++ t)%string = s.
Proof.
  induction s as [| a s IH]; cbn.
  - now destruct t.
  - now rewrite IH.
Qed.

Lemma strip_quotes_quoted s : strip_quotes (quoted s) = s.
Proof.
  unfold strip_quotes, quoted.
  cbn [String.length String.get]. rewrite string_length_app. cbn [String.length].
  replace (S (String.length s + 1) - 1)%nat with (S (String.length s)) by lia.
  replace (S (String.length s + 1) - 2)%nat with (String.length s) by lia.
  cbn [String.get]. replace (String.length s - 0)%nat with (String.length s) by lia.
  rewrite get_app_end, Ascii.eqb_refl.
  replace (2 <=? S (String.length s + 1))%nat with true
    by (symmetry; apply Nat.leb_le; lia).
  cbn [andb String.substring]. apply substring_app_prefix.
Qed.

Lemma last_char_split t c :
  (1 <= String.length t)%nat ->
  String.get (String.length t - 1) t = Some c ->
  t = (String.substring 0 (String.length t - 1) t ++ String c EmptyString)%string.
Proof.
  induction t as [| a t IH]; cbn [String.length]; intros Hlen Hget; [lia |].
  destruct t as [| b t].
  - cbn in *. now injection Hget as ->.
  - replace (S (String.length (String b t)) - 1)%nat
      with (S (String.length (String b t) - 1)) in * by (cbn; lia).
    cbn [String.get] in Hget. cbn [String.substring append].
    f_equal. apply IH; [cbn; lia |].
    replace (String.length (String b t) - 1 - 0)%nat
      with (String.length (String b t) - 1)%nat in Hget by lia.
    exact Hget.
Qed.

(** What the quote removal does to a token: nothing, or the token is the
    quoted form of what is left. *)
Lemma strip_quotes_cases tok :
  strip_quotes tok = tok \/
  (strip_quotes tok = String.substring 1 (String.length tok - 2) tok /\
   tok = quoted (strip_quotes tok)).
Proof.
  unfold strip_quotes.
  destruct (2 <=? String.length tok)%nat eqn:Hlen; [| now left].
  destruct (String.get 0 tok) as [c0 |] eqn:H0; [| now left].
  destruct (Ascii.eqb c0 quote_char) eqn:Hc0; [| now left].
  destruct (String.get (String.length tok - 1) tok) as [c1 |] eqn:H1; [| now left].
  destruct (Ascii.eqb c1 quote_char) eqn:Hc1; [| now left].
  cbn [andb]. right. split; [reflexivity |].
  apply Ascii.eqb_eq in Hc0, Hc1. subst c0 c1.
  apply Nat.leb_le in Hlen.
  destruct tok as [| a t]; [cbn in Hlen; lia |].
  cbn in H0. injection H0 as ->.
  cbn [String.length] in *.
  replace (S (String.length t) - 1)%nat with (S (String.length t - 1)) in H1 by lia.
  cbn [String.get] in H1.
  replace (S (String.length t) - 2)%nat with (String.length t - 1)%nat by lia.
  cbn [String.substring]. unfold quoted. f_equal.
  apply last_char_split; [lia |].
  destruct t as [| b t]; [cbn in Hlen; lia |].
  cbn [String.get] in H1.
  replace (String.length (String b t) - 1 - 0)%nat
      with (String.length (String b t) - 1)%nat in H1 by lia.
  exact H1.
Qed.

(** *** Digits *)

Lemma byte_of_range c : 0 <= byte_of c < 256.
Proof.
  unfold byte_of. pose proof (N_ascii_bounded c). lia.
Qed.

Lemma byte_of_inj c c' : byte_of c = byte_of c' -> c = c'.
Proof.
  unfold byte_of. intros H.
  rewrite <- (ascii_N_embedding c), <- (ascii_N_embedding c').
  f_equal. lia.
Qed.

Lemma byte_of_digit_char d : 0 <= d <= 9 -> byte_of (digit_char d) = 48 + d.
Proof.
  intros H. unfold byte_of, digit_char.
  rewrite N_ascii_embedding by lia. lia.
Qed.

Lemma is_digit_range c : is_digit c = true <-> 48 <= byte_of c <= 57.
Proof. unfold is_digit. rewrite andb_true_iff, !Z.leb_le. tauto. Qed.

(** The switch of the loop yields a digit below the base exactly on the
    ten decimal digits. *)
Lemma digit_of_decimal c :
  match digit_of (byte_of c) with
  | Some d => if d >=? 10 then is_digit c = false
              else is_digit c = true /\ d = byte_of c - 48
  | None => is_digit c = false
  end.
Proof.
  unfold digit_of, is_digit.
  destruct ((48 <=? byte_of c) && (byte_of c <=? 57)) eqn:Hd.
  - apply andb_true_iff in Hd. rewrite !Z.leb_le in Hd.
    replace (byte_of c - 48 >=? 10) with false by (symmetry; rewrite Z.geb_leb; apply Z.leb_gt; lia).
    split; reflexivity.
  - destruct ((97 <=? lower (byte_of c)) && (lower (byte_of c) <=? 122)) eqn:Hl;
      [| reflexivity].
    apply andb_true_iff in Hl. rewrite !Z.leb_le in Hl.
    replace (lower (byte_of c) - 97 + 10 >=? 10) with true
      by (symmetry; rewrite Z.geb_leb; apply Z.leb_le; lia).
    reflexivity.
Qed.

Lemma dec_value_ge s :
  forall acc, all_digits s = true -> 0 <= acc -> acc <= dec_value s acc.
Proof.
  induction s as [| c s IH]; cbn [all_digits dec_value]; intros acc Hd Hacc; [lia |].
  apply andb_true_iff in Hd. destruct Hd as [Hc Hs].
  apply is_digit_range in Hc.
  specialize (IH (acc * 10 + (byte_of c - 48)) Hs). lia.
Qed.

Lemma dec_value_app s t acc :
  dec_value (s ++ t) acc = dec_value t (dec_value s acc).
Proof. revert acc. induction s as [| c s IH]; cbn; intros acc; [reflexivity | apply IH]. Qed.

Lemma all_digits_app s t :
  all_digits (s ++ t) = all_digits s && all_digits t.
Proof.
  induction s as [| c s IH]; cbn; [reflexivity |].
  rewrite IH. now rewrite andb_assoc.
Qed.

Lemma wrap_u64_overflow z : two64 <= z < 2 * two64 -> wrap_u64 z = z - two64.
Proof.
  intros H. unfold wrap_u64. symmetry.
  apply Z.mod_unique with (q := 1); lia.
Qed.

(** *** ParseUint *)

(** The loop accepts exactly the digit strings whose value fits, and then
    returns that value. *)
Lemma parse_uint_loop_spec s0 s :
  forall n, is_u64 n ->
    match parse_uint_loop 10 cutoff10 max_u64 s0 s n with
    | (v, None) => all_digits s = true /\ v = dec_value s n /\ is_u64 v
    | (v, Some (ErrRange _ _)) =>
        v = max_u64 /\ (all_digits s = true -> max_u64 < dec_value s n)
    | (_, Some _) => all_digits s = false
    end.
Proof.
  induction s as [| c s IH]; intros n Hn; cbn [parse_uint_loop all_digits dec_value].
  - auto.
  - pose proof (digit_of_decimal c) as Hc. pose proof (byte_of_range c) as Hb.
    destruct (digit_of (byte_of c)) as [d |]; [| now rewrite Hc].
    destruct (d >=? 10); [now rewrite Hc |].
    destruct Hc as (Hc & ->). rewrite Hc. cbn [andb].
    apply is_digit_range in Hc.
    unfold is_u64 in Hn.
    destruct (n >=? cutoff10) eqn:Hcut.
    + apply Z.geb_le in Hcut. split; [reflexivity |]. intros Hs.
      pose proof (dec_value_ge s (n * 10 + (byte_of c - 48)) Hs).
      unfold cutoff10, max_u64, two64 in *.
      change (2 ^ 64 - 1) with 18446744073709551615 in *.
      change (18446744073709551615 / 10 + 1) with 1844674407370955162 in *. lia.
    + assert (Hlt : n < cutoff10) by (rewrite Z.geb_leb in Hcut; apply Z.leb_gt in Hcut; lia).
      assert (Hmul : mul_u64 n 10 = n * 10).
      { unfold mul_u64. apply wrap_u64_id. unfold is_u64, cutoff10, max_u64, two64 in *.
        change (2 ^ 64 - 1) with 18446744073709551615 in *.
        change (18446744073709551615 / 10 + 1) with 1844674407370955162 in *. lia. }
      rewrite Hmul.
      destruct (Z_le_gt_dec (n * 10 + (byte_of c - 48)) max_u64) as [Hfit | Hover].
      * assert (Hadd : add_u64 (n * 10) (byte_of c - 48) = n * 10 + (byte_of c - 48)).
        { unfold add_u64. apply wrap_u64_id. unfold is_u64. lia. }
        rewrite Hadd.
        replace (n * 10 + (byte_of c - 48) <? n * 10) with false
          by (symmetry; apply Z.ltb_ge; lia).
        replace (n * 10 + (byte_of c - 48) >? max_u64) with false
          by (symmetry; rewrite Z.gtb_ltb; apply Z.ltb_ge; lia).
        cbn [orb]. apply IH. unfold is_u64. lia.
      * assert (Hadd : add_u64 (n * 10) (byte_of c - 48)
                       = n * 10 + (byte_of c - 48) - two64).
        { unfold add_u64. apply wrap_u64_overflow.
          unfold cutoff10, max_u64, two64 in *.
          change (2 ^ 64 - 1) with 18446744073709551615 in *.
          change (18446744073709551615 / 10 + 1) with 1844674407370955162 in *.
          change (2 ^ 64) with 18446744073709551616. lia. }
        rewrite Hadd.
        replace (n * 10 + (byte_of c - 48) - two64 <? n * 10) with true
          by (symmetry; apply Z.ltb_lt; unfold two64; lia).
        cbn [orb]. split; [reflexivity |]. intros Hs.
        pose proof (dec_value_ge s (n * 10 + (byte_of c - 48)) Hs). lia.
Qed.

Lemma ParseUint_spec s :
  match ParseUint s with
  | (v, None) =>
      s <> EmptyString /\ all_digits s = true /\ v = dec_value s 0 /\ is_u64 v
  | (v, Some (ErrRange _ _)) =>
      v = max_u64 /\ (all_digits s = true -> max_u64 < dec_value s 0)
  | (_, Some _) => s = EmptyString \/ all_digits s = false
  end.
Proof.
  unfold ParseUint. destruct s as [| c s]; [now left |].
  pose proof (parse_uint_loop_spec (String c s) (String c s) 0) as H.
  fold cutoff10.
  destruct (parse_uint_loop 10 cutoff10 max_u64 (String c s) (String c s) 0) as [v [e |]].
  - assert (H0 : is_u64 0) by (unfold is_u64, max_u64, two64; lia).
    specialize (H H0). cbn [all_digits] in *.
    destruct e; try (right; exact H); exact H.
  - assert (H0 : is_u64 0) by (unfold is_u64, max_u64, two64; lia).
    specialize (H H0). destruct H as (Hd & Hv & Hr).
    split; [discriminate |]. split; [exact Hd |]. split; [exact Hv | exact Hr].
Qed.

(** *** Decimal notation *)

Lemma app_not_empty s c : (s ++ String c EmptyString)%string <> EmptyString.
Proof. destruct s; discriminate. Qed.

Lemma digits_of_spec :
  forall f n, 0 <= n < 10 ^ Z.of_nat (S f) ->
    digits_of (S f) n <> EmptyString /\
    all_digits (digits_of (S f) n) = true /\
    dec_value (digits_of (S f) n) 0 = n.
Proof.
  induction f as [| f IH]; intros n Hn.
  - change (10 ^ Z.of_nat 1) with 10 in Hn.
    cbn [digits_of]. replace (n <? 10) with true by (symmetry; apply Z.ltb_lt; lia).
    cbn [all_digits dec_value]. unfold is_digit.
    rewrite byte_of_digit_char by lia.
    split; [discriminate |]. split; [| lia].
    rewrite andb_true_r. apply andb_true_iff. rewrite !Z.leb_le. lia.
  - change (digits_of (S (S f)) n) with
      (if n <? 10 then String (digit_char n) EmptyString
       else (digits_of (S f) (n / 10) ++ String (digit_char (n mod 10)) EmptyString)%string).
    destruct (n <? 10) eqn:Hlt.
    + apply Z.ltb_lt in Hlt.
      cbn [all_digits dec_value]. unfold is_digit.
      rewrite byte_of_digit_char by lia.
      split; [discriminate |]. split; [| lia].
      rewrite andb_true_r. apply andb_true_iff. rewrite !Z.leb_le. lia.
    + apply Z.ltb_ge in Hlt.
      assert (Hq : 0 <= n / 10 < 10 ^ Z.of_nat (S f)).
      { split; [apply Z.div_pos; lia |].
        apply Z.div_lt_upper_bound; [lia |].
        replace (Z.of_nat (S (S f))) with (Z.succ (Z.of_nat (S f))) in Hn by lia.
        rewrite Z.pow_succ_r in Hn by lia. lia. }
      destruct (IH _ Hq) as (_ & Hd & Hv).
      assert (Hm : 0 <= n mod 10 < 10) by (apply Z.mod_pos_bound; lia).
      split; [apply app_not_empty |]. split.
      * rewrite all_digits_app, Hd. cbn [all_digits andb]. unfold is_digit.
        rewrite byte_of_digit_char by lia.
        rewrite andb_true_r. apply andb_true_iff. rewrite !Z.leb_le. lia.
      * rewrite dec_value_app, Hv. cbn [dec_value].
        rewrite byte_of_digit_char by lia.
        pose proof (Z.div_mod n 10). lia.
Qed.

Lemma encode_uint_spec n :
  is_u64 n ->
  encode_uint n <> EmptyString /\
  all_digits (encode_uint n) = true /\
  dec_value (encode_uint n) 0 = n.
Proof.
  intros Hn. apply digits_of_spec.
  unfold is_u64, max_u64, two64 in Hn.
  assert (2 ^ 64 < 10 ^ Z.of_nat 20) by reflexivity. lia.
Qed.

Lemma ParseUint_digits s :
  s <> EmptyString -> all_digits s = true -> is_u64 (dec_value s 0) ->
  ParseUint s = (dec_value s 0, None).
Proof.
  intros Hne Hd Hv. pose proof (ParseUint_spec s) as H.
  destruct (ParseUint s) as [v [e |]].
  - exfalso. unfold is_u64 in Hv.
    destruct e; try (destruct H as [H | H]; congruence).
    destruct H as (_ & H). specialize (H Hd). lia.
  - destruct H as (_ & _ & -> & _). reflexivity.
Qed.

(** *** ParseInt *)

Lemma byte_eqb_ascii c k :
  (0 <= k < 256) ->
  (byte_of c =? k) = Ascii.eqb c (ascii_of_N (Z.to_N k)).
Proof.
  intros Hk. destruct (Ascii.eqb_spec c (ascii_of_N (Z.to_N k))) as [-> | Hne].
  - apply Z.eqb_eq. unfold byte_of. rewrite N_ascii_embedding by lia. lia.
  - apply Z.eqb_neq. intros E. apply Hne. apply byte_of_inj.
    rewrite E. unfold byte_of. rewrite N_ascii_embedding by lia. lia.
Qed.

Ltac range_consts :=
  unfold is_i64, is_u64, min_i64, max_i64, max_u64, two64, two63 in *;
  change (2 ^ 64) with 18446744073709551616 in *;
  change (2 ^ 63) with 9223372036854775808 in *.

(** The sign handling and range check of ParseInt, once the sign has been
    taken off: [ds] is what is handed to ParseUint. *)
Lemma ParseInt_checks (neg : bool) (s0 ds : string) :
  let r :=
    let '(un, err) := ParseUint ds in
    match err with
    | Some (ErrRange _ _) | None =>
        if negb neg && (un >=? two63)
        then (i64_of_u64 (two63 - 1), Some (ErrRange fnParseInt s0))
        else if neg && (un >? two63)
        then (neg_i64 (i64_of_u64 two63), Some (ErrRange fnParseInt s0))
        else ((if neg then neg_i64 (i64_of_u64 un) else i64_of_u64 un), None)
    | Some _ => (0, Some (ErrSyntax fnParseInt s0))
    end in
  let denoted :=
    if negb (String.eqb ds EmptyString) && all_digits ds
    then Some (if neg then - dec_value ds 0 else dec_value ds 0)
    else None in
  match r with
  | (v, None) => denoted = Some v /\ is_i64 v
  | (_, Some _) => match denoted with Some v => ~ is_i64 v | None => True end
  end.
Proof.
  cbv zeta. pose proof (ParseUint_spec ds) as H.
  destruct (ParseUint ds) as [un [e |]].
  - assert (Hsyn : (ds = EmptyString \/ all_digits ds = false) ->
                   negb (String.eqb ds EmptyString) && all_digits ds = false).
    { intros [-> | ->]; [reflexivity | apply andb_false_r]. }
    destruct e; try (rewrite (Hsyn H); exact I).
    destruct H as (-> & Hover).
    assert (Hge : (max_u64 >=? two63) = true) by reflexivity.
    assert (Hgt : (max_u64 >? two63) = true) by reflexivity.
    rewrite Hge, Hgt. destruct neg; cbn [negb andb].
    + destruct (negb (String.eqb ds EmptyString) && all_digits ds) eqn:Hd; [| exact I].
      apply andb_true_iff in Hd. destruct Hd as (_ & Hd). specialize (Hover Hd).
      range_consts. lia.
    + destruct (negb (String.eqb ds EmptyString) && all_digits ds) eqn:Hd; [| exact I].
      apply andb_true_iff in Hd. destruct Hd as (_ & Hd). specialize (Hover Hd).
      range_consts. lia.
  - destruct H as (Hne & Hd & -> & Hu).
    apply String.eqb_neq in Hne. rewrite Hne, Hd. cbn [negb andb].
    set (un := dec_value ds 0) in *.
    destruct neg; cbn [negb andb].
    + destruct (un >? two63) eqn:Hgt.
      * rewrite Z.gtb_ltb in Hgt. apply Z.ltb_lt in Hgt. range_consts. lia.
      * rewrite Z.gtb_ltb in Hgt. apply Z.ltb_ge in Hgt.
        assert (Hv : neg_i64 (i64_of_u64 un) = - un).
        { unfold neg_i64, i64_of_u64.
          destruct (Z.eq_dec un two63) as [-> | Hneq]; [reflexivity |].
          rewrite (wrap_i64_id un) by (range_consts; lia).
          apply wrap_i64_id. range_consts. lia. }
        rewrite Hv. split; [reflexivity |]. range_consts. lia.
    + destruct (un >=? two63) eqn:Hge.
      * rewrite Z.geb_leb in Hge. apply Z.leb_le in Hge. range_consts. lia.
      * rewrite Z.geb_leb in Hge. apply Z.leb_gt in Hge.
        unfold i64_of_u64. rewrite wrap_i64_id by (range_consts; lia).
        split; [reflexivity |]. range_consts. lia.
Qed.

Lemma ParseInt_spec s :
  match ParseInt s with
  | (v, None) => body_integer s = Some v /\ is_i64 v
  | (_, Some _) =>
      match body_integer s with
      | Some v => ~ is_i64 v
      | None => True
      end
  end.
Proof.
  destruct s as [| c rest]; [exact I |].
  unfold ParseInt, body_integer.
  rewrite (byte_eqb_ascii c 43), (byte_eqb_ascii c 45) by lia.
  change (ascii_of_N (Z.to_N 43)) with "+"%char.
  change (ascii_of_N (Z.to_N 45)) with "-"%char.
  destruct (Ascii.eqb_spec c "+"%char) as [-> | Hplus].
  - cbn [Ascii.eqb Bool.eqb]. cbv iota.
    exact (ParseInt_checks false (String "+"%char rest) rest).
  - destruct (Ascii.eqb c "-"%char).
    + exact (ParseInt_checks true (String c rest) rest).
    + exact (ParseInt_checks false (String c rest) (String c rest)).
Qed.

(** *** The decoders *)

Lemma body_integer_digits s :
  s <> EmptyString -> all_digits s = true ->
  body_integer s = Some (dec_value s 0).
Proof.
  intros Hne Hd. unfold body_integer.
  destruct s as [| c rest]; [congruence |].
  assert (Hc : is_digit c = true) by (cbn in Hd; now apply andb_true_iff in Hd).
  destruct (Ascii.eqb_spec c "-"%char) as [-> | _]; [discriminate |].
  destruct (Ascii.eqb_spec c "+"%char) as [-> | _]; [discriminate |].
  now rewrite Hd.
Qed.

Lemma body_integer_quoted s : body_integer (quoted s) = None.
Proof. reflexivity. Qed.

Lemma token_integer_strip tok v :
  body_integer (strip_quotes tok) = Some v -> token_integer tok = Some v.
Proof.
  intros H. unfold token_integer.
  destruct (strip_quotes_cases tok) as [E | (E & Q)].
  - rewrite E in H. now rewrite H.
  - rewrite Q at 1. rewrite body_integer_quoted.
    rewrite <- E. rewrite <- Q, String.eqb_refl. exact H.
Qed.

Lemma strip_quotes_bare c rest :
  c <> quote_char -> strip_quotes (String c rest) = String c rest.
Proof.
  intros Hc. destruct (strip_quotes_cases (String c rest)) as [E | (_ & Q)]; [exact E |].
  unfold quoted in Q. congruence.
Qed.

(** Whatever [Uint64Str.UnmarshalJSON] accepts is an optionally quoted
    string of decimal digits, and the value stored is the number written. *)
Lemma Uint64Str_sound tok v :
  Uint64Str_UnmarshalJSON tok = Ok v ->
  token_integer tok = Some v /\ is_u64 v /\
  strip_quotes tok <> EmptyString /\ all_digits (strip_quotes tok) = true.
Proof.
  unfold Uint64Str_UnmarshalJSON. pose proof (ParseUint_spec (strip_quotes tok)) as H.
  destruct (ParseUint (strip_quotes tok)) as [u [e |]]; [discriminate |].
  intros E. injection E as <-. destruct H as (Hne & Hd & Hv & Hu).
  split; [| split; [exact Hu | split; [exact Hne | exact Hd]]].
  apply token_integer_strip. rewrite Hv. now apply body_integer_digits.
Qed.

Lemma Int64Str_sound tok v :
  Int64Str_UnmarshalJSON tok = Ok v ->
  token_integer tok = Some v /\ is_i64 v.
Proof.
  unfold Int64Str_UnmarshalJSON. pose proof (ParseInt_spec (strip_quotes tok)) as H.
  destruct (ParseInt (strip_quotes tok)) as [u [e |]]; [discriminate |].
  intros E. injection E as <-. destruct H as (Hb & Hi).
  split; [now apply token_integer_strip | exact Hi].
Qed.

Lemma Uint64Str_digits s :
  s <> EmptyString -> all_digits s = true -> is_u64 (dec_value s 0) ->
  Uint64Str_UnmarshalJSON s = Ok (dec_value s 0) /\
  Uint64Str_UnmarshalJSON (quoted s) = Ok (dec_value s 0).
Proof.
  intros Hne Hd Hv. unfold Uint64Str_UnmarshalJSON.
  rewrite strip_quotes_quoted.
  assert (Hs : strip_quotes s = s).
  { destruct s as [| c rest]; [congruence |].
    apply strip_quotes_bare. intros ->. discriminate. }
  rewrite Hs, ParseUint_digits by assumption. now split.
Qed.

Lemma Int64Str_body s v :
  body_integer s = Some v -> is_i64 v ->
  Int64Str_UnmarshalJSON s = Ok v /\
  Int64Str_UnmarshalJSON (quoted s) = Ok v.
Proof.
  intros Hb Hv. unfold Int64Str_UnmarshalJSON.
  rewrite strip_quotes_quoted.
  assert (Hs : strip_quotes s = s).
  { destruct s as [| c rest]; [reflexivity |].
    apply strip_quotes_bare. intros ->. discriminate. }
  rewrite Hs. pose proof (ParseInt_spec s) as H.
  destruct (ParseInt s) as [u [e |]].
  - rewrite Hb in H. contradiction.
  - destruct H as (Hb' & _). rewrite Hb in Hb'. injection Hb' as <-. now split.
Qed.

Lemma body_integer_encode_int z :
  is_i64 z -> body_integer (encode_int z) = Some z.
Proof.
  intros Hz. unfold encode_int. destruct (z <? 0) eqn:Hneg.
  - apply Z.ltb_lt in Hneg.
    destruct (encode_uint_spec (- z)) as (Hne & Hd & Hv); [range_consts; lia |].
    unfold body_integer. cbn [Ascii.eqb Bool.eqb]. cbv iota.
    apply String.eqb_neq in Hne. rewrite Hne, Hd, Hv. cbn [negb andb].
    f_equal. lia.
  - apply Z.ltb_ge in Hneg.
    destruct (encode_uint_spec z) as (Hne & Hd & Hv); [range_consts; lia |].
    rewrite body_integer_digits by assumption. now rewrite Hv.
Qed.

(** C6.  Every 64-bit integer field of the response types is a Uint64Str
    or an Int64Str.  For every uint64 n the Uint64Str decoder accepts both
    the number n and the string holding the same digits, with value n; for
    every int64 z (negative ones included) the Int64Str decoder accepts both
    encodings of z, with value z. *)
Theorem decoders_accept_quoted_and_unquoted n z :
  is_u64 n -> is_i64 z ->
  Uint64Str_UnmarshalJSON (encode_uint n) = Ok n /\
  Uint64Str_UnmarshalJSON (quoted (encode_uint n)) = Ok n /\
  Int64Str_UnmarshalJSON (encode_int z) = Ok z /\
  Int64Str_UnmarshalJSON (quoted (encode_int z)) = Ok z.
Proof.
  intros Hn Hz.
  destruct (encode_uint_spec n Hn) as (Hne & Hd & Hv).
  destruct (Uint64Str_digits (encode_uint n)) as (H1 & H2); try assumption.
  { now rewrite Hv. }
  rewrite Hv in H1, H2.
  destruct (Int64Str_body (encode_int z) z) as (H3 & H4);
    [now apply body_integer_encode_int | exact Hz |].
  now repeat split.
Qed.

End DecoderFacts.

(** ** Repository *)

Module StorageFacts.
Import GoTime Storage.

Section WithEnv.

Variable env : Env.

Lemma fill_timestamp_run ts w :
  exists w',
    fill_timestamp env ts w = (stamped env w ts, w') /\
    issued w' = issued w /\ logged_errors w' = logged_errors w.
Proof.
  unfold fill_timestamp, stamped. destruct (IsZero ts).
  - eexists. split; [reflexivity |]. now split.
  - exists w. split; [reflexivity |]. now split.
Qed.

Ltac run_single_save :=
  unfold bind;
  match goal with
  | |- context [fill_timestamp ?e ?t ?w] =>
      destruct (fill_timestamp_run t w) as (?w1 & -> & ?Hi & _)
  end;
  unfold Exec, ret; cbn;
  do 2 eexists; (split; [reflexivity |]); cbn;
  match goal with H : issued _ = issued _ |- _ => now rewrite H end.

Lemma SaveValidatorSnapshot_run s w :
  exists err w',
    SaveValidatorSnapshot env s w =
      ((mkSnapshot (vs_ValidatorIndex s) (vs_Slot s) (vs_Status s) (vs_Balance s)
          (vs_EffectiveBalance s) (stamped env w (vs_Timestamp s)), err), w') /\
    issued w' = issued w ++
      [Query (InsertSnapshot (vs_ValidatorIndex s) (vs_Slot s) (vs_Status s)
                (vs_Balance s) (vs_EffectiveBalance s) (stamped env w (vs_Timestamp s)))].
Proof. unfold SaveValidatorSnapshot. run_single_save. Qed.

Lemma SaveAttestationDuty_run d w :
  exists err w',
    SaveAttestationDuty env d w =
      ((mkDuty (ad_ValidatorIndex d) (ad_Epoch d) (ad_Slot d) (ad_CommitteeIndex d)
          (ad_CommitteePosition d) (stamped env w (ad_Timestamp d)), err), w') /\
    issued w' = issued w ++
      [Query (InsertDuty (ad_ValidatorIndex d) (ad_Epoch d) (ad_Slot d)
                (ad_CommitteeIndex d) (ad_CommitteePosition d)
                (stamped env w (ad_Timestamp d)))].
Proof. unfold SaveAttestationDuty. run_single_save. Qed.

Lemma SaveAttestationReward_run r w :
  exists err w',
    SaveAttestationReward env r w =
      ((mkReward (ar_ValidatorIndex r) (ar_Epoch r) (ar_HeadReward r)
          (ar_SourceReward r) (ar_TargetReward r) (ar_TotalReward r)
          (stamped env w (ar_Timestamp r)), err), w') /\
    issued w' = issued w ++
      [Query (InsertReward (ar_ValidatorIndex r) (ar_Epoch r) (ar_HeadReward r)
                (ar_SourceReward r) (ar_TargetReward r) (ar_TotalReward r)
                (stamped env w (ar_Timestamp r)))].
Proof. unfold SaveAttestationReward. run_single_save. Qed.

Lemma SaveValidatorPenalty_run p w :
  exists err w',
    SaveValidatorPenalty env p w =
      ((mkPenalty (vp_ValidatorIndex p) (vp_Epoch p) (vp_Slot p) (vp_PenaltyType p)
          (vp_PenaltyGwei p) (stamped env w (vp_Timestamp p)), err), w') /\
    issued w' = issued w ++
      [Query (InsertPenalty (vp_ValidatorIndex p) (vp_Epoch p) (vp_Slot p)
                (vp_PenaltyType p) (vp_PenaltyGwei p)
                (stamped env w (vp_Timestamp p)))].
Proof. unfold SaveValidatorPenalty. run_single_save. Qed.

(** C9.  Each single-row save writes, for the timestamp column, the
    current UTC time when the row's timestamp is zero and the row's own
    timestamp otherwise; every other column receives the row's field as it
    was supplied; and exactly one INSERT is handed to the session. *)
Theorem single_row_saves_frame w :
  (forall s,
      let ts := if IsZero (vs_Timestamp s)
                then ToUTC (wall env (clock_reads w)) else vs_Timestamp s in
      exists err w',
        SaveValidatorSnapshot env s w =
          ((mkSnapshot (vs_ValidatorIndex s) (vs_Slot s) (vs_Status s) (vs_Balance s)
              (vs_EffectiveBalance s) ts, err), w') /\
        issued w' = issued w ++
          [Query (InsertSnapshot (vs_ValidatorIndex s) (vs_Slot s) (vs_Status s)
                    (vs_Balance s) (vs_EffectiveBalance s) ts)]) /\
  (forall d,
      let ts := if IsZero (ad_Timestamp d)
                then ToUTC (wall env (clock_reads w)) else ad_Timestamp d in
      exists err w',
        SaveAttestationDuty env d w =
          ((mkDuty (ad_ValidatorIndex d) (ad_Epoch d) (ad_Slot d) (ad_CommitteeIndex d)
              (ad_CommitteePosition d) ts, err), w') /\
        issued w' = issued w ++
          [Query (InsertDuty (ad_ValidatorIndex d) (ad_Epoch d) (ad_Slot d)
                    (ad_CommitteeIndex d) (ad_CommitteePosition d) ts)]) /\
  (forall r,
      let ts := if IsZero (ar_Timestamp r)
                then ToUTC (wall env (clock_reads w)) else ar_Timestamp r in
      exists err w',
        SaveAttestationReward env r w =
          ((mkReward (ar_ValidatorIndex r) (ar_Epoch r) (ar_HeadReward r)
              (ar_SourceReward r) (ar_TargetReward r) (ar_TotalReward r) ts, err), w') /\
        issued w' = issued w ++
          [Query (InsertReward (ar_ValidatorIndex r) (ar_Epoch r) (ar_HeadReward r)
                    (ar_SourceReward r) (ar_TargetReward r) (ar_TotalReward r) ts)]) /\
  (forall p,
      let ts := if IsZero (vp_Timestamp p)
                then ToUTC (wall env (clock_reads w)) else vp_Timestamp p in
      exists err w',
        SaveValidatorPenalty env p w =
          ((mkPenalty (vp_ValidatorIndex p) (vp_Epoch p) (vp_Slot p) (vp_PenaltyType p)
              (vp_PenaltyGwei p) ts, err), w') /\
        issued w' = issued w ++
          [Query (InsertPenalty (vp_ValidatorIndex p) (vp_Epoch p) (vp_Slot p)
                    (vp_PenaltyType p) (vp_PenaltyGwei p) ts)]).
Proof.
  repeat split; intros x ts; subst ts.
  - exact (SaveValidatorSnapshot_run x w).
  - exact (SaveAttestationDuty_run x w).
  - exact (SaveAttestationReward_run x w).
  - exact (SaveValidatorPenalty_run x w).
Qed.

(** Zero is recognised as zero, and a stamped time keeps its instant. *)
Lemma stamped_nonzero w ts : IsZero ts = false -> stamped env w ts = ts.
Proof. unfold stamped. now intros ->. Qed.

Lemma stamped_zero w ts :
  IsZero ts = true -> stamped env w ts = ToUTC (wall env (clock_reads w)).
Proof. unfold stamped. now intros ->. Qed.

End WithEnv.

End StorageFacts.

(** ** Job processing *)

Module MonitorFacts.
Import GoTime Storage Monitor.

Lemma wrap_i64_add_l a b : wrap_i64 (wrap_i64 a + b) = wrap_i64 (a + b).
Proof.
  unfold wrap_i64. f_equal.
  replace ((a + two63) mod two64 - two63 + b + two63)
    with ((a + two63) mod two64 + b) by lia.
  rewrite Zplus_mod_idemp_l. f_equal. lia.
Qed.

(** The int64 sum is the exact sum whenever the exact sum is an int64. *)
Lemma totalReward_exact r :
  is_i64 (BeaconAPI.Head r + BeaconAPI.Source r + BeaconAPI.Target r) ->
  totalReward r = BeaconAPI.Head r + BeaconAPI.Source r + BeaconAPI.Target r.
Proof.
  intros H. unfold totalReward, add_i64.
  rewrite wrap_i64_add_l. now apply wrap_i64_id.
Qed.

Lemma neg_i64_exact z : min_i64 < z -> z <= max_i64 -> neg_i64 z = - z.
Proof.
  intros H1 H2. unfold neg_i64. apply wrap_i64_id.
  unfold is_i64, min_i64, max_i64 in *. lia.
Qed.

Section WithEnv.

Variable env : Env.

Lemma log_if_error_run err w :
  exists w', log_if_error err w = (tt, w') /\ issued w' = issued w.
Proof. destruct err; eexists; (split; [reflexivity |]); reflexivity. Qed.

Lemma Now_run w :
  Now env w = (wall env (clock_reads w),
               mkWorld (S (clock_reads w)) (issued w) (logged_errors w)).
Proof. reflexivity. Qed.

(** Preparing a batch changes timestamps only and hands nothing to the
    session. *)
Lemma restamp_rewards_run l :
  forall w, exists l' w',
    mapM (fun reward =>
            ts <- fill_timestamp env (ar_Timestamp reward) ;;
            ret (mkReward (ar_ValidatorIndex reward) (ar_Epoch reward)
                   (ar_HeadReward reward) (ar_SourceReward reward)
                   (ar_TargetReward reward) (ar_TotalReward reward) ts)) l w = (l', w') /\
    map reward_payload l' = map reward_payload l /\
    issued w' = issued w.
Proof.
  induction l as [| r l IH]; intros w.
  - exists [], w. now repeat split.
  - cbn [mapM]. unfold bind at 1. unfold bind at 1.
    destruct (StorageFacts.fill_timestamp_run env (ar_Timestamp r) w) as (w1 & -> & Hi & _).
    unfold ret at 1. unfold bind at 1.
    destruct (IH w1) as (l' & w' & -> & Hp & Hi').
    eexists _, _. split; [reflexivity |]. cbn [map]. split.
    + now rewrite Hp.
    + congruence.
Qed.

Lemma restamp_duties_run l :
  forall w, exists l' w',
    mapM (fun duty =>
            ts <- fill_timestamp env (ad_Timestamp duty) ;;
            ret (mkDuty (ad_ValidatorIndex duty) (ad_Epoch duty) (ad_Slot duty)
                   (ad_CommitteeIndex duty) (ad_CommitteePosition duty) ts)) l w = (l', w') /\
    map duty_payload l' = map duty_payload l /\
    issued w' = issued w.
Proof.
  induction l as [| r l IH]; intros w.
  - exists [], w. now repeat split.
  - cbn [mapM]. unfold bind at 1. unfold bind at 1.
    destruct (StorageFacts.fill_timestamp_run env (ad_Timestamp r) w) as (w1 & -> & Hi & _).
    unfold ret at 1. unfold bind at 1.
    destruct (IH w1) as (l' & w' & -> & Hp & Hi').
    eexists _, _. split; [reflexivity |]. cbn [map]. split.
    + now rewrite Hp.
    + congruence.
Qed.

Lemma SaveAttestationRewards_run l w :
  exists l' err w',
    SaveAttestationRewards env l w = ((l', err), w') /\
    map reward_payload l' = map reward_payload l /\
    issued w' = issued w ++ [Batch (map reward_insert l')].
Proof.
  unfold SaveAttestationRewards. unfold bind at 1.
  destruct (restamp_rewards_run l w) as (l' & w1 & -> & Hp & Hi).
  unfold bind, Exec, ret. cbn.
  eexists _, _, _. split; [reflexivity |]. split; [exact Hp |]. cbn. now rewrite Hi.
Qed.

Lemma SaveAttestationDuties_run l w :
  exists l' err w',
    SaveAttestationDuties env l w = ((l', err), w') /\
    map duty_payload l' = map duty_payload l /\
    issued w' = issued w ++ [Batch (map duty_insert l')].
Proof.
  unfold SaveAttestationDuties. unfold bind at 1.
  destruct (restamp_duties_run l w) as (l' & w1 & -> & Hp & Hi).
  unfold bind, Exec, ret. cbn.
  eexists _, _, _. split; [reflexivity |]. split; [exact Hp |]. cbn. now rewrite Hi.
Qed.

(** The loop over the returned entries builds one reward per entry and one
    penalty per entry with a negative total, and writes nothing yet. *)
Lemma collect_rewards_run job entries :
  forall w, exists rs ps w',
    collect_rewards env job entries w = ((rs, ps), w') /\
    issued w' = issued w /\
    map reward_payload rs = map (expected_reward job) entries /\
    map penalty_payload ps = map (expected_penalty job) (filter is_penalised entries).
Proof.
  induction entries as [| r rest IH]; intros w.
  - exists [], [], w. now repeat split.
  - cbn [collect_rewards filter]. unfold is_penalised at 1.
    unfold bind at 1. rewrite Now_run.
    set (w1 := mkWorld (S (clock_reads w)) (issued w) (logged_errors w)).
    unfold bind at 1.
    destruct (totalReward r <? 0) eqn:Hneg.
    + unfold bind at 1. rewrite Now_run. unfold ret at 1.
      set (w2 := mkWorld _ _ _).
      unfold bind at 1.
      destruct (IH w2) as (rs & ps & w' & -> & Hi & Hr & Hp).
      unfold ret. eexists _, _, _. split; [reflexivity |].
      cbn [fst snd map app]. split; [exact Hi |]. split.
      * now rewrite Hr.
      * now rewrite Hp.
    + unfold ret at 1. unfold bind at 1.
      destruct (IH w1) as (rs & ps & w' & -> & Hi & Hr & Hp).
      unfold ret. eexists _, _, _. split; [reflexivity |].
      cbn [fst snd map app]. split; [exact Hi |]. split.
      * now rewrite Hr.
      * exact Hp.
Qed.

(** Every collected penalty is handed to SaveValidatorPenalty, in order,
    whatever the outcome of the earlier writes. *)
Lemma save_penalties_run ps :
  forall w, exists out ps' w',
    mapM (fun penalty =>
            saved <- SaveValidatorPenalty env penalty ;;
            log_if_error (snd saved)) ps w = (out, w') /\
    issued w' = issued w ++ map (fun p => Query (penalty_insert p)) ps' /\
    map penalty_payload ps' = map penalty_payload ps.
Proof.
  induction ps as [| p ps IH]; intros w.
  - exists [], [], w. cbn. split; [reflexivity |]. now rewrite app_nil_r.
  - cbn [mapM]. unfold bind at 1. unfold bind at 1.
    destruct (StorageFacts.SaveValidatorPenalty_run env p w) as (err & w1 & -> & Hi1).
    cbn [snd].
    destruct (log_if_error_run err w1) as (w2 & -> & Hi2).
    unfold bind at 1.
    destruct (IH w2) as (out & ps' & w' & -> & Hi & Hp).
    unfold ret.
    exists (tt :: out),
      (mkPenalty (vp_ValidatorIndex p) (vp_Epoch p) (vp_Slot p) (vp_PenaltyType p)
         (vp_PenaltyGwei p) (stamped env w (vp_Timestamp p)) :: ps'), w'.
    split; [reflexivity |]. cbn [map]. split.
    + rewrite Hi, Hi2, Hi1, <- app_assoc. reflexivity.
    + rewrite Hp. reflexivity.
Qed.

Variable api : Api.
Variable validators : list Z.

Lemma processRewardsJob_run job w resp :
  GetAttestationRewards api (Epoch job) validators = Ok resp ->
  exists rewards penalties w',
    processRewardsJob env api validators job w = ((Some rewards, None), w') /\
    issued w' = issued w ++
      Batch (map reward_insert rewards)
      :: map (fun p => Query (penalty_insert p)) penalties /\
    map reward_payload rewards =
      map (expected_reward job) (BeaconAPI.TotalRewards resp) /\
    map penalty_payload penalties =
      map (expected_penalty job) (filter is_penalised (BeaconAPI.TotalRewards resp)).
Proof.
  intros Hfetch. unfold processRewardsJob. rewrite Hfetch.
  unfold bind at 1.
  destruct (collect_rewards_run job (BeaconAPI.TotalRewards resp) w)
    as (rs & ps & w1 & -> & Hi1 & Hr & Hp).
  cbn [fst snd]. unfold bind at 1.
  destruct (SaveAttestationRewards_run rs w1) as (rs' & err & w2 & -> & Hr' & Hi2).
  cbn [fst snd]. unfold bind at 1.
  destruct (log_if_error_run err w2) as (w3 & -> & Hi3).
  unfold bind at 1.
  destruct (save_penalties_run ps w3) as (out & ps' & w4 & -> & Hi4 & Hp').
  unfold ret. exists rs', ps', w4. split; [reflexivity |]. split; [| split].
  - rewrite Hi4, Hi3, Hi2, Hi1, <- app_assoc. reflexivity.
  - congruence.
  - congruence.
Qed.

Lemma processStatusJob_run job w v :
  GetValidator api "head" (ValidatorIndex job) = Ok v ->
  exists s w',
    processStatusJob env api job w = ((Some s, None), w') /\
    snapshot_payload s =
      (ValidatorIndex job, Slot job, BeaconAPI.Status v, BeaconAPI.Balance v,
       BeaconAPI.EffectiveBalance (BeaconAPI.Validator_ v)) /\
    issued w' = issued w ++ [Query (snapshot_insert s)].
Proof.
  intros Hfetch. unfold processStatusJob. rewrite Hfetch.
  unfold bind at 1. rewrite Now_run. unfold bind at 1.
  match goal with
  | |- context [SaveValidatorSnapshot env ?s ?w0] =>
      destruct (StorageFacts.SaveValidatorSnapshot_run env s w0) as (err & w1 & -> & Hi1)
  end.
  cbn [fst snd]. unfold bind at 1.
  destruct (log_if_error_run err w1) as (w2 & -> & Hi2).
  unfold ret. eexists _, _. split; [reflexivity |]. split; [reflexivity |].
  rewrite Hi2, Hi1. reflexivity.
Qed.

Lemma collect_duties_run job ds :
  forall w, exists l w',
    mapM (fun d =>
            now <- Now env ;;
            ret (mkDuty (BeaconAPI.duty_ValidatorIndex d) (Epoch job)
                   (BeaconAPI.duty_Slot d)
                   (i64_of_u64 (BeaconAPI.duty_CommitteeIndex d))
                   (i64_of_u64 (BeaconAPI.duty_ValidatorCommitteeIndex d))
                   (ToUTC now))) ds w = (l, w') /\
    map duty_payload l = map (expected_duty job) ds /\
    issued w' = issued w.
Proof.
  induction ds as [| d ds IH]; intros w.
  - exists [], w. now repeat split.
  - cbn [mapM]. unfold bind at 1. unfold bind at 1. rewrite Now_run.
    unfold ret at 1. unfold bind at 1.
    set (w1 := mkWorld _ _ _).
    destruct (IH w1) as (l & w' & -> & Hp & Hi).
    unfold ret. eexists _, _. split; [reflexivity |]. cbn [map]. split.
    + now rewrite Hp.
    + exact Hi.
Qed.

Lemma processDutiesJob_run job w resp :
  GetAttesterDuties api (Epoch job) validators = Ok resp ->
  exists duties w',
    processDutiesJob env api validators job w = ((Some duties, None), w') /\
    map duty_payload duties = map (expected_duty job) (BeaconAPI.Data resp) /\
    issued w' = issued w ++ [Batch (map duty_insert duties)].
Proof.
  intros Hfetch. unfold processDutiesJob. rewrite Hfetch.
  unfold bind at 1.
  destruct (collect_duties_run job (BeaconAPI.Data resp) w) as (l & w1 & -> & Hp & Hi1).
  unfold bind at 1.
  destruct (SaveAttestationDuties_run l w1) as (l' & err & w2 & -> & Hp' & Hi2).
  cbn [fst snd]. unfold bind at 1.
  destruct (log_if_error_run err w2) as (w3 & -> & Hi3).
  unfold ret. exists l', w3. split; [reflexivity |]. split.
  - congruence.
  - rewrite Hi3, Hi2, Hi1. reflexivity.
Qed.


(** C8.  A STATUS, DUTIES or REWARDS job whose fetch succeeded returns
    the objects it built from the response (the snapshot, the duty list,
    the reward list) and a nil error, for every behaviour of the database
    session, failed writes included. *)
Theorem Process_returns_objects_despite_write_failures job w :
  (Type_ job = JobTypeStatus ->
   forall v, GetValidator api "head" (ValidatorIndex job) = Ok v ->
   exists s w',
     Process env api validators job w = ((DataSnapshot s, None), w') /\
     snapshot_payload s =
       (ValidatorIndex job, Slot job, BeaconAPI.Status v, BeaconAPI.Balance v,
        BeaconAPI.EffectiveBalance (BeaconAPI.Validator_ v))) /\
  (Type_ job = JobTypeDuties ->
   forall resp, GetAttesterDuties api (Epoch job) validators = Ok resp ->
   exists duties w',
     Process env api validators job w = ((DataDuties duties, None), w') /\
     map duty_payload duties = map (expected_duty job) (BeaconAPI.Data resp)) /\
  (Type_ job = JobTypeRewards ->
   forall resp, GetAttestationRewards api (Epoch job) validators = Ok resp ->
   exists rewards w',
     Process env api validators job w = ((DataRewards rewards, None), w') /\
     map reward_payload rewards =
       map (expected_reward job) (BeaconAPI.TotalRewards resp)).
Proof.
  unfold Process. repeat split.
  - intros -> v Hfetch.
    destruct (processStatusJob_run job w v Hfetch) as (s & w' & Hrun & Hp & _).
    exists s, w'. unfold bind. rewrite Hrun. now split.
  - intros -> resp Hfetch.
    destruct (processDutiesJob_run job w resp Hfetch) as (ds & w' & Hrun & Hp & _).
    exists ds, w'. unfold bind. rewrite Hrun. now split.
  - intros -> resp Hfetch.
    destruct (processRewardsJob_run job w resp Hfetch)
      as (rs & ps & w' & Hrun & _ & Hr & _).
    exists rs, w'. unfold bind. rewrite Hrun. now split.
Qed.

End WithEnv.

End MonitorFacts.

(** ** The request loop *)

Module ClientFacts.
Import Backoff BeaconClient.

Section WithRequest.

Variable A : Type.
Variable decode : string -> result A.
Variable maxRetries : Z.
Variable net : Z -> Attempt.

Local Abbreviation loop := (doRequest_loop A decode maxRetries net).

Lemma with_effects_trace es (r : Reply A) :
  reply_trace (with_effects A es r) = es ++ reply_trace r.
Proof. now destruct r as [[e v] t]. Qed.

Lemma with_effects_error es (r : Reply A) :
  reply_error (with_effects A es r) = reply_error r.
Proof. now destruct r as [[e v] t]. Qed.

(** One pass through the loop body: the request ends before the wire,
    ends after this attempt, or goes on to the next attempt after a backoff
    wait. *)
Lemma loop_cases rem a b lastErr :
  let r := loop (S rem) a b lastErr in
  (admitted (net a) = false /\ reply_trace r = [ELimiter]) \/
  (admitted (net a) = true /\ retry_granted maxRetries net a = false /\
   (reply_trace r = [ELimiter; EDo a] \/
    exists d, reply_trace r = [ELimiter; EDo a; EBackoff d]) /\
   (forall st body, http_do (net a) = HttpResponse st body ->
      ShouldRetry st = false -> st <> StatusOK ->
      reply_error r = Some (UnexpectedStatus st body))) \/
  (admitted (net a) = true /\ retry_granted maxRetries net a = true /\
   exists d b' lastErr',
     r = with_effects A [ELimiter; EDo a; EBackoff d] (loop rem (a + 1) b' lastErr')).
Proof.
  cbv zeta. unfold admitted, retry_granted, retryable. cbn [doRequest_loop].
  destruct (limiter_wait (net a)); [left; now split |].
  destruct (new_request (net a)); [left; now split |].
  right.
  destruct (http_do (net a)) as [e | st body].
  - destruct (a <? maxRetries).
    + destruct (NextDelay b (jittered_delay (net a))) as [d b'].
      destruct (wait_completed (net a)).
      * right. split; [reflexivity |]. split; [reflexivity |]. now exists d, b', (Some e).
      * left. split; [reflexivity |]. split; [reflexivity |]. split.
        -- right. now exists d.
        -- discriminate.
    + left. split; [reflexivity |]. split; [reflexivity |]. split; [now left | discriminate].
  - destruct (ShouldRetry st) eqn:Hretry.
    + destruct (a <? maxRetries).
      * destruct (NextDelay b (jittered_delay (net a))) as [d b'].
        destruct (wait_completed (net a)).
        -- right. split; [reflexivity |]. split; [reflexivity |].
           now exists d, b', (Some (RetryableError st body)).
        -- left. split; [reflexivity |]. split; [reflexivity |]. split.
           ++ right. now exists d.
           ++ intros st' body' E. injection E as <- <-. congruence.
      * left. split; [reflexivity |]. split; [reflexivity |]. split; [now left |].
        intros st' body' E. injection E as <- <-. congruence.
    + left. split; [reflexivity |]. split; [reflexivity |].
      destruct (st =? StatusOK) eqn:Hok; cbn [negb].
      * split.
        -- left. now destruct (decode body).
        -- intros st' body' E. injection E as <- <-. intros _ Hne.
           apply Z.eqb_eq in Hok. contradiction.
      * split; [now left |].
        intros st' body' E. injection E as <- <-. reflexivity.
Qed.

Lemma loop_attempts_bound :
  forall rem a b lastErr,
    (List.length (filter is_do (reply_trace (loop rem a b lastErr))) <= rem)%nat.
Proof.
  induction rem as [| rem IH]; intros a b lastErr; [cbn; lia |].
  destruct (loop_cases rem a b lastErr) as [(_ & ->) | [(_ & _ & [-> | (d & ->)] & _) | H]];
    try (cbn; lia).
  destruct H as (_ & _ & d & b' & e' & ->).
  rewrite with_effects_trace. cbn. specialize (IH (a + 1) b' e'). lia.
Qed.

Lemma loop_made_from :
  forall rem a b lastErr i,
    made (loop rem a b lastErr) i -> a <= i < a + Z.of_nat rem.
Proof.
  unfold made. induction rem as [| rem IH]; intros a b lastErr i Hin; [cbn in Hin; tauto |].
  destruct (loop_cases rem a b lastErr) as [(_ & E) | [(_ & _ & [E | (d & E)] & _) | H]].
  - rewrite E in Hin. cbn in Hin. destruct Hin as [Hin | []]; discriminate.
  - rewrite E in Hin. cbn in Hin.
    destruct Hin as [Hin | [Hin | []]]; [discriminate |]. injection Hin as <-. lia.
  - rewrite E in Hin. cbn in Hin.
    destruct Hin as [Hin | [Hin | [Hin | []]]]; try discriminate. injection Hin as <-. lia.
  - destruct H as (_ & _ & d & b' & e' & E). rewrite E, with_effects_trace in Hin.
    cbn in Hin. destruct Hin as [Hin | [Hin | [Hin | Hin]]]; try discriminate.
    + injection Hin as <-. lia.
    + apply IH in Hin. lia.
Qed.

Lemma loop_made_first rem a b lastErr :
  made (loop rem a b lastErr) a <-> (0 < rem)%nat /\ admitted (net a) = true.
Proof.
  unfold made. destruct rem as [| rem]; [cbn; split; [tauto | lia] |].
  destruct (loop_cases rem a b lastErr) as [(Ha & E) | [(Ha & _ & [E | (d & E)] & _) | H]].
  - rewrite E, Ha. cbn. split; [intros [H | []]; discriminate | intros (_ & H); discriminate].
  - rewrite E, Ha. cbn. split; [intros _; split; [lia | reflexivity] | auto].
  - rewrite E, Ha. cbn. split; [intros _; split; [lia | reflexivity] | auto].
  - destruct H as (Ha & _ & d & b' & e' & E). rewrite E, with_effects_trace, Ha.
    cbn. split; [intros _; split; [lia | reflexivity] | auto].
Qed.

(** Attempt i+1 is made exactly when attempt i was made, was granted a
    retry, and the next pass reaches the wire. *)
Lemma loop_made_next :
  forall rem a b lastErr i,
    Z.of_nat rem = maxRetries + 1 - a -> a <= i ->
    (made (loop rem a b lastErr) (i + 1) <->
     made (loop rem a b lastErr) i /\ retry_granted maxRetries net i = true /\
     admitted (net (i + 1)) = true).
Proof.
  induction rem as [| rem IH]; intros a b lastErr i Hrem Hi.
  { unfold made. cbn. tauto. }
  pose proof (loop_made_from (S rem) a b lastErr) as Hfrom.
  destruct (loop_cases rem a b lastErr) as [(Ha & E) | [(Ha & Hg & E & _) | H]].
  - unfold made in *. rewrite E in *. cbn. split.
    + intros [H | []]. discriminate.
    + intros ([H | []] & _). discriminate.
  - assert (Hsub : forall j, made (loop (S rem) a b lastErr) j -> j = a).
    { unfold made. intros j Hj. destruct E as [E | (d & E)]; rewrite E in Hj; cbn in Hj.
      - destruct Hj as [Hj | [Hj | []]]; [discriminate | now injection Hj].
      - destruct Hj as [Hj | [Hj | [Hj | []]]]; try discriminate. now injection Hj. }
    split.
    + intros Hm. apply Hsub in Hm. lia.
    + intros (Hm & Hgi & _). apply Hsub in Hm. subst i. congruence.
  - destruct H as (Ha & Hg & d & b' & e' & E).
    assert (Hlt : a < maxRetries).
    { unfold retry_granted in Hg. apply andb_true_iff in Hg. destruct Hg as (Hg & _).
      apply andb_true_iff in Hg. destruct Hg as (_ & Hg). now apply Z.ltb_lt in Hg. }
    assert (Hmade : forall j, made (loop (S rem) a b lastErr) j <->
                              j = a \/ made (loop rem (a + 1) b' e') j).
    { intros j. unfold made. rewrite E, with_effects_trace. cbn. split.
      - intros [H | [H | [H | H]]]; try discriminate; [left; now injection H | now right].
      - intros [-> | H]; auto. }
    rewrite !Hmade.
    destruct (Z.eq_dec i a) as [-> | Hne].
    + rewrite loop_made_first. split.
      * intros [H | (_ & H)]; [lia |]. split; [now left |]. now split.
      * intros (_ & _ & H). right. split; [lia | exact H].
    + rewrite (IH (a + 1) b' e' i) by lia. split.
      * intros [H | (H1 & H2 & H3)]; [lia |]. split; [now right |]. now split.
      * intros ([H | H1] & H2 & H3); [lia |]. right. now repeat split.
Qed.

(** Between two consecutive attempts lies one backoff wait and one more
    wait on the rate limiter. *)
Lemma loop_backoff_between :
  forall rem a b lastErr i,
    made (loop rem a b lastErr) (i + 1) -> a <= i ->
    exists pre d post,
      reply_trace (loop rem a b lastErr) =
        pre ++ [EDo i; EBackoff d; ELimiter; EDo (i + 1)] ++ post.
Proof.
  induction rem as [| rem IH]; intros a b lastErr i Hm Hi.
  { unfold made in Hm. cbn in Hm. tauto. }
  pose proof (loop_made_from _ _ _ _ _ Hm) as Hrange.
  destruct (loop_cases rem a b lastErr) as [(Ha & E) | [(Ha & Hg & E & _) | H]].
  - unfold made in Hm. rewrite E in Hm. cbn in Hm. destruct Hm as [Hm | []]. discriminate.
  - exfalso. unfold made in Hm. destruct E as [E | (d & E)]; rewrite E in Hm; cbn in Hm.
    + destruct Hm as [Hm | [Hm | []]]; [discriminate | injection Hm as Hm; lia].
    + destruct Hm as [Hm | [Hm | [Hm | []]]]; try discriminate. injection Hm as Hm. lia.
  - destruct H as (Ha & Hg & d & b' & e' & E).
    assert (Hsub : made (loop rem (a + 1) b' e') (i + 1)).
    { unfold made in *. rewrite E, with_effects_trace in Hm. cbn in Hm.
      destruct Hm as [Hm | [Hm | [Hm | Hm]]]; try discriminate; [| exact Hm].
      injection Hm as Hm. lia. }
    rewrite E, with_effects_trace.
    destruct (Z.eq_dec i a) as [-> | Hne].
    + destruct rem as [| rem']; [unfold made in Hsub; cbn in Hsub; tauto |].
      apply loop_made_first in Hsub. destruct Hsub as (_ & Hadm).
      destruct (loop_cases rem' (a + 1) b' e')
        as [(Ha' & _) | [(_ & _ & E' & _) | (_ & _ & d' & b'' & e'' & E')]];
        [congruence | |].
      * destruct E' as [E' | (d' & E')]; rewrite E'.
        -- exists [ELimiter], d, []. reflexivity.
        -- exists [ELimiter], d, [EBackoff d']. reflexivity.
      * rewrite E', with_effects_trace.
        exists [ELimiter], d, (EBackoff d' :: reply_trace (loop rem' (a + 1 + 1) b'' e'')).
        reflexivity.
    + destruct (IH (a + 1) b' e' i Hsub) as (pre & d0 & post & Et); [lia |].
      rewrite Et. exists ([ELimiter; EDo a; EBackoff d] ++ pre), d0, post.
      now rewrite <- app_assoc.
Qed.

(** A status other than 200, 429 and 503 ends the request at once, with
    the status and the body in the error. *)
Lemma loop_other_status :
  forall rem a b lastErr i st body,
    made (loop rem a b lastErr) i ->
    http_do (net i) = HttpResponse st body ->
    ShouldRetry st = false -> st <> StatusOK ->
    reply_error (loop rem a b lastErr) = Some (UnexpectedStatus st body).
Proof.
  induction rem as [| rem IH]; intros a b lastErr i st body Hm Hdo Hr Hne.
  { unfold made in Hm. cbn in Hm. tauto. }
  destruct (loop_cases rem a b lastErr) as [(Ha & E) | [(Ha & Hg & E & Herr) | H]].
  - unfold made in Hm. rewrite E in Hm. cbn in Hm. destruct Hm as [Hm | []]. discriminate.
  - assert (i = a).
    { unfold made in Hm. destruct E as [E | (d & E)]; rewrite E in Hm; cbn in Hm.
      - destruct Hm as [Hm | [Hm | []]]; [discriminate | now injection Hm].
      - destruct Hm as [Hm | [Hm | [Hm | []]]]; try discriminate. now injection Hm. }
    subst i. eapply Herr; eauto.
  - destruct H as (Ha & Hg & d & b' & e' & E).
    rewrite E, with_effects_error.
    unfold made in Hm. rewrite E, with_effects_trace in Hm. cbn in Hm.
    destruct Hm as [Hm | [Hm | [Hm | Hm]]]; try discriminate.
    + injection Hm as <-. exfalso.
      unfold retry_granted, retryable in Hg. rewrite Hdo, Hr in Hg. discriminate.
    + eapply IH; eauto.
Qed.

(** C2, as the code has it.  A GET makes at most maxRetries + 1 attempts,
    numbered 0 to maxRetries.  Attempt i+1 is made exactly when attempt i
    ended in a transport error or in 429 / 503, i is below maxRetries, the
    backoff wait after it ran to its end and the next pass got through the
    rate limiter; a backoff wait lies between the two.  Any other status
    than 200 ends the request at that attempt with an error holding the
    status and the body.  A POST makes one attempt (none when the limiter or
    the request constructor fails), never waits on a backoff, and reports
    any status other than 200, 429 and 503 included, as that error. *)
Theorem request_retry_policy :
  let get := doRequest A decode maxRetries net in
  let post := doRequestWithBody A decode net in
  (attempts_made get <= Z.to_nat (maxRetries + 1))%nat /\
  (forall i, made get i -> 0 <= i <= maxRetries) /\
  (made get 0 <-> 0 <= maxRetries /\ admitted (net 0) = true) /\
  (forall i, 0 <= i ->
     (made get (i + 1) <->
      made get i /\
      retryable (http_do (net i)) = true /\ i < maxRetries /\
      wait_completed (net i) = true /\
      admitted (net (i + 1)) = true)) /\
  (forall i, 0 <= i -> made get (i + 1) ->
     exists pre d post,
       reply_trace get = pre ++ [EDo i; EBackoff d; ELimiter; EDo (i + 1)] ++ post) /\
  (forall i st body,
     made get i -> http_do (net i) = HttpResponse st body ->
     ShouldRetry st = false -> st <> StatusOK ->
     reply_error get = Some (UnexpectedStatus st body) /\ ~ made get (i + 1)) /\
  attempts_made post = (if admitted (net 0) then 1 else 0)%nat /\
  backoff_waits post = [] /\
  (forall st body,
     admitted (net 0) = true -> http_do (net 0) = HttpResponse st body ->
     st <> StatusOK ->
     reply_error post = Some (UnexpectedStatus st body)).
Proof.
  cbv zeta. unfold doRequest.
  set (rem := Z.to_nat (maxRetries + 1)).
  assert (Hrem : 0 <= maxRetries + 1 -> Z.of_nat rem = maxRetries + 1 - 0)
    by (intros; subst rem; lia).
  assert (Hnext : forall i, 0 <= i ->
            (made (loop rem 0 NewDefault None) (i + 1) <->
             made (loop rem 0 NewDefault None) i /\
             retry_granted maxRetries net i = true /\ admitted (net (i + 1)) = true)).
  { intros i Hi. destruct (Z_le_gt_dec 0 (maxRetries + 1)) as [Hle | Hgt].
    - apply loop_made_next; [now apply Hrem | exact Hi].
    - replace rem with O by (subst rem; lia). unfold made. cbn. tauto. }
  assert (Hgranted : forall i, retry_granted maxRetries net i = true <->
            retryable (http_do (net i)) = true /\ i < maxRetries /\
            wait_completed (net i) = true).
  { intros i. unfold retry_granted. rewrite !andb_true_iff, Z.ltb_lt. tauto. }
  split; [apply loop_attempts_bound |].
  split; [intros i Hm; apply loop_made_from in Hm; subst rem; lia |].
  split.
  { rewrite loop_made_first. subst rem. split.
    - intros (H1 & H2). split; [lia | exact H2].
    - intros (H1 & H2). split; [lia | exact H2]. }
  split.
  { intros i Hi. rewrite (Hnext i Hi), Hgranted. tauto. }
  split; [intros i Hi Hm; now apply loop_backoff_between |].
  split.
  { intros i st body Hm Hdo Hr Hne. split.
    - eapply loop_other_status; eauto.
    - pose proof (loop_made_from _ _ _ _ _ Hm) as Hrange.
      rewrite (Hnext i) by lia. rewrite Hgranted.
      unfold retryable. rewrite Hdo, Hr. intros (_ & (H & _) & _). discriminate. }
  unfold doRequestWithBody, admitted, attempts_made, backoff_waits.
  destruct (limiter_wait (net 0)); [repeat split; discriminate |].
  destruct (new_request (net 0)); [repeat split; discriminate |].
  destruct (http_do (net 0)) as [e | st body].
  - repeat split. discriminate.
  - destruct (st =? StatusOK) eqn:Hok; cbn [negb].
    + destruct (decode body); repeat split;
        intros st' body' _ E; injection E as <- <-; apply Z.eqb_eq in Hok; contradiction.
    + repeat split. intros st' body' _ E. now injection E as <- <-.
Qed.

End WithRequest.

(** C2, as the claim has it.  With maxRetries = 3 and a node that answers
    503 every time, a GET makes four attempts: more than max_retries. *)
Lemma doRequest_exceeds_max_retries :
  attempts_made (doRequest unit (fun _ => Ok tt) 3 always_503) = 4%nat /\
  ~ (Z.of_nat (attempts_made (doRequest unit (fun _ => Ok tt) 3 always_503)) <= 3).
Proof.
  split; [reflexivity |].
  intros H. vm_compute in H. apply H. reflexivity.
Qed.

End ClientFacts.

(** ** Rejected tokens, from the decoder up to the job *)

Module RejectionFacts.
Import Strconv BeaconTypes BeaconClient BeaconAPI DecoderFacts.

Lemma Uint64Str_rejects_minus ds :
  (exists e, Uint64Str_UnmarshalJSON (String "-"%char ds) = Err e) /\
  (exists e, Uint64Str_UnmarshalJSON (quoted (String "-"%char ds)) = Err e).
Proof.
  assert (H : forall tok, strip_quotes tok = String "-"%char ds ->
                          exists e, Uint64Str_UnmarshalJSON tok = Err e).
  { intros tok Hs. destruct (Uint64Str_UnmarshalJSON tok) as [v | e] eqn:E; [| now exists e].
    apply Uint64Str_sound in E. destruct E as (_ & _ & _ & Hd).
    rewrite Hs in Hd. discriminate. }
  split; apply H.
  - apply strip_quotes_bare. discriminate.
  - apply strip_quotes_quoted.
Qed.

Lemma fill_validator_balance_error raw e :
  decode_uint64 (raw_Balance raw) = Err e ->
  exists e', fill_validator raw = Err e'.
Proof.
  intros H. unfold fill_validator, and_then.
  destruct (decode_uint64 (raw_Index raw)) as [i | e0]; [| now exists e0].
  rewrite H. now exists e.
Qed.

Lemma doRequest_first_answer A (decode : string -> result A) maxRetries net body :
  0 <= maxRetries -> admitted (net 0) = true ->
  http_do (net 0) = HttpResponse StatusOK body ->
  doRequest A decode maxRetries net =
    match decode body with
    | Err err => (Some (Wrapped "failed to decode response" err), None, [ELimiter; EDo 0])
    | Ok v => (None, Some v, [ELimiter; EDo 0])
    end.
Proof.
  intros Hm Ha Hdo. unfold doRequest.
  replace (Z.to_nat (maxRetries + 1)) with (S (Z.to_nat maxRetries)) by lia.
  unfold admitted in Ha. cbn [doRequest_loop].
  destruct (limiter_wait (net 0)); [discriminate |].
  destruct (new_request (net 0)); [discriminate |].
  rewrite Hdo. reflexivity.
Qed.

(** C10.  A token that is not an optionally double-quoted base-10 integer
    representable in the target type makes the decoder return an error;
    what a decoder accepts is stored as the integer written, never wrapped.
    Uint64Str rejects every token that starts with a minus sign, quoted or
    not.  When the balance of a validator response is such a token, the GET
    returns an error, the STATUS job returns that error with no snapshot,
    and nothing is handed to the store. *)
Theorem decoders_reject_non_integers :
  (forall tok, integer_token 0 max_u64 tok = false ->
               exists e, Uint64Str_UnmarshalJSON tok = Err e) /\
  (forall tok, integer_token min_i64 max_i64 tok = false ->
               exists e, Int64Str_UnmarshalJSON tok = Err e) /\
  (forall tok v, Uint64Str_UnmarshalJSON tok = Ok v ->
                 token_integer tok = Some v /\ is_u64 v) /\
  (forall tok v, Int64Str_UnmarshalJSON tok = Ok v ->
                 token_integer tok = Some v /\ is_i64 v) /\
  (forall ds,
      (exists e, Uint64Str_UnmarshalJSON (String "-"%char ds) = Err e) /\
      (exists e, Uint64Str_UnmarshalJSON (quoted (String "-"%char ds)) = Err e)) /\
  (forall env scan maxRetries net duties rewards validators body raw ds job w,
      0 <= maxRetries -> admitted (net 0) = true ->
      http_do (net 0) = HttpResponse StatusOK body ->
      scan body = Ok raw ->
      (raw_Balance raw = Some (String "-"%char ds) \/
       raw_Balance raw = Some (quoted (String "-"%char ds))) ->
      let api :=
        Monitor.mkApi
          (fun stateID id => fst (GetValidator scan maxRetries net stateID id))
          duties rewards in
      exists e,
        Monitor.Process env api validators
          (Monitor.mkJob (Monitor.ValidatorIndex job) (Monitor.Slot job)
             (Monitor.Epoch job) Monitor.JobTypeStatus) w
        = ((Monitor.DataNil, Some e), w)).
Proof.
  split; [| split; [| split; [| split; [| split]]]].
  - intros tok Hbad.
    destruct (Uint64Str_UnmarshalJSON tok) as [v | e] eqn:E; [| now exists e].
    apply Uint64Str_sound in E. destruct E as (Ht & Hv & _).
    unfold integer_token in Hbad. rewrite Ht in Hbad.
    unfold is_u64 in Hv. apply andb_false_iff in Hbad.
    rewrite !Z.leb_gt in Hbad. lia.
  - intros tok Hbad.
    destruct (Int64Str_UnmarshalJSON tok) as [v | e] eqn:E; [| now exists e].
    apply Int64Str_sound in E. destruct E as (Ht & Hv).
    unfold integer_token in Hbad. rewrite Ht in Hbad.
    unfold is_i64 in Hv. apply andb_false_iff in Hbad.
    rewrite !Z.leb_gt in Hbad. lia.
  - intros tok v E. apply Uint64Str_sound in E. tauto.
  - intros tok v E. now apply Int64Str_sound in E.
  - exact Uint64Str_rejects_minus.
  - intros env scan maxRetries net duties rewards validators body raw ds job w
      Hm Ha Hdo Hscan Hbal api.
    assert (Hdec : exists e, decode_validator_response scan body = Err e).
    { unfold decode_validator_response. rewrite Hscan. cbn [and_then].
      destruct (Uint64Str_rejects_minus ds) as ((e1 & H1) & (e2 & H2)).
      destruct Hbal as [Hbal | Hbal].
      - apply fill_validator_balance_error with (e := e1). now rewrite Hbal.
      - apply fill_validator_balance_error with (e := e2). now rewrite Hbal. }
    destruct Hdec as (e & Hdec).
    exists (Wrapped "failed to get validator" (Wrapped "failed to decode response" e)).
    unfold Monitor.Process, Monitor.processStatusJob. cbn [Monitor.Type_].
    subst api. cbn [Monitor.GetValidator Monitor.ValidatorIndex].
    unfold GetValidator.
    rewrite (doRequest_first_answer _ _ _ _ body Hm Ha Hdo), Hdec.
    reflexivity.
Qed.

End RejectionFacts.

(** ** Backoff: the parts computed on integers *)

Module BackoffFacts.
Import Backoff.

(** The first delay of a fresh or reset generator is InitialDelay, whatever
    the jitter would have been. *)
Lemma NextDelay_first b jittered :
  attempts b = 0 ->
  fst (NextDelay b jittered) = InitialDelay (cfg b) /\
  attempts (snd (NextDelay b jittered)) = 1.
Proof. unfold NextDelay. intros ->. now split. Qed.

Lemma Reset_attempts b : attempts (Reset b) = 0 /\ cfg (Reset b) = cfg b.
Proof. now split. Qed.

Lemma ShouldRetry_iff st : ShouldRetry st = true <-> st = 429 \/ st = 503.
Proof. unfold ShouldRetry. rewrite orb_true_iff, !Z.eqb_eq. tauto. Qed.

End BackoffFacts.

(** ** The scenarios of the specification, run on the embedding *)

Module ScenarioFacts.
Import GoTime Storage Scenarios.

(** Scenario 3 (and 2): at slot 32 the tick emits SLOT_POLL for epoch 1,
    EPOCH_BOUNDARY for epoch 2, then EPOCH_FINALIZED for 11, 12, 13. *)
Lemma tick_order_at_slot_32 :
  is_u64 32 /\
  exists fin s',
    Scheduler.NextEvents 4 scheduler_at_10 32 (Scheduler.finality_ok 13) =
      Some (Scheduler.mkEvent 32 1 Scheduler.EventTypeSlotPoll [100]
              :: Scheduler.mkEvent 32 2 Scheduler.EventTypeEpochBoundary [100]
              :: fin, None, s') /\
    forallb Scheduler.is_finalized_event fin = true /\
    Scheduler.lastEpoch s' = 1.
Proof.
  assert (H32 : is_u64 32) by (unfold is_u64, max_u64, two64; lia).
  split; [exact H32 |].
  destruct (SchedulerFacts.NextEvents_tick_order scheduler_at_10 32
              (Scheduler.finality_ok 13) H32) as (_ & Hshape & _).
  destruct (Scheduler.NextEvents 4 scheduler_at_10 32 (Scheduler.finality_ok 13))
    as [[[events err] s'] |] eqn:E; [| discriminate E].
  destruct (Hshape 4%nat events err s' E) as (-> & Hl & fin & -> & Hfin).
  exists fin, s'. split; [reflexivity |]. split; [exact Hfin | exact Hl].
Defined.

Lemma finalized_epoch_max_hangs :
  Scheduler.NextEvents 1000 scheduler_at_10 32 (Scheduler.finality_ok max_u64) = None.
Proof.
  apply (SchedulerFacts.NextEvents_finalized_max_never_returns scheduler_at_10 32).
  - unfold is_u64, max_u64, two64. cbn. lia.
  - unfold max_u64, two64. cbn. lia.
  - reflexivity.
Defined.

Lemma decoders_accept_123_and_minus_5 :
  BeaconTypes.Uint64Str_UnmarshalJSON "123" = Ok 123 /\
  BeaconTypes.Uint64Str_UnmarshalJSON (BeaconTypes.quoted "123") = Ok 123 /\
  BeaconTypes.Int64Str_UnmarshalJSON "-5" = Ok (-5) /\
  BeaconTypes.Int64Str_UnmarshalJSON (BeaconTypes.quoted "-5") = Ok (-5).
Proof.
  apply (DecoderFacts.decoders_accept_quoted_and_unquoted 123 (-5)).
  - unfold is_u64, max_u64, two64. lia.
  - unfold is_i64, min_i64, max_i64, two63. lia.
Defined.


Lemma jobs_succeed_with_failing_store :
  (exists s w',
      Monitor.Process failing_store answering_api [100] status_job empty_world
        = ((Monitor.DataSnapshot s, None), w') /\
      snapshot_payload s = (100, 1, "active_ongoing"%string, 32000000000, 32000000000)) /\
  (exists duties w',
      Monitor.Process failing_store answering_api [100] duties_job empty_world
        = ((Monitor.DataDuties duties, None), w') /\
      map duty_payload duties = [(100, 2, 70, 3, 5)]) /\
  (exists rewards w',
      Monitor.Process failing_store answering_api [100] rewards_job empty_world
        = ((Monitor.DataRewards rewards, None), w') /\
      map reward_payload rewards = [(100, 50, -1000, -500, 200, -1300)]).
Proof.
  split; [| split].
  - destruct (MonitorFacts.Process_returns_objects_despite_write_failures failing_store
                answering_api [100] status_job empty_world) as (H & _ & _).
    exact (H eq_refl Scenarios.active_validator eq_refl).
  - destruct (MonitorFacts.Process_returns_objects_despite_write_failures failing_store
                answering_api [100] duties_job empty_world) as (_ & H & _).
    exact (H eq_refl Scenarios.one_duty eq_refl).
  - destruct (MonitorFacts.Process_returns_objects_despite_write_failures failing_store
                answering_api [100] rewards_job empty_world) as (_ & _ & H).
    exact (H eq_refl Scenarios.penalty_rewards eq_refl).
Defined.

Lemma negative_balance_is_not_stored :
  exists e,
    Monitor.Process failing_store
      (Monitor.mkApi
         (fun stateID id =>
            fst (BeaconAPI.GetValidator (fun _ => Ok negative_balance) 3 answers_200
                   stateID id))
         (Monitor.GetAttesterDuties answering_api)
         (Monitor.GetAttestationRewards answering_api))
      [100] status_job empty_world
    = ((Monitor.DataNil, Some e), empty_world).
Proof.
  destruct RejectionFacts.decoders_reject_non_integers as (_ & _ & _ & _ & _ & H).
  apply (H failing_store (fun _ => Ok negative_balance) 3 answers_200
           (Monitor.GetAttesterDuties answering_api)
           (Monitor.GetAttestationRewards answering_api)
           [100] "{}"%string negative_balance "5"%string status_job empty_world).
  - lia.
  - reflexivity.
  - reflexivity.
  - reflexivity.
  - left. reflexivity.
Defined.

(** Scenario 5: two backoff waits, the first of exactly 100 ms, and the
    third attempt succeeds. *)
Lemma retry_after_two_503 :
  BeaconClient.doRequest unit (fun _ => Ok tt) 3 busy_twice =
    (None, Some tt,
     [BeaconClient.ELimiter; BeaconClient.EDo 0; BeaconClient.EBackoff 100000000;
      BeaconClient.ELimiter; BeaconClient.EDo 1; BeaconClient.EBackoff 190000000;
      BeaconClient.ELimiter; BeaconClient.EDo 2]).
Proof. reflexivity. Qed.

End ScenarioFacts.

(** ** Slots and epochs *)

Module SlotFacts.
Import Slots.

Lemma two64_split : two64 = epoch_limit * 32.
Proof. reflexivity. Qed.

(** X1.  For every epoch below 2^59 the first and last slot are 32e and
    32e + 31, both lie in epoch e, and only the first is an epoch boundary;
    every uint64 slot lies between the first and the last slot of its own
    epoch and is a boundary exactly when it is that first slot. *)
Theorem slots_and_epochs e s :
  0 <= e < epoch_limit -> is_u64 s ->
  EpochStartSlot e = 32 * e /\
  EpochEndSlot e = 32 * e + 31 /\
  SlotToEpoch (EpochStartSlot e) = e /\
  SlotToEpoch (EpochEndSlot e) = e /\
  IsEpochBoundary (EpochStartSlot e) = true /\
  IsEpochBoundary (EpochEndSlot e) = false /\
  0 <= SlotToEpoch s < epoch_limit /\
  EpochStartSlot (SlotToEpoch s) <= s <= EpochEndSlot (SlotToEpoch s) /\
  (IsEpochBoundary s = true <-> s = EpochStartSlot (SlotToEpoch s)).
Proof.
  intros He Hs.
  assert (Hstart : forall x, 0 <= x < epoch_limit -> EpochStartSlot x = 32 * x).
  { intros x Hx. unfold EpochStartSlot, mul_u64. rewrite wrap_u64_id; [lia |].
    unfold is_u64, max_u64. rewrite two64_split. lia. }
  assert (Hend : forall x, 0 <= x < epoch_limit -> EpochEndSlot x = 32 * x + 31).
  { intros x Hx. unfold EpochEndSlot, mul_u64, add_u64.
    rewrite (wrap_u64_id (x + 1))
      by (unfold is_u64, max_u64; rewrite two64_split; unfold epoch_limit in *; lia).
    unfold wrap_u64. rewrite Zminus_mod_idemp_l.
    rewrite Z.mod_small; [lia |]. rewrite two64_split. lia. }
  assert (Hq : forall x, 0 <= x -> (32 * x) / 32 = x /\ (32 * x + 31) / 32 = x).
  { intros x Hx. split.
    - rewrite Z.mul_comm. apply Z.div_mul. lia.
    - symmetry. apply Z.div_unique with (r := 31); lia. }
  assert (Hse : 0 <= SlotToEpoch s < epoch_limit).
  { unfold SlotToEpoch, is_u64, max_u64 in *. rewrite two64_split in Hs. split.
    - apply Z.div_pos; lia.
    - apply Z.div_lt_upper_bound; lia. }
  rewrite (Hstart e He), (Hend e He), (Hstart _ Hse), (Hend _ Hse).
  unfold SlotToEpoch, IsEpochBoundary in *.
  destruct (Hq e) as (Hq1 & Hq2); [lia |].
  pose proof (Z.div_mod s 32) as Hdm. pose proof (Z.mod_pos_bound s 32) as Hmb.
  repeat split; try lia.
  - apply Z.eqb_eq. rewrite Z.mul_comm. apply Z.mod_mul. lia.
  - apply Z.eqb_neq. rewrite Z.add_comm, Z.mul_comm, Z.mod_add by lia.
    discriminate.
Qed.

(** X2.  EpochStartSlot multiplies in uint64: for every uint64 epoch the
    result is still an epoch boundary, but it is the first slot of epoch
    e mod 2^59, so epochs from 2^59 on share their first slot with an
    earlier epoch. *)
Theorem EpochStartSlot_wraps e :
  is_u64 e ->
  EpochStartSlot e = 32 * (e mod epoch_limit) /\
  SlotToEpoch (EpochStartSlot e) = e mod epoch_limit /\
  IsEpochBoundary (EpochStartSlot e) = true.
Proof.
  intros He.
  assert (H : EpochStartSlot e = 32 * (e mod epoch_limit)).
  { unfold EpochStartSlot, mul_u64, wrap_u64. rewrite two64_split.
    rewrite Z.mul_mod_distr_r by (unfold epoch_limit; lia). lia. }
  rewrite H. unfold SlotToEpoch, IsEpochBoundary. repeat split.
  - rewrite Z.mul_comm. apply Z.div_mul. lia.
  - apply Z.eqb_eq. rewrite Z.mul_comm. apply Z.mod_mul. lia.
Qed.

End SlotFacts.

(** ** The scheduler's clock *)

Module ClockFacts.
Import GoTime GoDuration SchedulerClock.

Ltac clock_consts :=
  unfold SlotDuration, last_slot, maxDuration, minDuration, Second,
    is_i64, is_u64, max_i64, min_i64, max_u64, two63, two64 in *;
  change (2 ^ 63) with 9223372036854775808 in *;
  change (2 ^ 64) with 18446744073709551616 in *.

(** Add moves the instant by exactly [d] as long as the seconds stay far
    from the ends of int64. *)
Lemma Add_ns t d :
  time_wf t -> is_i64 d -> - 2 ^ 62 <= sec t <= 2 ^ 62 ->
  ns_of (Add t d) = ns_of t + d /\ time_wf (Add t d).
Proof.
  intros Hwf Hd Hsec. unfold Add.
  pose proof (Z.quot_rem' d Second) as Hqr.
  assert (Hrem : - Second < Z.rem d Second < Second).
  { pose proof (Z.rem_bound_abs d Second). unfold Second in *. lia. }
  assert (Hq : - 2 ^ 34 <= Z.quot d Second <= 2 ^ 34).
  { unfold Second in *. clock_consts. change (2 ^ 34) with 17179869184. lia. }
  assert (Hadd : forall k, - 2 ^ 35 <= k <= 2 ^ 35 -> addSec (sec t) k = sec t + k).
  { intros k Hk. unfold addSec.
    rewrite wrap_i64_id
      by (clock_consts; change (2 ^ 62) with 4611686018427387904 in *;
          change (2 ^ 35) with 34359738368 in *; lia).
    destruct (sec t + k >? sec t) eqn:E1, (k >? 0) eqn:E2; cbn [Bool.eqb];
      try reflexivity; rewrite Z.gtb_ltb in E1, E2;
      [apply Z.ltb_lt in E1; apply Z.ltb_ge in E2 | apply Z.ltb_ge in E1; apply Z.ltb_lt in E2];
      lia. }
  unfold time_wf in *. change (2 ^ 34) with 17179869184 in *.
  destruct (nsec t + Z.rem d Second >=? Second) eqn:E1.
  - rewrite Z.geb_leb in E1. apply Z.leb_le in E1.
    unfold ns_of. cbn [sec nsec].
    rewrite Hadd by (change (2 ^ 35) with 34359738368; lia).
    split; lia.
  - rewrite Z.geb_leb in E1. apply Z.leb_gt in E1.
    destruct (nsec t + Z.rem d Second <? 0) eqn:E2.
    + apply Z.ltb_lt in E2. unfold ns_of. cbn [sec nsec].
      rewrite Hadd by (change (2 ^ 35) with 34359738368; lia).
      split; lia.
    + apply Z.ltb_ge in E2. unfold ns_of. cbn [sec nsec].
      rewrite Hadd by (change (2 ^ 35) with 34359738368; lia).
      split; lia.
Qed.

(** While the elapsed time is non-negative and fits in a duration,
    CurrentSlot is the elapsed time divided by the slot duration. *)
Lemma CurrentSlot_div genesisTime now :
  0 <= ns_of now - ns_of genesisTime <= maxDuration ->
  CurrentSlot genesisTime now = (ns_of now - ns_of genesisTime) / SlotDuration /\
  0 <= (ns_of now - ns_of genesisTime) / SlotDuration <= last_slot.
Proof.
  intros Hel. unfold CurrentSlot, Sub.
  set (el := ns_of now - ns_of genesisTime) in *.
  replace (el >? maxDuration) with false
    by (symmetry; rewrite Z.gtb_ltb; apply Z.ltb_ge; lia).
  replace (el <? minDuration) with false
    by (symmetry; apply Z.ltb_ge; clock_consts; lia).
  replace (el <? 0) with false by (symmetry; apply Z.ltb_ge; lia).
  rewrite Z.quot_div_nonneg by (clock_consts; lia).
  assert (0 <= el / SlotDuration) by (apply Z.div_pos; clock_consts; lia).
  assert (el / SlotDuration <= last_slot)
    by (unfold last_slot; apply Z.div_le_mono; clock_consts; lia).
  split; [| lia]. apply wrap_u64_id.
  assert (Hls : last_slot = 768614336) by reflexivity. rewrite Hls in *.
  unfold is_u64, max_u64, two64. lia.
Qed.

(** X3.  At an instant delta nanoseconds (less than one slot) after the
    start of slot s, counted from genesis, CurrentSlot is s, provided the
    offset from genesis fits in a duration. *)
Theorem CurrentSlot_in_slot genesisTime now s delta :
  0 <= s -> 0 <= delta < SlotDuration ->
  s * SlotDuration + delta <= maxDuration ->
  ns_of now = ns_of genesisTime + s * SlotDuration + delta ->
  CurrentSlot genesisTime now = s.
Proof.
  intros Hs Hdelta Hfit Hnow.
  assert (Hnn : 0 <= s * SlotDuration + delta) by (clock_consts; lia).
  destruct (CurrentSlot_div genesisTime now) as (-> & _); [lia |].
  symmetry. apply Z.div_unique with (r := delta); [clock_consts; lia | lia].
Qed.

(** X4.  CurrentSlot is 0 at every instant before genesis and never
    exceeds 768614336, the last slot whose offset from genesis fits in a
    duration: the elapsed time saturates there. *)
Theorem CurrentSlot_bounds genesisTime now :
  0 <= CurrentSlot genesisTime now <= last_slot /\
  last_slot = 768614336 /\
  (ns_of now < ns_of genesisTime -> CurrentSlot genesisTime now = 0) /\
  (ns_of now - ns_of genesisTime >= maxDuration ->
   CurrentSlot genesisTime now = last_slot).
Proof.
  unfold CurrentSlot.
  assert (Hsub : minDuration <= Sub now genesisTime <= maxDuration).
  { unfold Sub.
    destruct (ns_of now - ns_of genesisTime >? maxDuration) eqn:E1; [clock_consts; lia |].
    destruct (ns_of now - ns_of genesisTime <? minDuration) eqn:E2; [clock_consts; lia |].
    rewrite Z.gtb_ltb in E1. apply Z.ltb_ge in E1. apply Z.ltb_ge in E2. lia. }
  assert (Hq : forall x, 0 <= x <= maxDuration ->
                 wrap_u64 (Z.quot x SlotDuration) = x / SlotDuration /\
                 0 <= x / SlotDuration <= last_slot).
  { intros x Hx. rewrite Z.quot_div_nonneg by (clock_consts; lia).
    assert (0 <= x / SlotDuration) by (apply Z.div_pos; clock_consts; lia).
    assert (x / SlotDuration <= last_slot)
      by (unfold last_slot; apply Z.div_le_mono; clock_consts; lia).
    split; [| lia]. apply wrap_u64_id.
    assert (Hls : last_slot = 768614336) by reflexivity. rewrite Hls in *.
    unfold is_u64, max_u64, two64. lia. }
  split; [| split; [reflexivity | split]].
  - destruct (Sub now genesisTime <? 0) eqn:E;
      [assert (Hls : last_slot = 768614336) by reflexivity; lia |].
    apply Z.ltb_ge in E. destruct (Hq (Sub now genesisTime)) as (-> & H); lia.
  - intros Hlt.
    replace (Sub now genesisTime <? 0) with true; [reflexivity |].
    symmetry. apply Z.ltb_lt. unfold Sub.
    destruct (ns_of now - ns_of genesisTime >? maxDuration) eqn:E1;
      [rewrite Z.gtb_ltb in E1; apply Z.ltb_lt in E1; clock_consts; lia |].
    destruct (ns_of now - ns_of genesisTime <? minDuration); [clock_consts; lia | lia].
  - intros Hge.
    assert (Hs : Sub now genesisTime = maxDuration).
    { unfold Sub.
      destruct (ns_of now - ns_of genesisTime >? maxDuration) eqn:E1; [reflexivity |].
      rewrite Z.gtb_ltb in E1. apply Z.ltb_ge in E1.
      replace (ns_of now - ns_of genesisTime <? minDuration) with false
        by (symmetry; apply Z.ltb_ge; clock_consts; lia).
      lia. }
    rewrite Hs.
    replace (maxDuration <? 0) with false by reflexivity.
    destruct (Hq maxDuration) as (-> & _); [clock_consts; lia | reflexivity].
Qed.

(** SlotTime is genesis plus slot times twelve seconds for every slot up
    to last_slot. *)
Lemma SlotTime_exact genesisTime slot :
  time_wf genesisTime -> - 2 ^ 62 <= sec genesisTime <= 2 ^ 62 ->
  0 <= slot <= last_slot ->
  ns_of (SlotTime genesisTime slot) = ns_of genesisTime + slot * SlotDuration.
Proof.
  intros Hwf Hsec Hslot. unfold SlotTime.
  assert (Hd : mul_i64 (i64_of_u64 slot) SlotDuration = slot * SlotDuration).
  { unfold mul_i64, i64_of_u64.
    assert (last_slot = 768614336) by reflexivity.
    rewrite (wrap_i64_id slot) by (clock_consts; lia).
    apply wrap_i64_id. clock_consts. lia. }
  rewrite Hd. apply Add_ns; [exact Hwf | | exact Hsec].
  assert (last_slot = 768614336) by reflexivity. clock_consts. lia.
Qed.


End ClockFacts.

(** ** From events to jobs *)

Module DispatchFacts.
Import Monitor Dispatch.

Section WithContext.

Variable cancelled : nat -> bool.

(** One event: the jobs sent are a prefix of the event's jobs, and a
    shorter prefix only when a poll found the context cancelled. *)
Lemma pollValidators_loop_prefix slot epoch vs :
  forall q,
    exists n,
      sent (pollValidators_loop cancelled slot epoch vs q) =
        sent q ++ firstn n (map (fun v => mkJob v slot epoch JobTypeStatus) vs) /\
      (n = List.length vs \/
       exists k, (polls q <= k)%nat /\ cancelled k = true /\
                 polls (pollValidators_loop cancelled slot epoch vs q) = S k).
Proof.
  induction vs as [| v vs IH]; intros q.
  - exists O. cbn. rewrite app_nil_r. auto.
  - cbn [pollValidators_loop]. destruct (cancelled (polls q)) eqn:Hc.
    + exists O. cbn. rewrite app_nil_r. split; [reflexivity |].
      right. exists (polls q). auto.
    + destruct (IH (submit (mkJob v slot epoch JobTypeStatus) q)) as (n & Hs & Hn).
      exists (S n). cbn [submit sent polls] in *. split.
      * rewrite Hs, <- app_assoc. reflexivity.
      * destruct Hn as [-> | (k & Hk & Hck & Hp)]; [now left |].
        right. exists k. split; [lia | now split].
Qed.

Lemma processEvent_prefix event q :
  exists n,
    sent (processEvent cancelled event q) = sent q ++ firstn n (jobs_of_event event) /\
    (n = List.length (jobs_of_event event) \/
     exists k, (polls q <= k)%nat /\ cancelled k = true /\
               polls (processEvent cancelled event q) = S k).
Proof.
  unfold processEvent, jobs_of_event.
  destruct (Scheduler.Type_ event).
  - unfold pollValidators.
    destruct (pollValidators_loop_prefix (Scheduler.Slot event) (Scheduler.Epoch event)
                (Scheduler.Validators event) q) as (n & Hs & Hn).
    exists n. split; [exact Hs |]. now rewrite length_map.
  - unfold fetchDuties. destruct (cancelled (polls q)) eqn:Hc.
    + exists O. cbn. rewrite app_nil_r. split; [reflexivity |].
      right. exists (polls q). auto.
    + exists 1%nat. cbn. auto.
  - unfold fetchRewards. destruct (cancelled (polls q)) eqn:Hc.
    + exists O. cbn. rewrite app_nil_r. split; [reflexivity |].
      right. exists (polls q). auto.
    + exists 1%nat. cbn. auto.
Qed.

Lemma polls_grow event q : (polls q <= polls (processEvent cancelled event q))%nat.
Proof.
  unfold processEvent. destruct (Scheduler.Type_ event).
  - unfold pollValidators. generalize (Scheduler.Validators event). intros vs.
    revert q. induction vs as [| v vs IH]; intros q; cbn [pollValidators_loop]; [lia |].
    destruct (cancelled (polls q)); [cbn; lia |].
    specialize (IH (submit (mkJob v (Scheduler.Slot event) (Scheduler.Epoch event)
                              JobTypeStatus) q)).
    cbn [submit polls] in IH. lia.
  - unfold fetchDuties. destruct (cancelled (polls q)); cbn; lia.
  - unfold fetchRewards. destruct (cancelled (polls q)); cbn; lia.
Qed.

Hypothesis Hpermanent : permanent cancelled.

Lemma cancelled_later k k' : (k <= k')%nat -> cancelled k = true -> cancelled k' = true.
Proof. induction 1; intros Hck; [exact Hck | apply Hpermanent; auto]. Qed.

Lemma processEvent_cancelled event q :
  cancelled (polls q) = true ->
  sent (processEvent cancelled event q) = sent q /\
  cancelled (polls (processEvent cancelled event q)) = true.
Proof.
  intros Hc. split.
  - unfold processEvent, pollValidators, fetchDuties, fetchRewards.
    destruct (Scheduler.Type_ event); [| now rewrite Hc | now rewrite Hc].
    destruct (Scheduler.Validators event); cbn [pollValidators_loop]; [reflexivity |].
    now rewrite Hc.
  - apply cancelled_later with (k := polls q); [apply polls_grow | exact Hc].
Qed.

Lemma processEvents_cancelled events :
  forall q, cancelled (polls q) = true ->
            sent (processEvents cancelled events q) = sent q.
Proof.
  induction events as [| ev events IH]; intros q Hc; [reflexivity |].
  unfold processEvents in *. cbn [fold_left].
  destruct (processEvent_cancelled ev q Hc) as (Hs & Hc').
  rewrite IH by exact Hc'. exact Hs.
Qed.


End WithContext.

(** With a context that is never cancelled every job of every event is
    sent. *)
Lemma processEvents_alive events :
  forall q, sent (processEvents alive events q) = sent q ++ flat_map jobs_of_event events.
Proof.
  induction events as [| ev events IH]; intros q.
  - cbn. now rewrite app_nil_r.
  - unfold processEvents in *. cbn [fold_left flat_map].
    destruct (processEvent_prefix alive ev q) as (n & Hs & [Hn | (k & _ & Hck & _)]);
      [| discriminate].
    rewrite IH, Hs, Hn, firstn_all, app_assoc. reflexivity.
Qed.

End DispatchFacts.

(** ** A whole tick: NextEvents followed by the dispatch of its events *)

Module TickFacts.
Import Scheduler Monitor Dispatch SchedulerFacts DispatchFacts.

Lemma finalized_loop_mono s slot F :
  forall fuel e events r k,
    finalized_loop fuel s slot F e events = Some r ->
    finalized_loop (fuel + k) s slot F e events = Some r.
Proof.
  induction fuel as [| fuel IH]; intros e events r k H; [discriminate |].
  cbn [Nat.add]. rewrite finalized_loop_step in *.
  destruct (e <=? F); [now apply IH | exact H].
Qed.

(** The epochs a tick catches up on. *)
Lemma NextEvents_events fuel s slot cps events err s' :
  is_u64 (lastFinalEpoch s) -> checkpoints_wf cps ->
  NextEvents fuel s slot cps = Some (events, err, s') ->
  events =
    slot_poll_event s slot :: boundary_events s slot ++
    map (finalized_event s slot)
        (match pending_finalized s cps with
         | Some F => epochs_between (lastFinalEpoch s) F
         | None => []
         end).
Proof.
  intros Hlast Hwf. rewrite NextEvents_unfold. cbv zeta.
  destruct (after_boundary_fields s slot) as (Hv & Hl & He).
  unfold pending_finalized. destruct cps as [c | e0].
  - rewrite Hl. destruct (cp_Epoch (Finalized c) >? lastFinalEpoch s) eqn:Hgt.
    + apply Z.gtb_lt in Hgt. unfold checkpoints_wf in Hwf.
      destruct (finalized_loop fuel _ _ _ _ _) as [r |] eqn:Hloop; [| discriminate].
      intros H. injection H as <- _ _.
      destruct (Z.eq_dec (cp_Epoch (Finalized c)) max_u64) as [E | E].
      { rewrite E in Hloop. rewrite finalized_loop_max in Hloop by apply wrap_u64_range.
        discriminate. }
      unfold is_u64 in *.
      set (n := Z.to_nat (cp_Epoch (Finalized c) - lastFinalEpoch s)) in *.
      apply finalized_loop_mono with (k := S n) in Hloop.
      unfold add_u64 in Hloop. rewrite wrap_u64_id in Hloop by (unfold is_u64; lia).
      replace (fuel + S n)%nat with (S (n + fuel)) in Hloop by lia.
      rewrite finalized_loop_returns in Hloop by (subst n; lia).
      injection Hloop as <-. rewrite finalized_event_validators. reflexivity.
    + intros H. injection H as <- _ _. cbn. now rewrite app_nil_r.
  - intros H. injection H as <- _ _. cbn. now rewrite app_nil_r.
Qed.

Lemma rewards_of_finalized s slot epochs :
  flat_map jobs_of_event (map (finalized_event s slot) epochs) = rewards_jobs slot epochs.
Proof.
  induction epochs as [| e epochs IH]; [reflexivity |].
  cbn [map flat_map]. rewrite IH. reflexivity.
Qed.

(** X7.  What a tick hands to the worker pool when the context stays
    alive: one STATUS job per configured validator, in order, for the slot
    and its epoch; then one DUTIES job for the next epoch when the slot opens
    an epoch not seen before; then one REWARDS job per epoch newly finalized,
    in ascending order. *)
Theorem tick_jobs fuel s slot cps events err s' q :
  is_u64 slot -> is_u64 (lastFinalEpoch s) -> checkpoints_wf cps ->
  NextEvents fuel s slot cps = Some (events, err, s') ->
  sent (processEvents alive events q) =
    sent q
    ++ status_jobs slot (validators s)
    ++ (if boundary_due s slot
        then [mkJob 0 slot (slot / SlotsPerEpoch + 1) JobTypeDuties]
        else [])
    ++ rewards_jobs slot
         (match pending_finalized s cps with
          | Some F => epochs_between (lastFinalEpoch s) F
          | None => []
          end).
Proof.
  intros Hslot Hlast Hwf Hrun.
  rewrite (NextEvents_events _ _ _ _ _ _ _ Hlast Hwf Hrun).
  rewrite processEvents_alive. f_equal.
  cbn [flat_map]. rewrite flat_map_app, rewards_of_finalized.
  f_equal. f_equal.
  unfold boundary_events, boundary_event. destruct (boundary_due s slot); [| reflexivity].
  cbn [flat_map]. unfold jobs_of_event. cbn [Scheduler.Type_ Scheduler.Slot Scheduler.Epoch app].
  unfold add_u64. rewrite wrap_u64_id; [reflexivity |].
  unfold is_u64, max_u64, two64, SlotsPerEpoch in *.
  assert (0 <= slot / 32 <= slot)
    by (split; [apply Z.div_pos | apply Z.div_le_upper_bound]; lia).
  assert (slot / 32 < 576460752303423488)
    by (apply Z.div_lt_upper_bound; lia).
  lia.
Qed.

End TickFacts.

(** ** Failed fetches, results and log lines *)

Module ResultsFacts.
Import Storage Monitor Results.

Section WithEnv.

Variable env : Env.
Variable api : Api.
Variable validators : list Z.


Lemma reward_lines rewards job entries :
  map reward_payload rewards = map (expected_reward job) entries ->
  map (fun reward =>
         AttestationRewardLine (ar_Epoch reward) (ar_ValidatorIndex reward)
           (ar_HeadReward reward) (ar_SourceReward reward)
           (ar_TargetReward reward) (ar_TotalReward reward)
           (ar_TotalReward reward >=? 0)) rewards
  = map (reward_line job) entries.
Proof.
  revert entries. induction rewards as [| r rewards IH]; intros [| x entries] H;
    try discriminate; [reflexivity |].
  cbn [map] in *. injection H as H1 H2 H3 H4 H5 H6 Hrest.
  rewrite (IH _ Hrest). f_equal.
  unfold reward_line, is_penalised. rewrite H1, H2, H3, H4, H5, H6.
  f_equal. rewrite Z.geb_leb. apply Z.leb_antisym.
Qed.

Lemma failed_duty_count job entries :
  List.length (filter is_failed_duty (map (reward_line job) entries)) =
  List.length (filter is_penalised entries).
Proof.
  induction entries as [| r entries IH]; [reflexivity |].
  cbn [map filter]. unfold reward_line at 1. cbn [is_failed_duty].
  rewrite negb_involutive. destruct (is_penalised r); cbn [List.length]; now rewrite IH.
Qed.

Lemma penalty_insert_count (penalties : list ValidatorPenalty) :
  List.length (filter is_penalty_insert
                 (map (fun p => Query (penalty_insert p)) penalties)) =
  List.length penalties.
Proof.
  induction penalties as [| p penalties IH]; [reflexivity |].
  cbn. now rewrite IH.
Qed.

(** X9.  The log lines of a REWARDS result: one attestation_reward line
    per returned entry, in order, with the int64 total and duty_success
    false exactly for the entries with a negative total; the lines with
    duty_success false are as many as the penalty INSERTs the job handed to
    the store. *)
Theorem rewards_result_lines job w resp :
  Type_ job = JobTypeRewards ->
  GetAttestationRewards api (Epoch job) validators = Ok resp ->
  exists result w' stmts,
    work env api validators job w = (result, w') /\
    consume result = map (reward_line job) (BeaconAPI.TotalRewards resp) /\
    issued w' = issued w ++ stmts /\
    List.length (filter is_failed_duty (consume result)) =
      List.length (filter is_penalty_insert stmts).
Proof.
  intros Hty Hfetch.
  destruct (MonitorFacts.processRewardsJob_run env api validators job w resp Hfetch)
    as (rewards & penalties & w' & Hrun & Hi & Hr & Hp).
  unfold work, Process. rewrite Hty. unfold bind. rewrite Hrun. unfold ret. cbn [fst snd].
  eexists _, w', _. split; [reflexivity |].
  assert (Hlines : consume (mkResult job (DataRewards rewards) None) =
                   map (reward_line job) (BeaconAPI.TotalRewards resp)).
  { unfold consume, logResult. cbn [Error Job_ Data]. rewrite Hty.
    now apply reward_lines. }
  split; [exact Hlines |]. split; [exact Hi |].
  rewrite Hlines, failed_duty_count. cbn [filter is_penalty_insert].
  rewrite penalty_insert_count.
  rewrite <- (length_map penalty_payload penalties), Hp, length_map. reflexivity.
Qed.

(** X10.  The result consumer writes exactly one line for a failed job,
    carrying the error, the job's validator index, slot and type, and none
    of the observation lines; for a successful STATUS job it writes one
    validator_status line with the fields of the response, and for a
    successful DUTIES job one attestation_duty line per returned duty. *)
Theorem result_lines job w :
  (forall result w', work env api validators job w = (result, w') ->
     forall e, Error result = Some e ->
     consume result =
       [JobFailed e (ValidatorIndex job) (Slot job) (job_type_code (Type_ job))]) /\
  (Type_ job = JobTypeStatus ->
   forall v, GetValidator api "head" (ValidatorIndex job) = Ok v ->
   consume (fst (work env api validators job w)) =
     [ValidatorStatus (Slot job) (ValidatorIndex job) (BeaconAPI.Status v)
        (BeaconAPI.EffectiveBalance (BeaconAPI.Validator_ v)) (BeaconAPI.Balance v)]) /\
  (Type_ job = JobTypeDuties ->
   forall resp, GetAttesterDuties api (Epoch job) validators = Ok resp ->
   consume (fst (work env api validators job w)) =
     map (fun d =>
            AttestationDutyLine (BeaconAPI.duty_Slot d) (Epoch job)
              (BeaconAPI.duty_ValidatorIndex d)
              (i64_of_u64 (BeaconAPI.duty_CommitteeIndex d))
              (i64_of_u64 (BeaconAPI.duty_ValidatorCommitteeIndex d)))
         (BeaconAPI.Data resp)).
Proof.
  split; [| split].
  - intros result w' Hwork e He. unfold work in Hwork.
    destruct (Process env api validators job w) as [[data err] w1].
    injection Hwork as <- _. cbn [Error] in He. subst err.
    reflexivity.
  - intros Hty v Hfetch.
    destruct (MonitorFacts.processStatusJob_run env api job w v Hfetch)
      as (s & w' & Hrun & Hp & _).
    unfold work, Process. rewrite Hty. unfold bind. rewrite Hrun. unfold ret.
    cbn [fst snd]. unfold consume, logResult. cbn [Error Job_ Data]. rewrite Hty.
    unfold snapshot_payload in Hp. injection Hp as -> -> -> -> ->. reflexivity.
  - intros Hty resp Hfetch.
    destruct (MonitorFacts.processDutiesJob_run env api validators job w resp Hfetch)
      as (ds & w' & Hrun & Hp & _).
    unfold work, Process. rewrite Hty. unfold bind. rewrite Hrun. unfold ret.
    cbn [fst snd]. unfold consume, logResult. cbn [Error Job_ Data]. rewrite Hty.
    clear Hrun. revert Hp. generalize (BeaconAPI.Data resp). intros l.
    revert l. induction ds as [| d ds IH]; intros [| x l] Hp; try discriminate;
      [reflexivity |].
    cbn [map] in *. unfold duty_payload at 1, expected_duty at 1 in Hp.
    injection Hp as H1 H2 H3 H4 H5 Hrest.
    rewrite (IH _ Hrest), H1, H2, H3, H4, H5. reflexivity.
Qed.

End WithEnv.

End ResultsFacts.

(** ** The request loop: what a nil error means, and the backoff waits *)

Module RequestFacts.
Import Backoff BeaconClient.

Section WithRequest.

Variable A : Type.
Variable decode : string -> result A.
Variable maxRetries : Z.
Variable net : Z -> Attempt.

Local Abbreviation request_loop := (doRequest_loop A decode maxRetries net).

Lemma with_effects_parts es (r : Reply A) :
  reply_error (with_effects A es r) = reply_error r /\
  reply_value (with_effects A es r) = reply_value r /\
  reply_trace (with_effects A es r) = es ++ reply_trace r.
Proof. now destruct r as [[e v] t]. Qed.

(** A pass of the loop that ends with a nil error either made no attempt
    at all and had no error pending, or decoded the body of a 200. *)
Lemma loop_nil_error :
  forall rem a b lastErr,
    reply_error (request_loop rem a b lastErr) = None ->
    (rem = O /\ lastErr = None) \/
    exists i body v pre,
      a <= i < a + Z.of_nat rem /\
      http_do (net i) = HttpResponse StatusOK body /\
      decode body = Ok v /\
      reply_value (request_loop rem a b lastErr) = Some v /\
      reply_trace (request_loop rem a b lastErr) = pre ++ [ELimiter; EDo i].
Proof.
  induction rem as [| rem IH]; intros a b lastErr Hnil.
  { left. split; [reflexivity | exact Hnil]. }
  right. revert Hnil. cbn [doRequest_loop].
  destruct (limiter_wait (net a)); [discriminate |].
  destruct (new_request (net a)); [discriminate |].
  assert (Hnext : forall b' e',
    reply_error (with_effects A [ELimiter; EDo a; EBackoff (fst (NextDelay b (jittered_delay (net a))))]
                   (request_loop rem (a + 1) b' (Some e'))) = None ->
    exists i body v pre,
      a <= i < a + Z.of_nat (S rem) /\
      http_do (net i) = HttpResponse StatusOK body /\
      decode body = Ok v /\
      reply_value (with_effects A [ELimiter; EDo a; EBackoff (fst (NextDelay b (jittered_delay (net a))))]
                     (request_loop rem (a + 1) b' (Some e'))) = Some v /\
      reply_trace (with_effects A [ELimiter; EDo a; EBackoff (fst (NextDelay b (jittered_delay (net a))))]
                     (request_loop rem (a + 1) b' (Some e'))) = pre ++ [ELimiter; EDo i]).
  { intros b' e' Hnil.
    destruct (with_effects_parts
                [ELimiter; EDo a; EBackoff (fst (NextDelay b (jittered_delay (net a))))]
                (request_loop rem (a + 1) b' (Some e'))) as (He & Hv & Ht).
    rewrite He in Hnil. rewrite Hv, Ht.
    destruct (IH _ _ _ Hnil) as [(_ & Habs) | (i & body & v & pre & Hi & Hdo & Hdec & Hval & Htr)];
      [discriminate |].
    exists i, body, v, ([ELimiter; EDo a; EBackoff (fst (NextDelay b (jittered_delay (net a))))] ++ pre).
    split; [lia |]. split; [exact Hdo |]. split; [exact Hdec |]. split; [exact Hval |].
    rewrite Htr. now rewrite app_assoc. }
  destruct (http_do (net a)) as [e | st body] eqn:Hdo.
  - destruct (a <? maxRetries); [| discriminate].
    destruct (NextDelay b (jittered_delay (net a))) as [d b'] eqn:Hd.
    destruct (wait_completed (net a)); [| discriminate].
    cbn [fst] in Hnext. apply Hnext.
  - destruct (ShouldRetry st) eqn:Hretry.
    + destruct (a <? maxRetries); [| discriminate].
      destruct (NextDelay b (jittered_delay (net a))) as [d b'] eqn:Hd.
      destruct (wait_completed (net a)); [| discriminate].
      cbn [fst] in Hnext. apply Hnext.
    + destruct (st =? StatusOK) eqn:Hok; cbn [negb]; [| discriminate].
      apply Z.eqb_eq in Hok. subst st.
      destruct (decode body) as [v | e] eqn:Hdec; [| discriminate].
      intros _. exists a, body, v, []. split; [lia |]. now repeat split.
Qed.

Lemma loop_value_nil_error :
  forall rem a b lastErr v,
    reply_value (request_loop rem a b lastErr) = Some v ->
    reply_error (request_loop rem a b lastErr) = None.
Proof.
  induction rem as [| rem IH]; intros a b lastErr v; [discriminate |].
  cbn [doRequest_loop].
  destruct (limiter_wait (net a)); [discriminate |].
  destruct (new_request (net a)); [discriminate |].
  destruct (http_do (net a)) as [e | st body].
  - destruct (a <? maxRetries); [| discriminate].
    destruct (NextDelay b (jittered_delay (net a))) as [d b'].
    destruct (wait_completed (net a)); [| discriminate].
    destruct (with_effects_parts [ELimiter; EDo a; EBackoff d]
                (request_loop rem (a + 1) b' (Some e))) as (-> & -> & _).
    apply IH.
  - destruct (ShouldRetry st).
    + destruct (a <? maxRetries); [| discriminate].
      destruct (NextDelay b (jittered_delay (net a))) as [d b'].
      destruct (wait_completed (net a)); [| discriminate].
      destruct (with_effects_parts [ELimiter; EDo a; EBackoff d]
                  (request_loop rem (a + 1) b' (Some (RetryableError st body))))
        as (-> & -> & _).
      apply IH.
    + destruct (negb (st =? StatusOK)); [discriminate |].
      destruct (decode body); [reflexivity | discriminate].
Qed.

(** X11.  With a retry count of zero or more, a GET returns a nil error
    only after an attempt that was answered with status 200 and whose body
    was decoded, that attempt is the last call of the request, and the
    decoded value is what the caller gets; a decoded value never comes with
    an error.  With a negative retry count the loop body never runs: the
    request makes no call at all and returns a nil error with nothing
    decoded. *)
Theorem doRequest_nil_error :
  (0 <= maxRetries ->
   reply_error (doRequest A decode maxRetries net) = None ->
   exists i body v pre,
     0 <= i <= maxRetries /\
     http_do (net i) = HttpResponse StatusOK body /\
     decode body = Ok v /\
     reply_value (doRequest A decode maxRetries net) = Some v /\
     reply_trace (doRequest A decode maxRetries net) = pre ++ [ELimiter; EDo i]) /\
  (forall v, reply_value (doRequest A decode maxRetries net) = Some v ->
     reply_error (doRequest A decode maxRetries net) = None) /\
  (maxRetries < 0 -> doRequest A decode maxRetries net = (None, None, [])).
Proof.
  unfold doRequest. split; [| split].
  - intros Hmax Hnil.
    destruct (loop_nil_error _ _ _ _ Hnil)
      as [(Hrem & _) | (i & body & v & pre & Hi & Hrest)].
    + exfalso. apply (f_equal Z.of_nat) in Hrem. rewrite Z2Nat.id in Hrem by lia.
      cbn in Hrem. lia.
    + exists i, body, v, pre. split; [| exact Hrest].
      rewrite Z2Nat.id in Hi by lia. lia.
  - intros v. apply loop_value_nil_error.
  - intros Hneg. replace (Z.to_nat (maxRetries + 1)) with O by lia. reflexivity.
Qed.

(** The counter of the backoff follows the attempt number, so only the
    first wait of a request takes the branch of NextDelay for a fresh
    backoff. *)
Lemma loop_backoff_waits :
  forall rem a b lastErr,
    0 <= a -> attempts b = a -> cfg b = DefaultConfig -> maxRetries <= max_i64 ->
    exists n,
      filter is_backoff (reply_trace (request_loop rem a b lastErr)) =
      map (fun k => EBackoff (if a + Z.of_nat k =? 0 then 100 * Millisecond
                              else jittered_delay (net (a + Z.of_nat k))))
          (seq 0 n) /\
      (n = O \/ a + Z.of_nat n <= maxRetries).
Proof.
  induction rem as [| rem IH]; intros a b lastErr Ha Hb Hcfg Hmax.
  { exists O. split; [reflexivity | now left]. }
  cbn [doRequest_loop].
  destruct (limiter_wait (net a)); [exists O; split; [reflexivity | now left] |].
  destruct (new_request (net a)); [exists O; split; [reflexivity | now left] |].
  assert (Hdelay : (a <? maxRetries) = true ->
            NextDelay b (jittered_delay (net a)) =
            (if a + Z.of_nat 0 =? 0 then 100 * Millisecond else jittered_delay (net (a + Z.of_nat 0)),
             mkBackoff DefaultConfig (a + 1))).
  { intros Hlt. apply Z.ltb_lt in Hlt. unfold NextDelay. rewrite Hb, Hcfg.
    rewrite wrap_i64_id by (unfold is_i64, min_i64, max_i64 in *; lia).
    replace (a + Z.of_nat 0) with a by (cbn; lia).
    destruct (a =? 0); reflexivity. }
  assert (Hstep : forall e', a < maxRetries ->
            exists n,
              filter is_backoff
                (reply_trace
                   (with_effects A
                      [ELimiter; EDo a;
                       EBackoff (if a + Z.of_nat 0 =? 0 then 100 * Millisecond
                                 else jittered_delay (net (a + Z.of_nat 0)))]
                      (request_loop rem (a + 1) (mkBackoff DefaultConfig (a + 1)) e'))) =
              map (fun k => EBackoff (if a + Z.of_nat k =? 0 then 100 * Millisecond
                                      else jittered_delay (net (a + Z.of_nat k))))
                  (seq 0 n) /\
              (n = O \/ a + Z.of_nat n <= maxRetries)).
  { intros e' Hlt.
    destruct (with_effects_parts
                [ELimiter; EDo a;
                 EBackoff (if a + Z.of_nat 0 =? 0 then 100 * Millisecond
                           else jittered_delay (net (a + Z.of_nat 0)))]
                (request_loop rem (a + 1) (mkBackoff DefaultConfig (a + 1)) e'))
      as (_ & _ & ->).
    destruct (IH (a + 1) (mkBackoff DefaultConfig (a + 1)) e') as (n & Hn & Hbound);
      [lia | reflexivity | reflexivity | exact Hmax |].
    exists (S n). split; [| right; lia].
    cbn [app filter is_backoff seq map]. f_equal.
    rewrite Hn. rewrite <- seq_shift, map_map. apply map_ext. intros k.
    replace (a + 1 + Z.of_nat k) with (a + Z.of_nat (S k)) by lia. reflexivity. }
  destruct (http_do (net a)) as [e | st body].
  - destruct (a <? maxRetries) eqn:Hlt; [| exists O; split; [reflexivity | now left]].
    rewrite (Hdelay eq_refl). apply Z.ltb_lt in Hlt.
    destruct (wait_completed (net a)); [now apply Hstep |].
    exists 1%nat. split; [reflexivity | right; lia].
  - destruct (ShouldRetry st).
    + destruct (a <? maxRetries) eqn:Hlt; [| exists O; split; [reflexivity | now left]].
      rewrite (Hdelay eq_refl). apply Z.ltb_lt in Hlt.
      destruct (wait_completed (net a)); [now apply Hstep |].
      exists 1%nat. split; [reflexivity | right; lia].
    + destruct (negb (st =? StatusOK)); [exists O; split; [reflexivity | now left] |].
      destruct (decode body); exists O; (split; [reflexivity | now left]).
Qed.

(** X12.  Every GET starts with a fresh backoff: the wait after attempt 0
    is the initial delay of the default configuration, 100 ms, and the wait
    after attempt k, for k at least 1, is the jittered delay computed for
    that attempt; the waits of a request are those after attempts
    0, 1, ..., n-1 for some n of at most the retry count, in this order. *)
Theorem doRequest_backoff_waits :
  maxRetries <= max_i64 ->
  exists n,
    backoff_waits (doRequest A decode maxRetries net) =
    map (fun k => EBackoff (if Z.of_nat k =? 0 then 100 * Millisecond
                            else jittered_delay (net (Z.of_nat k))))
        (seq 0 n) /\
    Z.of_nat n <= Z.max 0 maxRetries.
Proof.
  intros Hmax. unfold backoff_waits, doRequest.
  destruct (loop_backoff_waits (Z.to_nat (maxRetries + 1)) 0 NewDefault None)
    as (n & Hn & Hbound); [lia | reflexivity | reflexivity | exact Hmax |].
  exists n. split; [exact Hn | lia].
Qed.

End WithRequest.

End RequestFacts.

(** ** backoff.Retry *)

Module RetryFacts.
Import Backoff BackoffRetry.

Section WithFn.

Variable maxRetries : Z.
Variable fn : Z -> option error.
Variable jittered : Z -> Z.
Variable wait_completed : Z -> bool.

Local Abbreviation retry_loop := (Retry_loop maxRetries fn jittered wait_completed).

Lemma Retry_loop_calls :
  forall rem i b lastErr,
    (List.length (filter is_fn_call (snd (retry_loop rem i b lastErr))) <= rem)%nat /\
    (forall j, In (CallFn j) (snd (retry_loop rem i b lastErr)) ->
       i <= j < i + Z.of_nat rem).
Proof.
  induction rem as [| rem IH]; intros i b lastErr.
  { cbn. split; [lia | tauto]. }
  cbn [Retry_loop].
  destruct (fn i) as [err |].
  2:{ cbn. split; [lia |]. intros j [H | []]. injection H as <-. lia. }
  destruct (negb (IsRetryable err)).
  { cbn. split; [lia |]. intros j [H | []]. injection H as <-. lia. }
  destruct (i <? maxRetries).
  - unfold Wait. destruct (NextDelay b (jittered i)) as [d b'].
    destruct (wait_completed i).
    + destruct (IH (i + 1) b' (Some err)) as (Hlen & Hin).
      destruct (retry_loop rem (i + 1) b' (Some err)) as [e calls].
      cbn in *. split; [lia |].
      intros j [H | [H | H]]; [injection H as <-; lia | discriminate |].
      apply Hin in H. lia.
    + cbn. split; [lia |].
      intros j [H | [H | []]]; [injection H as <-; lia | discriminate].
  - destruct (IH (i + 1) b (Some err)) as (Hlen & Hin).
    destruct (retry_loop rem (i + 1) b (Some err)) as [e calls].
    cbn in *. split; [lia |].
    intros j [H | H]; [injection H as <-; lia |].
    apply Hin in H. lia.
Qed.

(** A run that ends with nil either never called [fn] and had no error
    pending, or ends with a call of [fn] that returned nil. *)
Lemma Retry_loop_nil :
  forall rem i b lastErr,
    fst (retry_loop rem i b lastErr) = None ->
    (rem = O /\ lastErr = None) \/
    exists j pre, i <= j < i + Z.of_nat rem /\ fn j = None /\
                  snd (retry_loop rem i b lastErr) = pre ++ [CallFn j].
Proof.
  induction rem as [| rem IH]; intros i b lastErr Hnil.
  { left. now split. }
  right. revert Hnil. cbn [Retry_loop].
  destruct (fn i) as [err |] eqn:Hfn.
  2:{ intros _. exists i, []. split; [lia |]. now split. }
  destruct (negb (IsRetryable err)); [discriminate |].
  destruct (i <? maxRetries).
  - unfold Wait. destruct (NextDelay b (jittered i)) as [d b'].
    destruct (wait_completed i); [| discriminate].
    specialize (IH (i + 1) b' (Some err)).
    destruct (retry_loop rem (i + 1) b' (Some err)) as [e calls].
    cbn [fst snd] in *. intros He.
    destruct (IH He) as [(_ & Habs) | (j & pre & Hj & Hf & Hc)]; [discriminate |].
    exists j, (CallFn i :: CallWait d :: pre). split; [lia |]. split; [exact Hf |].
    now rewrite Hc.
  - specialize (IH (i + 1) b (Some err)).
    destruct (retry_loop rem (i + 1) b (Some err)) as [e calls].
    cbn [fst snd] in *. intros He.
    destruct (IH He) as [(_ & Habs) | (j & pre & Hj & Hf & Hc)]; [discriminate |].
    exists j, (CallFn i :: pre). split; [lia |]. split; [exact Hf |].
    now rewrite Hc.
Qed.

(** A call after the first one follows a retryable error, a counter below
    maxRetries and a wait that ran to its end. *)
Lemma Retry_loop_next :
  forall rem i b lastErr j,
    Z.of_nat rem = maxRetries + 1 - i ->
    In (CallFn j) (snd (retry_loop rem i b lastErr)) -> i < j ->
    exists err, fn (j - 1) = Some err /\ IsRetryable err = true /\
                j - 1 < maxRetries /\ wait_completed (j - 1) = true.
Proof.
  induction rem as [| rem IH]; intros i b lastErr j Hrem Hin Hlt.
  { cbn in Hin. tauto. }
  revert Hin. cbn [Retry_loop].
  destruct (fn i) as [err |] eqn:Hfn.
  2:{ intros [H | []]. injection H as <-. lia. }
  destruct (IsRetryable err) eqn:Hre; cbn [negb].
  2:{ intros [H | []]. injection H as <-. lia. }
  destruct (i <? maxRetries) eqn:Hi.
  - apply Z.ltb_lt in Hi.
    unfold Wait. destruct (NextDelay b (jittered i)) as [d b'].
    destruct (wait_completed i) eqn:Hw.
    + pose proof (IH (i + 1) b' (Some err) j) as IHj.
      pose proof (Retry_loop_calls rem (i + 1) b' (Some err)) as (_ & Hrange).
      destruct (retry_loop rem (i + 1) b' (Some err)) as [e calls].
      cbn [snd] in *. intros [H | [H | H]]; [injection H as <-; lia | discriminate |].
      destruct (Z.eq_dec j (i + 1)) as [-> | Hne].
      * exists err. replace (i + 1 - 1) with i by lia. now repeat split.
      * apply IHj; [lia | exact H |]. apply Hrange in H. lia.
    + intros [H | [H | []]]; [injection H as <-; lia | discriminate].
  - apply Z.ltb_ge in Hi. assert (rem = O) by lia. subst rem.
    cbn. intros [H | []]. injection H as <-. lia.
Qed.

Lemma Retry_loop_waits :
  forall rem i b lastErr,
    (List.length (filter is_wait (snd (retry_loop rem i b lastErr))) <=
     List.length (filter is_fn_call (snd (retry_loop rem i b lastErr))))%nat /\
    (0 <= i -> Z.of_nat (List.length (filter is_wait (snd (retry_loop rem i b lastErr))))
               <= Z.max 0 (maxRetries - i)).
Proof.
  induction rem as [| rem IH]; intros i b lastErr.
  { cbn. split; lia. }
  cbn [Retry_loop].
  destruct (fn i) as [err |]; [| cbn; split; lia].
  destruct (negb (IsRetryable err)); [cbn; split; lia |].
  destruct (i <? maxRetries) eqn:Hi.
  - apply Z.ltb_lt in Hi.
    unfold Wait. destruct (NextDelay b (jittered i)) as [d b'].
    destruct (wait_completed i).
    + destruct (IH (i + 1) b' (Some err)) as (H1 & H2).
      destruct (retry_loop rem (i + 1) b' (Some err)) as [e calls].
      cbn in *. split; lia.
    + cbn. split; lia.
  - destruct (IH (i + 1) b (Some err)) as (H1 & H2).
    destruct (retry_loop rem (i + 1) b (Some err)) as [e calls].
    cbn in *. apply Z.ltb_ge in Hi. split; lia.
Qed.


End WithFn.

End RetryFacts.

(** ** Batches *)

Module BatchFacts.
Import GoTime Storage Batches.

Section WithEnv.

Variable env : Env.

(** Preparing the rows of a batch: timestamps as [stamps] gives them, one
    reading of the clock per row that had none, nothing handed to the
    session. *)
Lemma restamp_run {R : Type} (get : R -> Time) (set : R -> Time -> R) :
  (forall r ts, get (set r ts) = ts) ->
  forall l w, exists w',
    mapM (fun r => ts <- fill_timestamp env (get r) ;; ret (set r ts)) l w =
      (map (fun p => set (fst p) (snd p))
           (combine l (stamps env (clock_reads w) (map get l))), w') /\
    issued w' = issued w /\
    logged_errors w' = logged_errors w /\
    clock_reads w' = (clock_reads w + unstamped (map get l))%nat.
Proof.
  intros Hget. induction l as [| r l IH]; intros w.
  - exists w. cbn. repeat split. unfold unstamped. cbn. lia.
  - cbn [mapM map stamps]. unfold unstamped. cbn [filter].
    unfold bind at 1. unfold bind at 1. unfold fill_timestamp at 1.
    destruct (IsZero (get r)) eqn:Hz.
    + unfold bind at 1. unfold Now at 1. unfold ret at 1 2.
      destruct (IH (mkWorld (S (clock_reads w)) (issued w) (logged_errors w)))
        as (w' & Hrun & Hi & Hl & Hc).
      unfold bind at 1. rewrite Hrun. unfold ret.
      exists w'. split; [reflexivity |]. split; [exact Hi |]. split; [exact Hl |].
      rewrite Hc. unfold unstamped. cbn [List.length clock_reads]. lia.
    + unfold ret at 1 2.
      destruct (IH w) as (w' & Hrun & Hi & Hl & Hc).
      unfold bind at 1. rewrite Hrun. unfold ret.
      exists w'. split; [reflexivity |]. split; [exact Hi |]. split; [exact Hl |].
      exact Hc.
Qed.

Lemma stamps_length n l : List.length (stamps env n l) = List.length l.
Proof.
  revert n. induction l as [| ts l IH]; intros n; [reflexivity |].
  cbn [stamps]. destruct (IsZero ts); cbn [List.length]; now rewrite IH.
Qed.

Lemma restamped_fields {R P : Type} (get : R -> Time) (set : R -> Time -> R)
    (payload : R -> P) (l : list R) (tss : list Time) :
  (forall r ts, get (set r ts) = ts) ->
  (forall r ts, payload (set r ts) = payload r) ->
  List.length tss = List.length l ->
  map payload (map (fun p => set (fst p) (snd p)) (combine l tss)) = map payload l /\
  map get (map (fun p => set (fst p) (snd p)) (combine l tss)) = tss.
Proof.
  intros Hget Hpay. revert tss.
  induction l as [| r l IH]; intros [| ts tss] Hlen; try discriminate;
    [now split |].
  cbn [combine map fst snd]. injection Hlen as Hlen.
  destruct (IH tss Hlen) as (-> & ->). now rewrite Hget, Hpay.
Qed.

(** The timestamps of a batch: rows that had one keep it, and the rows
    that had none take successive readings of the clock. *)
Lemma stamps_kept n l :
  Forall2 (fun ts ts' => IsZero ts = false -> ts' = ts) l (stamps env n l).
Proof.
  revert n. induction l as [| ts l IH]; intros n; [constructor |].
  cbn [stamps]. destruct (IsZero ts) eqn:Hz; constructor; auto; congruence.
Qed.

Lemma stamps_taken n l :
  map snd (filter (fun p => IsZero (fst p)) (combine l (stamps env n l))) =
  map (fun k => ToUTC (wall env k)) (seq n (unstamped l)).
Proof.
  revert n. induction l as [| ts l IH]; intros n; [reflexivity |].
  cbn [stamps]. unfold unstamped. cbn [filter].
  destruct (IsZero ts) eqn:Hz; cbn [combine filter fst]; rewrite Hz.
  - cbn [map snd List.length seq]. f_equal. apply IH.
  - apply IH.
Qed.


End WithEnv.

End BatchFacts.

(** ** Configuration *)

Module ConfigFacts.
Import GoDuration Config.
Import PrimFloat.

Lemma default_int_pos x d : 0 < d -> 0 < default_int x d.
Proof.
  intros Hd. unfold default_int. destruct (x <=? 0) eqn:E; [exact Hd |].
  apply Z.leb_gt in E. exact E.
Qed.

Lemma default_int_keep x d : 0 < x -> default_int x d = x.
Proof.
  intros Hx. unfold default_int. destruct (x <=? 0) eqn:E; [| reflexivity].
  apply Z.leb_le in E. lia.
Qed.

Lemma default_int_idem x d : 0 < d -> default_int (default_int x d) d = default_int x d.
Proof. intros Hd. apply default_int_keep. now apply default_int_pos. Qed.

Lemma default_float_set x :
  PrimFloat.leb (default_float x 50%float) 0%float = false.
Proof.
  unfold default_float. destruct (PrimFloat.leb x 0%float) eqn:E; [reflexivity | exact E].
Qed.

Lemma default_float_idem x :
  default_float (default_float x 50%float) 50%float = default_float x 50%float.
Proof.
  unfold default_float at 1. now rewrite default_float_set.
Qed.

Lemma is_empty_iff s : is_empty s = true <-> s = EmptyString.
Proof. destruct s; cbn; split; congruence. Qed.

Lemma no_elements_iff {A} (l : list A) : no_elements l = true <-> l = [].
Proof. destruct l; cbn; split; congruence. Qed.

Lemma setDefaults_idem c : setDefaults (setDefaults c) = setDefaults c.
Proof.
  unfold setDefaults. cbn [BeaconNodeURL Validators PollingIntervalSlots WorkerPoolSize
    RateLimit HTTP ScyllaDB RequestsPerSecond Burst http_TimeoutSeconds MaxIdleConns
    Hosts Keyspace ReplicationFactor Consistency scylla_TimeoutSeconds MaxRetries TTLDays].
  rewrite !default_int_idem by lia. rewrite default_float_idem.
  destruct (is_empty (Consistency (ScyllaDB c))) eqn:E; cbn [is_empty]; [reflexivity |].
  now rewrite E.
Qed.

Lemma setDefaults_positive c :
  0 < PollingIntervalSlots (setDefaults c) /\
  0 < WorkerPoolSize (setDefaults c) /\
  0 < Burst (RateLimit (setDefaults c)) /\
  0 < http_TimeoutSeconds (HTTP (setDefaults c)) /\
  0 < MaxIdleConns (HTTP (setDefaults c)) /\
  0 < ReplicationFactor (ScyllaDB (setDefaults c)) /\
  0 < scylla_TimeoutSeconds (ScyllaDB (setDefaults c)) /\
  0 < MaxRetries (ScyllaDB (setDefaults c)) /\
  0 < TTLDays (ScyllaDB (setDefaults c)).
Proof. cbn. repeat split; apply default_int_pos; lia. Qed.

Lemma validate_None c :
  validate c = None <->
  BeaconNodeURL c <> EmptyString /\ Validators c <> [] /\
  Hosts (ScyllaDB c) <> [] /\ Keyspace (ScyllaDB c) <> EmptyString.
Proof.
  unfold validate.
  destruct (BeaconNodeURL c); cbn [is_empty];
    [split; [discriminate | intros (H & _); congruence] |].
  destruct (Validators c); cbn [no_elements];
    [split; [discriminate | intros (_ & H & _); congruence] |].
  destruct (Hosts (ScyllaDB c)); cbn [no_elements];
    [split; [discriminate | intros (_ & _ & H & _); congruence] |].
  destruct (Keyspace (ScyllaDB c)); cbn [is_empty];
    [split; [discriminate | intros (_ & _ & _ & H); congruence] |].
  split; [intros _; repeat split; discriminate | reflexivity].
Qed.


(** A configuration Load returns is the parsed one, validated, after
    setDefaults. *)
Lemma Load_ok_inv read unmarshal cfg :
  Load read unmarshal = LoadOk cfg ->
  exists data raw,
    read = Ok data /\ unmarshal data = Ok raw /\ validate raw = None /\
    cfg = setDefaults raw.
Proof.
  unfold Load. destruct read as [data | e]; [| discriminate].
  destruct (unmarshal data) as [raw | e] eqn:Hraw; [| discriminate].
  destruct (validate raw) eqn:Hval; [discriminate |].
  intros H. injection H as <-. now exists data, raw.
Qed.

(** X16.  Load returns a configuration only if the file was read, parsed
    and passed validate: the node URL and the keyspace are not empty, there
    is at least one validator and one host, and the configuration is the
    parsed one after setDefaults, so every integer option in it is
    positive.  A configuration that fails validate is reported as invalid
    whatever its optional fields hold, and no configuration is returned
    with an error. *)
Theorem Load_returns read unmarshal :
  (forall cfg, Load read unmarshal = LoadOk cfg ->
     exists data raw,
       read = Ok data /\ unmarshal data = Ok raw /\ validate raw = None /\
       cfg = setDefaults raw /\
       BeaconNodeURL cfg <> EmptyString /\ Validators cfg <> [] /\
       Hosts (ScyllaDB cfg) <> [] /\ Keyspace (ScyllaDB cfg) <> EmptyString /\
       0 < PollingIntervalSlots cfg /\ 0 < WorkerPoolSize cfg /\
       0 < MaxRetries (ScyllaDB cfg) /\ 0 < TTLDays (ScyllaDB cfg) /\
       setDefaults cfg = cfg) /\
  (forall data raw reason,
     read = Ok data -> unmarshal data = Ok raw -> validate raw = Some reason ->
     Load read unmarshal = LoadErr (InvalidConfiguration reason)) /\
  (forall data raw,
     read = Ok data -> unmarshal data = Ok raw -> validate raw = None ->
     Load read unmarshal = LoadOk (setDefaults raw)).
Proof.
  split; [| split].
  - intros cfg Hload.
    destruct (Load_ok_inv _ _ _ Hload) as (data & raw & Hread & Hraw & Hval & ->).
    exists data, raw.
    split; [exact Hread |]. split; [exact Hraw |]. split; [exact Hval |].
    split; [reflexivity |].
    apply validate_None in Hval. destruct Hval as (H1 & H2 & H3 & H4).
    pose proof (setDefaults_positive raw) as (P1 & P2 & _ & _ & _ & _ & _ & P8 & P9).
    split; [exact H1 |]. split; [exact H2 |]. split; [exact H3 |]. split; [exact H4 |].
    split; [exact P1 |]. split; [exact P2 |]. split; [exact P8 |]. split; [exact P9 |].
    apply setDefaults_idem.
  - unfold Load. intros data raw reason -> -> ->. reflexivity.
  - unfold Load. intros data raw -> -> ->. reflexivity.
Qed.

Lemma seconds_positive n :
  0 < n <= max_timeout_seconds -> mul_i64 n Second = n * Second /\ 0 < n * Second.
Proof.
  intros Hn. assert (Hm : max_timeout_seconds = 9223372036) by reflexivity.
  rewrite Hm in Hn. unfold mul_i64, Second. split; [| lia].
  apply wrap_i64_id. unfold is_i64, min_i64, max_i64, two63.
  change (2 ^ 63) with 9223372036854775808. lia.
Qed.

Lemma ttl_seconds_exact d :
  0 < d <= max_ttl_days ->
  mul_i64 (mul_i64 (mul_i64 d 24) 60) 60 = d * 86400.
Proof.
  intros Hd. assert (Hm : max_ttl_days = 106751991167300) by reflexivity.
  rewrite Hm in Hd. unfold mul_i64.
  rewrite (wrap_i64_id (d * 24))
    by (unfold is_i64, min_i64, max_i64, two63;
        change (2 ^ 63) with 9223372036854775808; lia).
  rewrite (wrap_i64_id (d * 24 * 60))
    by (unfold is_i64, min_i64, max_i64, two63;
        change (2 ^ 63) with 9223372036854775808; lia).
  rewrite wrap_i64_id
    by (unfold is_i64, min_i64, max_i64, two63;
        change (2 ^ 63) with 9223372036854775808; lia).
  lia.
Qed.

(** X17.  The derived durations of a configuration after setDefaults:
    the HTTP and ScyllaDB timeouts are the configured seconds in
    nanoseconds and positive as long as the seconds do not exceed
    9223372036, and the TTL is the configured days times 86400 seconds as
    long as the days do not exceed 106751991167300; the defaults give 30 s,
    10 s and 7776000 s.  One second more than 9223372036 makes the int64
    product wrap to a negative timeout. *)
Theorem derived_durations c :
  let c' := setDefaults c in
  (http_TimeoutSeconds (HTTP c') <= max_timeout_seconds ->
   HTTPConf_Timeout (HTTP c') = http_TimeoutSeconds (HTTP c') * Second /\
   0 < HTTPConf_Timeout (HTTP c')) /\
  (scylla_TimeoutSeconds (ScyllaDB c') <= max_timeout_seconds ->
   ScyllaDBConf_Timeout (ScyllaDB c') = scylla_TimeoutSeconds (ScyllaDB c') * Second /\
   0 < ScyllaDBConf_Timeout (ScyllaDB c')) /\
  (TTLDays (ScyllaDB c') <= max_ttl_days ->
   TTLSeconds (ScyllaDB c') = TTLDays (ScyllaDB c') * 86400 /\
   0 < TTLSeconds (ScyllaDB c')) /\
  (http_TimeoutSeconds (HTTP c) <= 0 -> HTTPConf_Timeout (HTTP c') = 30 * Second) /\
  (scylla_TimeoutSeconds (ScyllaDB c) <= 0 ->
   ScyllaDBConf_Timeout (ScyllaDB c') = 10 * Second) /\
  (TTLDays (ScyllaDB c) <= 0 -> TTLSeconds (ScyllaDB c') = 7776000) /\
  (http_TimeoutSeconds (HTTP c) = max_timeout_seconds + 1 ->
   HTTPConf_Timeout (HTTP c') < 0).
Proof.
  cbv zeta. pose proof (setDefaults_positive c) as (_ & _ & _ & P4 & _ & _ & P7 & _ & P9).
  split; [| split; [| split; [| split; [| split; [| split]]]]].
  - intros H. unfold HTTPConf_Timeout.
    destruct (seconds_positive (http_TimeoutSeconds (HTTP (setDefaults c)))) as (-> & Hp);
      [lia | now split].
  - intros H. unfold ScyllaDBConf_Timeout.
    destruct (seconds_positive (scylla_TimeoutSeconds (ScyllaDB (setDefaults c))))
      as (-> & Hp); [lia | now split].
  - intros H. unfold TTLSeconds. rewrite ttl_seconds_exact by lia. split; lia.
  - intros H. cbn. unfold default_int.
    replace (http_TimeoutSeconds (HTTP c) <=? 0) with true
      by (symmetry; now apply Z.leb_le).
    reflexivity.
  - intros H. cbn. unfold default_int.
    replace (scylla_TimeoutSeconds (ScyllaDB c) <=? 0) with true
      by (symmetry; now apply Z.leb_le).
    reflexivity.
  - intros H. cbn. unfold default_int.
    replace (TTLDays (ScyllaDB c) <=? 0) with true by (symmetry; now apply Z.leb_le).
    reflexivity.
  - intros H. cbn. rewrite H. reflexivity.
Qed.

End ConfigFacts.

(** ** From the configuration to the requests of the Beacon client *)

Module StartupFacts.
Import Backoff BeaconClient BeaconAPI.

(** X18.  The Beacon client takes its retry count from the ScyllaDB
    section of the configuration.  With a loaded configuration the count is
    at least 1, the client's base URL is not empty, and every GET consults
    the rate limiter, makes at most max_retries + 1 attempts, and returns a
    nil error only together with a value decoded from a 200 response; the
    validator GetValidator returns was decoded from such a body.  A client
    built from a configuration with a negative count, which Load never
    returns, makes no call and GetValidator answers the zero validator with
    a nil error. *)
Theorem loaded_client_requests read unmarshal cfg :
  Config.Load read unmarshal = Config.LoadOk cfg ->
  let client := ClientSetup.NewClient cfg in
  ClientSetup.maxRetries client = Config.MaxRetries (Config.ScyllaDB cfg) /\
  1 <= ClientSetup.maxRetries client /\
  ClientSetup.baseURL client <> EmptyString /\
  (forall (A : Type) (decode : string -> result A) net,
     let r := doRequest A decode (ClientSetup.maxRetries client) net in
     reply_trace r <> [] /\
     Z.of_nat (attempts_made r) <= ClientSetup.maxRetries client + 1 /\
     (reply_error r = None ->
      exists i body v, http_do (net i) = HttpResponse StatusOK body /\
                       decode body = Ok v /\ reply_value r = Some v)) /\
  (forall scan net stateID validatorID v calls,
     GetValidator scan (ClientSetup.maxRetries client) net stateID validatorID =
       (Ok v, calls) ->
     exists i body, http_do (net i) = HttpResponse StatusOK body /\
                    decode_validator_response scan body = Ok v) /\
  (forall raw scan net stateID validatorID,
     Config.MaxRetries (Config.ScyllaDB raw) < 0 ->
     GetValidator scan (ClientSetup.maxRetries (ClientSetup.NewClient raw)) net
       stateID validatorID = (Ok zero_validator, [])).
Proof.
  intros Hload. cbv zeta.
  destruct (ConfigFacts.Load_ok_inv _ _ _ Hload) as (data & raw & _ & _ & Hval & Hcfg).
  apply ConfigFacts.validate_None in Hval. destruct Hval as (Hurl & _).
  pose proof (ConfigFacts.setDefaults_positive raw) as (_ & _ & _ & _ & _ & _ & _ & Hmax & _).
  change (Config.BeaconNodeURL raw) with (Config.BeaconNodeURL (Config.setDefaults raw)) in Hurl.
  rewrite <- Hcfg in Hurl, Hmax. clear Hcfg Hload data raw.
  cbn [ClientSetup.NewClient ClientSetup.maxRetries ClientSetup.baseURL].
  split; [reflexivity |]. split; [lia |]. split; [exact Hurl |].
  split; [| split].
  - intros A decode net. split; [| split].
    + unfold doRequest.
      replace (Z.to_nat (Config.MaxRetries (Config.ScyllaDB cfg) + 1))
        with (S (Z.to_nat (Config.MaxRetries (Config.ScyllaDB cfg)))) by lia.
      destruct (ClientFacts.loop_cases A decode (Config.MaxRetries (Config.ScyllaDB cfg)) net
                  (Z.to_nat (Config.MaxRetries (Config.ScyllaDB cfg))) 0 NewDefault None)
        as [(_ & ->) | [(_ & _ & [-> | (d & ->)] & _) | (_ & _ & d & b' & e' & ->)]];
        try discriminate.
      rewrite ClientFacts.with_effects_trace. discriminate.
    + unfold attempts_made, doRequest.
      pose proof (ClientFacts.loop_attempts_bound A decode
                    (Config.MaxRetries (Config.ScyllaDB cfg)) net
                    (Z.to_nat (Config.MaxRetries (Config.ScyllaDB cfg) + 1)) 0
                    NewDefault None). lia.
    + intros Hnil. unfold doRequest in *.
      destruct (RequestFacts.loop_nil_error _ _ _ _ _ _ _ _ Hnil)
        as [(Hrem & _) | (i & body & v & pre & _ & Hdo & Hdec & Hval & _)]; [lia |].
      now exists i, body, v.
  - intros scan net stateID validatorID v calls. unfold GetValidator.
    destruct (reply_error (doRequest Validator (decode_validator_response scan)
                (Config.MaxRetries (Config.ScyllaDB cfg)) net)) eqn:He; [discriminate |].
    unfold doRequest in *.
    destruct (RequestFacts.loop_nil_error _ _ _ _ _ _ _ _ He)
      as [(Hrem & _) | (i & body & v' & pre & _ & Hdo & Hdec & Hval & _)]; [lia |].
    rewrite Hval. intros H. injection H as <- _. now exists i, body.
  - intros raw' scan net stateID validatorID Hneg.
    unfold GetValidator, doRequest. cbn [ClientSetup.NewClient ClientSetup.maxRetries].
    replace (Z.to_nat (Config.MaxRetries (Config.ScyllaDB raw') + 1)) with O by lia.
    reflexivity.
Qed.

End StartupFacts.

(** ** The ScyllaDB client and the migrations *)

Module ScyllaFacts.
Import Storage Scylla.

Lemma parseConsistency_default :
  parseConsistency "local_quorum" = (LocalQuorum, None).
Proof. reflexivity. Qed.

Lemma lower_byte_idem c : lower_byte (lower_byte c) = lower_byte c.
Proof.
  unfold lower_byte.
  destruct ((65 <=? N_of_ascii c) && (N_of_ascii c <=? 90))%N eqn:E; [| now rewrite E].
  apply andb_true_iff in E. destruct E as (E1 & E2).
  apply N.leb_le in E1. apply N.leb_le in E2.
  rewrite N_ascii_embedding by lia.
  replace ((65 <=? N_of_ascii c + 32) && (N_of_ascii c + 32 <=? 90))%N with false;
    [reflexivity |].
  symmetry. apply andb_false_iff. right. apply N.leb_gt. lia.
Qed.

Lemma ToLower_idem s : ToLower (ToLower s) = ToLower s.
Proof.
  induction s as [| c s IH]; [reflexivity |].
  cbn [ToLower]. now rewrite lower_byte_idem, IH.
Qed.

Lemma parseConsistency_known level :
  snd (parseConsistency level) = None <-> In (ToLower level) consistency_names.
Proof.
  unfold parseConsistency, consistency_names.
  repeat match goal with
  | |- context [String.eqb (ToLower level) ?n] =>
      destruct (String.eqb_spec (ToLower level) n) as [-> | ?];
      [cbn; split; [intros _; tauto | reflexivity] |]
  end.
  cbn. split; [discriminate |].
  intros H. repeat (destruct H as [H | H]; [symmetry in H; contradiction |]). destruct H.
Qed.

(** X19.  parseConsistency accepts a level exactly when its lower-case
    form is one of the nine names, whatever the case of its letters, and
    answers an unknown level with LocalQuorum together with an error
    naming the level as written.  The level setDefaults fills in for an
    omitted one is accepted and stands for LocalQuorum. *)
Theorem parseConsistency_levels level :
  (snd (parseConsistency level) = None <-> In (ToLower level) consistency_names) /\
  (snd (parseConsistency level) <> None ->
   parseConsistency level = (LocalQuorum, Some (UnknownConsistency level))) /\
  fst (parseConsistency (ToLower level)) = fst (parseConsistency level) /\
  (snd (parseConsistency (ToLower level)) = None <->
   snd (parseConsistency level) = None) /\
  (forall c, Config.Consistency (Config.ScyllaDB c) = EmptyString ->
     parseConsistency (Config.Consistency (Config.ScyllaDB (Config.setDefaults c))) =
       (LocalQuorum, None)).
Proof.
  split; [apply parseConsistency_known |].
  split.
  { unfold parseConsistency.
    repeat match goal with
    | |- context [String.eqb (ToLower level) ?n] =>
        destruct (String.eqb (ToLower level) n); [cbn; congruence |]
    end.
    reflexivity. }
  split.
  { unfold parseConsistency. rewrite ToLower_idem.
    repeat match goal with
    | |- context [String.eqb (ToLower level) ?n] =>
        destruct (String.eqb (ToLower level) n); [reflexivity |]
    end.
    reflexivity. }
  split.
  { rewrite !parseConsistency_known, ToLower_idem. tauto. }
  intros c Hc. cbn. rewrite Hc. reflexivity.
Qed.

Section WithCluster.

Variable connect : option error.
Variable create : option error.
Variable reconnect : option error.

(** X20.  storage.NewClient leaves exactly one session open when it
    returns a client and none when it returns an error: the session used to
    create the keyspace is closed on every path.  An unknown consistency
    level ends it before any connection is attempted.  A client is returned
    exactly when the level is known and the cluster accepts the two
    connections and the keyspace statement; it then carries the keyspace of
    the configuration and its TTL in seconds, and the keyspace was created
    with the configured replication factor before the session using it was
    opened. *)
Theorem NewClient_sessions cfg :
  let '(client, err, actions) := NewClient connect create reconnect cfg in
  (open_sessions 0 actions = match client with Some _ => 1 | None => 0 end) /\
  (client = None <-> err <> None) /\
  (snd (parseConsistency (Config.Consistency cfg)) <> None -> actions = []) /\
  ((exists c, client = Some c) <->
   snd (parseConsistency (Config.Consistency cfg)) = None /\
   connect = None /\ create = None /\ reconnect = None) /\
  (forall c k, client = Some (c, k) ->
     Keyspace c = Config.Keyspace cfg /\
     TTLSeconds c = Config.TTLSeconds cfg /\
     cluster_Consistency k = fst (parseConsistency (Config.Consistency cfg)) /\
     NumRetries k = Config.MaxRetries cfg /\
     actions = [CreateSession None true;
                CreateKeyspace (Config.Keyspace cfg) (Config.ReplicationFactor cfg);
                CloseSession;
                CreateSession (Some (Config.Keyspace cfg)) true]).
Proof.
  unfold NewClient.
  destruct (parseConsistency (Config.Consistency cfg)) as [level [e |]]; cbn [fst snd].
  { split; [reflexivity |]. split; [split; [discriminate | reflexivity] |].
    split; [reflexivity |].
    split; [split; [intros (c & H); discriminate | intros (H & _); discriminate] |].
    discriminate. }
  destruct connect as [e |].
  { split; [reflexivity |]. split; [split; [discriminate | reflexivity] |].
    split; [congruence |].
    split; [split; [intros (c & H); discriminate | intros (_ & H & _); discriminate] |].
    discriminate. }
  destruct create as [e |].
  { split; [reflexivity |]. split; [split; [discriminate | reflexivity] |].
    split; [congruence |].
    split; [split; [intros (c & H); discriminate | intros (_ & _ & H & _); discriminate] |].
    discriminate. }
  destruct reconnect as [e |].
  { split; [reflexivity |]. split; [split; [discriminate | reflexivity] |].
    split; [congruence |].
    split; [split; [intros (c & H); discriminate | intros (_ & _ & _ & H); discriminate] |].
    discriminate. }
  split; [reflexivity |]. split; [split; [discriminate | congruence] |].
  split; [congruence |].
  split; [split; [now intros _ | intros _; eexists; reflexivity] |].
  intros c k H. injection H as <- <-. now repeat split.
Qed.

End WithCluster.

Section WithSession.

Variable exec : nat -> option error.
Variable ttl : Z.

Lemma create_tables_run ms :
  forall n,
    let r := create_tables exec ms n in
    (fst r = None ->
     snd r = map CreateTable ms /\
     forall k, (k < List.length ms)%nat -> exec (n + k)%nat = None) /\
    (forall e, fst r = Some e ->
     exists k cause,
       (k < List.length ms)%nat /\ exec (n + k)%nat = Some cause /\
       (forall j, (j < k)%nat -> exec (n + j)%nat = None) /\
       e = Wrapped "migration failed" cause /\
       snd r = firstn (S k) (map CreateTable ms)).
Proof.
  induction ms as [| m ms IH]; intros n; cbv zeta.
  { cbn. split; [intros _; split; [reflexivity | intros k Hk; lia] | discriminate]. }
  cbn [create_tables].
  destruct (exec n) as [cause |] eqn:Hn.
  - cbn [fst snd]. split; [discriminate |].
    intros e H. injection H as <-. exists O, cause.
    cbn [List.length]. split; [lia |]. rewrite Nat.add_0_r.
    split; [exact Hn |]. split; [intros j Hj; lia |]. now split.
  - specialize (IH (S n)). cbv zeta in IH.
    destruct (create_tables exec ms (S n)) as [e done]. cbn [fst snd] in *.
    destruct IH as (IH1 & IH2). split.
    + intros He. destruct (IH1 He) as (-> & Hall). split; [reflexivity |].
      intros [| k] Hk; [now rewrite Nat.add_0_r |].
      cbn [List.length] in Hk. replace (n + S k)%nat with (S n + k)%nat by lia.
      apply Hall. lia.
    + intros e' He. destruct (IH2 e' He) as (k & cause & Hk & Hex & Hbefore & -> & ->).
      exists (S k), cause. cbn [List.length]. split; [lia |].
      replace (n + S k)%nat with (S n + k)%nat by lia. split; [exact Hex |].
      split.
      * intros [| j] Hj; [now rewrite Nat.add_0_r |].
        replace (n + S j)%nat with (S n + j)%nat by lia. apply Hbefore. lia.
      * now split.
Qed.

Lemma set_ttls_run tables :
  forall n,
    let r := set_ttls exec ttl tables n in
    (fst r = None ->
     snd r = map (fun t => AlterTableTTL t ttl) tables /\
     forall k, (k < List.length tables)%nat -> exec (n + k)%nat = None) /\
    (forall e, fst r = Some e ->
     exists k cause,
       (k < List.length tables)%nat /\ exec (n + k)%nat = Some cause /\
       (forall j, (j < k)%nat -> exec (n + j)%nat = None) /\
       (exists msg, e = Wrapped msg cause) /\
       snd r = firstn (S k) (map (fun t => AlterTableTTL t ttl) tables)).
Proof.
  induction tables as [| t tables IH]; intros n; cbv zeta.
  { cbn. split; [intros _; split; [reflexivity | intros k Hk; lia] | discriminate]. }
  cbn [set_ttls]. unfold setTableTTL.
  destruct (exec n) as [cause |] eqn:Hn.
  - cbn [fst snd]. split; [discriminate |].
    intros e H. injection H as <-. exists O, cause.
    cbn [List.length]. split; [lia |]. rewrite Nat.add_0_r.
    split; [exact Hn |]. split; [intros j Hj; lia |].
    split; [eexists; reflexivity | reflexivity].
  - specialize (IH (S n)). cbv zeta in IH.
    destruct (set_ttls exec ttl tables (S n)) as [e done]. cbn [fst snd] in *.
    destruct IH as (IH1 & IH2). split.
    + intros He. destruct (IH1 He) as (-> & Hall). split; [reflexivity |].
      intros [| k] Hk; [now rewrite Nat.add_0_r |].
      cbn [List.length] in Hk. replace (n + S k)%nat with (S n + k)%nat by lia.
      apply Hall. lia.
    + intros e' He. destruct (IH2 e' He) as (k & cause & Hk & Hex & Hbefore & Hmsg & ->).
      exists (S k), cause. cbn [List.length]. split; [lia |].
      replace (n + S k)%nat with (S n + k)%nat by lia. split; [exact Hex |].
      split.
      * intros [| j] Hj; [now rewrite Nat.add_0_r |].
        replace (n + S j)%nat with (S n + j)%nat by lia. apply Hbefore. lia.
      * now split.
Qed.

(** X21.  RunMigrations executes the four CREATE TABLE statements and then
    one ALTER TABLE with the client's TTL for each of the four tables, in
    this order, and stops at the first execution the session answers with
    an error: the statements executed are those up to and including the
    failing one, the error returned wraps the session's, and it returns nil
    exactly when the session accepts all eight. *)
Theorem RunMigrations_stops_at_first_failure :
  let r := RunMigrations exec ttl in
  (fst r = None <-> forall k, (k < 8)%nat -> exec k = None) /\
  (fst r = None -> snd r = all_statements ttl) /\
  (forall e, fst r = Some e ->
     exists k cause msg,
       (k < 8)%nat /\ exec k = Some cause /\
       (forall j, (j < k)%nat -> exec j = None) /\
       e = Wrapped msg cause /\
       snd r = firstn (S k) (all_statements ttl)).
Proof.
  cbv zeta. unfold RunMigrations.
  pose proof (create_tables_run migrations 0) as Hc. cbv zeta in Hc.
  destruct (create_tables exec migrations 0) as [e1 created]. cbn [fst snd] in Hc.
  destruct Hc as (Hc1 & Hc2).
  destruct e1 as [e1 |].
  - cbn [fst snd]. destruct (Hc2 e1 eq_refl) as (k & cause & Hk & Hex & Hbefore & -> & ->).
    change (List.length migrations) with 4%nat in Hk. cbn [Nat.add] in *.
    split; [split; [discriminate |] |].
    { intros Hall. rewrite Hall in Hex by lia. discriminate. }
    split; [discriminate |].
    intros e H. injection H as <-. exists k, cause, "migration failed"%string.
    split; [lia |]. split; [exact Hex |]. split; [exact Hbefore |]. split; [reflexivity |].
    unfold all_statements. rewrite firstn_app.
    replace (S k - List.length (map CreateTable migrations))%nat with O
      by (rewrite length_map; change (List.length migrations) with 4%nat; lia).
    cbn [firstn]. now rewrite app_nil_r.
  - destruct (Hc1 eq_refl) as (-> & Hall1). cbn [Nat.add] in Hall1.
    change (List.length migrations) with 4%nat in Hall1.
    rewrite length_map. change (List.length migrations) with 4%nat.
    pose proof (set_ttls_run tableNames 4) as Hs. cbv zeta in Hs.
    destruct (set_ttls exec ttl tableNames 4) as [e2 altered]. cbn [fst snd] in *.
    destruct Hs as (Hs1 & Hs2).
    change (List.length tableNames) with 4%nat in Hs1, Hs2.
    destruct e2 as [e2 |].
    + destruct (Hs2 e2 eq_refl) as (k & cause & Hk & Hex & Hbefore & (msg & ->) & ->).
      split; [split; [discriminate |] |].
      { intros Hall. rewrite Hall in Hex by lia. discriminate. }
      split; [discriminate |].
      intros e H. injection H as <-. exists (4 + k)%nat, cause, msg.
      split; [lia |]. split; [exact Hex |]. split.
      * intros j Hj. destruct (Nat.lt_ge_cases j 4) as [Hlt | Hge]; [now apply Hall1 |].
        replace j with (4 + (j - 4))%nat by lia. apply Hbefore. lia.
      * split; [reflexivity |].
        unfold all_statements. rewrite firstn_app, length_map.
        change (List.length migrations) with 4%nat.
        replace (S (4 + k) - 4)%nat with (S k) by lia. reflexivity.
    + destruct (Hs1 eq_refl) as (-> & Hall2).
      split; [split; [intros _ | reflexivity] | split; [reflexivity | discriminate]].
      intros k Hk. destruct (Nat.lt_ge_cases k 4) as [Hlt | Hge]; [now apply Hall1 |].
      replace k with (4 + (k - 4))%nat by lia. apply Hall2. lia.
Qed.

End WithSession.

(** X22.  Every INSERT of the repository goes to a table the migration
    creates and whose TTL it sets, names exactly the columns of that
    table, in the order of its CREATE TABLE statement, and binds one value
    per column; every column of the primary key is among them. *)
Theorem schema_covers_inserts (q : Insert) :
  exists t,
    In t migrations /\
    In (table_name t) tableNames /\
    table_name t = fst (insert_target q) /\
    map fst (columns t) = snd (insert_target q) /\
    List.length (columns t) = bound_values q /\
    incl (primary_key t) (snd (insert_target q)).
Proof.
  destruct q.
  - exists (nth 0 migrations (mkTable EmptyString [] [])).
    cbn. repeat split; try tauto. intros x Hx. cbn in *. tauto.
  - exists (nth 1 migrations (mkTable EmptyString [] [])).
    cbn. repeat split; try tauto. intros x Hx. cbn in *. tauto.
  - exists (nth 2 migrations (mkTable EmptyString [] [])).
    cbn. repeat split; try tauto. intros x Hx. cbn in *. tauto.
  - exists (nth 3 migrations (mkTable EmptyString [] [])).
    cbn. repeat split; try tauto. intros x Hx. cbn in *. tauto.
Qed.

End ScyllaFacts.

(** ** Maps by validator index and the reward summary *)

Module MapFacts.
Import BeaconAPI BeaconMaps.

Lemma find_last_snoc {A} (p : A -> bool) l x :
  find_last p (l ++ [x]) = if p x then Some x else find_last p l.
Proof. unfold find_last. rewrite rev_app_distr. reflexivity. Qed.

Lemma fold_store {V} (key : V -> Z) (l : list V) (m0 : GoMap V) (k : Z) :
  fold_left (fun m v => store m (key v) v) l m0 k =
  match find_last (fun v => k =? key v) l with
  | Some v => Some v
  | None => m0 k
  end.
Proof.
  induction l as [| x l IH] using rev_ind; [reflexivity |].
  rewrite fold_left_app, find_last_snoc. cbn [fold_left]. unfold store at 1.
  destruct (k =? key x); [reflexivity | exact IH].
Qed.

Lemma find_last_some {A} (p : A -> bool) l x :
  find_last p l = Some x -> In x l /\ p x = true.
Proof.
  unfold find_last. intros H. apply find_some in H. destruct H as (Hin & Hp).
  split; [now apply in_rev | exact Hp].
Qed.

Lemma find_last_none {A} (p : A -> bool) l :
  find_last p l = None <-> forall x, In x l -> p x = false.
Proof.
  unfold find_last. split.
  - intros H x Hin. apply (find_none _ _ H). now apply in_rev in Hin.
  - intros H. destruct (find p (rev l)) as [x |] eqn:E; [| reflexivity].
    apply find_some in E. destruct E as (Hin & Hp). apply in_rev in Hin.
    rewrite (H x Hin) in Hp. discriminate.
Qed.

Lemma keyed_map {V} (key : V -> Z) (l : list V) (k : Z) :
  let m := fold_left (fun m v => store m (key v) v) l make in
  m k = find_last (fun v => k =? key v) l /\
  (forall v, m k = Some v -> key v = k /\ In v l) /\
  (m k = None <-> forall v, In v l -> key v <> k) /\
  (forall pre v, l = pre ++ [v] -> m (key v) = Some v).
Proof.
  cbv zeta. assert (Hm : fold_left (fun m v => store m (key v) v) l make k =
                         find_last (fun v => k =? key v) l).
  { rewrite fold_store. now destruct (find_last _ l). }
  split; [exact Hm |]. split; [| split].
  - intros v Hv. rewrite Hm in Hv. apply find_last_some in Hv.
    destruct Hv as (Hin & Hk). apply Z.eqb_eq in Hk. now split.
  - rewrite Hm, find_last_none. split.
    + intros H v Hin Hk. specialize (H v Hin). apply Z.eqb_neq in H. congruence.
    + intros H v Hin. apply Z.eqb_neq. intros Hk. now apply (H v Hin).
  - intros pre v ->. rewrite fold_store, find_last_snoc, Z.eqb_refl. reflexivity.
Qed.

(** X23.  The maps built by GetAttesterDutiesMap and
    GetAttestationRewardsMap hold, under each validator index, the last
    entry of the response with that index; every entry found under a key
    carries that key and comes from the response, and a key is absent
    exactly when no entry of the response has it.  An error of the fetch is
    returned as it is, without a map. *)
Theorem maps_by_validator_index :
  (forall err, GetAttesterDutiesMap (Err err) = Err err) /\
  (forall err, GetAttestationRewardsMap (Err err) = Err err) /\
  (forall resp, exists duties,
     GetAttesterDutiesMap (Ok resp) = Ok duties /\
     forall k,
       duties k = find_last (fun d => k =? duty_ValidatorIndex d) (Data resp) /\
       (forall d, duties k = Some d -> duty_ValidatorIndex d = k /\ In d (Data resp)) /\
       (duties k = None <-> forall d, In d (Data resp) -> duty_ValidatorIndex d <> k)) /\
  (forall resp, exists rewards,
     GetAttestationRewardsMap (Ok resp) = Ok rewards /\
     forall k,
       rewards k = find_last (fun r => k =? ValidatorIndex r) (TotalRewards resp) /\
       (forall r, rewards k = Some r -> ValidatorIndex r = k /\ In r (TotalRewards resp)) /\
       (rewards k = None <->
        forall r, In r (TotalRewards resp) -> ValidatorIndex r <> k)).
Proof.
  split; [reflexivity |]. split; [reflexivity |]. split.
  - intros resp. eexists. split; [reflexivity |]. intros k.
    destruct (keyed_map duty_ValidatorIndex (Data resp) k) as (H1 & H2 & H3 & _).
    now repeat split; try apply H3; try apply H2.
  - intros resp. eexists. split; [reflexivity |]. intros k.
    destruct (keyed_map ValidatorIndex (TotalRewards resp) k) as (H1 & H2 & H3 & _).
    now repeat split; try apply H3; try apply H2.
Qed.

(** X24.  CalculateRewardSummary and the REWARDS job agree on every entry:
    the summary's total is the total the job stores, and IsPenalty is true
    exactly for the entries the job records a penalty for.  When head +
    source + target fits in an int64 the total is that sum and IsPenalty
    says that the sum is negative; when it does not fit the sum wraps, and
    an entry with no negative component can be a penalty. *)
Theorem reward_summary_agrees reward job :
  let s := CalculateRewardSummary reward in
  rs_TotalReward s = Monitor.totalReward reward /\
  rs_IsPenalty s = Monitor.is_penalised reward /\
  (rs_ValidatorIndex s, Monitor.Epoch job, rs_HeadReward s, rs_SourceReward s,
   rs_TargetReward s, rs_TotalReward s) = Monitor.expected_reward job reward /\
  (is_i64 (Head reward + Source reward + Target reward) ->
   rs_TotalReward s = Head reward + Source reward + Target reward /\
   (rs_IsPenalty s = true <-> Head reward + Source reward + Target reward < 0)) /\
  rs_IsPenalty (CalculateRewardSummary
                  (mkApiReward (ValidatorIndex reward) (2 ^ 62) 0 (2 ^ 62))) = true.
Proof.
  cbv zeta. split; [reflexivity |]. split; [reflexivity |]. split; [reflexivity |].
  split; [| reflexivity].
  intros Hfit. pose proof (MonitorFacts.totalReward_exact reward Hfit) as Hex.
  unfold Monitor.totalReward in Hex. cbn [CalculateRewardSummary rs_TotalReward rs_IsPenalty].
  rewrite Hex. split; [reflexivity | apply Z.ltb_lt].
Qed.

End MapFacts.

(** ** Initialising the scheduler and waiting for a slot *)

Module WaitFacts.
Import GoTime GoDuration SchedulerClock SchedulerWait.

(** X25.  Initialize keeps the genesis time of the node as a time with no
    nanoseconds, the given number of seconds after January 1, 1970, for
    every genesis time up to 2^62 - 62135596800 seconds; such a time meets
    what SlotTime and CurrentSlot need to be exact.  A failed GetGenesis
    is returned as it is. *)
Theorem Initialize_genesis_time :
  (forall e, Initialize (Err e) = Err e) /\
  (forall g, 0 <= g <= genesis_limit ->
     exists t, Initialize (Ok g) = Ok t /\
       ns_of t = (g + unixToInternal) * Second /\
       time_wf t /\ - 2 ^ 62 <= sec t <= 2 ^ 62 /\
       forall slot, 0 <= slot <= last_slot ->
         ns_of (SlotTime t slot) = (g + unixToInternal) * Second + slot * SlotDuration).
Proof.
  split; [reflexivity |].
  intros g Hg. unfold genesis_limit, unixToInternal in Hg.
  change (2 ^ 62) with 4611686018427387904 in Hg.
  eexists. split; [reflexivity |].
  assert (Hsec : sec (Unix (i64_of_u64 g)) = g + unixToInternal).
  { unfold Unix, i64_of_u64. cbn [sec].
    rewrite (wrap_i64_id g)
      by (unfold is_i64, min_i64, max_i64, two63;
          change (2 ^ 63) with 9223372036854775808; lia).
    apply wrap_i64_id. unfold is_i64, min_i64, max_i64, two63, unixToInternal.
    change (2 ^ 63) with 9223372036854775808. lia. }
  assert (Hns : ns_of (Unix (i64_of_u64 g)) = (g + unixToInternal) * Second).
  { unfold ns_of. rewrite Hsec. cbn [nsec Unix]. lia. }
  assert (Hwf : time_wf (Unix (i64_of_u64 g))).
  { unfold time_wf, Second. cbn. lia. }
  assert (Hrange : - 2 ^ 62 <= sec (Unix (i64_of_u64 g)) <= 2 ^ 62).
  { rewrite Hsec. unfold unixToInternal.
    change (2 ^ 62) with 4611686018427387904. lia. }
  split; [exact Hns |]. split; [exact Hwf |]. split; [exact Hrange |].
  intros slot Hslot. rewrite ClockFacts.SlotTime_exact by assumption. now rewrite Hns.
Qed.

Section WithClock.

Variable genesisTime : Time.
Variable intervalSlots : Z.
Variable now1 now2 : Time.
Variable fired : bool.

Hypothesis Hwf : time_wf genesisTime.
Hypothesis Hsec : - 2 ^ 62 <= sec genesisTime <= 2 ^ 62.
Hypothesis Hstarted : 0 <= ns_of now1 - ns_of genesisTime.
Hypothesis Hclock : ns_of now1 <= ns_of now2.
Hypothesis Hrange : ns_of now2 - ns_of genesisTime <= maxDuration.
Hypothesis Hinterval : 0 <= intervalSlots.
Hypothesis Htarget : CurrentSlot genesisTime now1 + intervalSlots <= last_slot.

(** X26.  While the clock is in range and does not go back between the
    two readings a wait takes, WaitForSlotInterval aims at the slot
    intervalSlots after the current one: the timer it sets, if any, ends at
    the very start of that slot and is not longer than intervalSlots slots;
    it sets none only when that slot has already started; it returns that
    slot with a nil error unless the context cut the timer short, in which
    case it returns slot 0 with the context's error.  With an interval of 0
    it returns the current slot at once.  WaitForNextSlot is the same wait
    with an interval of 1. *)
Theorem WaitForSlotInterval_target :
  let c := CurrentSlot genesisTime now1 in
  let w := WaitForSlotInterval genesisTime intervalSlots now1 now2 fired in
  let start := ns_of genesisTime + (c + intervalSlots) * SlotDuration in
  (err w = None -> slot w = c + intervalSlots) /\
  (forall d, timer w = Some d ->
     0 < d <= intervalSlots * SlotDuration /\ ns_of now2 + d = start) /\
  (timer w = None -> start <= ns_of now2 /\ err w = None) /\
  (err w <> None <-> timer w <> None /\ fired = false) /\
  (err w <> None -> slot w = 0) /\
  (intervalSlots = 0 -> timer w = None /\ slot w = c) /\
  WaitForNextSlot genesisTime now1 now2 fired =
    WaitForSlotInterval genesisTime 1 now1 now2 fired.
Proof.
  cbv zeta.
  destruct (ClockFacts.CurrentSlot_div genesisTime now1) as (Hc & Hb); [lia |].
  set (c := CurrentSlot genesisTime now1) in *.
  assert (Hls : last_slot = 768614336) by reflexivity.
  assert (Hsd : SlotDuration = 12000000000) by reflexivity.
  assert (Hmax : maxDuration = 9223372036854775807) by reflexivity.
  assert (Hmin : minDuration = -9223372036854775808) by reflexivity.
  pose proof (Z.div_mod (ns_of now1 - ns_of genesisTime) SlotDuration) as Hdm.
  pose proof (Z.mod_pos_bound (ns_of now1 - ns_of genesisTime) SlotDuration) as Hmb.
  rewrite <- Hc in Hb, Hdm.
  assert (Htgt : add_u64 c (wrap_u64 intervalSlots) = c + intervalSlots).
  { unfold add_u64. rewrite (wrap_u64_id intervalSlots)
      by (unfold is_u64, max_u64, two64; change (2 ^ 64) with 18446744073709551616; lia).
    apply wrap_u64_id. unfold is_u64, max_u64, two64.
    change (2 ^ 64) with 18446744073709551616. lia. }
  assert (Hst : ns_of (SlotTime genesisTime (c + intervalSlots)) =
                ns_of genesisTime + (c + intervalSlots) * SlotDuration).
  { apply ClockFacts.SlotTime_exact; [exact Hwf | exact Hsec | lia]. }
  assert (Hun : Until (SlotTime genesisTime (c + intervalSlots)) now2 =
                ns_of genesisTime + (c + intervalSlots) * SlotDuration - ns_of now2).
  { unfold Until, Sub. rewrite Hst.
    replace (_ >? maxDuration) with false
      by (symmetry; rewrite Z.gtb_ltb; apply Z.ltb_ge; lia).
    replace (_ <? minDuration) with false by (symmetry; apply Z.ltb_ge; lia).
    reflexivity. }
  split; [| split; [| split; [| split; [| split; [| split]]]]].
  all: try (unfold WaitForSlotInterval; fold c; rewrite Htgt, Hun).
  - destruct (_ >? 0); [destruct fired |]; cbn [err slot]; congruence.
  - intros d. destruct (_ >? 0) eqn:E; [| destruct fired; discriminate].
    rewrite Z.gtb_ltb in E. apply Z.ltb_lt in E.
    destruct fired; cbn [timer]; intros H; injection H as <-; lia.
  - destruct (_ >? 0) eqn:E; [destruct fired; discriminate |].
    rewrite Z.gtb_ltb in E. apply Z.ltb_ge in E. cbn [err]. intros _. split; [lia | reflexivity].
  - destruct (_ >? 0); [destruct fired |]; cbn [err timer];
      split; try congruence; try (intros (H1 & H2); congruence);
      try (intros _; split; congruence).
  - destruct (_ >? 0); [destruct fired |]; cbn [err slot]; congruence.
  - intros ->. replace (_ >? 0) with false
      by (symmetry; rewrite Z.gtb_ltb; apply Z.ltb_ge; lia).
    cbn [timer slot]. split; [reflexivity | lia].
  - reflexivity.
Qed.

End WithClock.

End WaitFacts.

(** ** Refused writes are logged *)

Module LoggingFacts.
Import GoTime Storage Monitor WriteFailures.

Section WithEnv.

Variable env : Env.
Variable api : Api.
Variable validators : list Z.

Lemma refusals_app from n m :
  refusals env from (n + m) =
  (refusals env from n + refusals env (from + n) m)%nat.
Proof.
  unfold refusals. rewrite seq_app, filter_app, length_app. reflexivity.
Qed.

Lemma accounted_refl w : accounted env w w.
Proof. exists []. rewrite app_nil_r. cbn. split; [reflexivity | lia]. Qed.

Lemma accounted_trans w1 w2 w3 :
  accounted env w1 w2 -> accounted env w2 w3 -> accounted env w1 w3.
Proof.
  intros (s1 & Hi1 & Hl1) (s2 & Hi2 & Hl2). exists (s1 ++ s2).
  split; [rewrite Hi2, Hi1; now rewrite app_assoc |].
  rewrite Hl2, Hl1, Hi1, !length_app, refusals_app. lia.
Qed.

Lemma quiet_accounted {A} (m : M A) w : quiet m -> accounted env w (snd (m w)).
Proof.
  intros H. destruct (H w) as (Hi & Hl). exists [].
  rewrite app_nil_r. cbn. split; [exact Hi | lia].
Qed.

Lemma quiet_ret {A} (a : A) : quiet (ret a).
Proof. intros w. now split. Qed.

Lemma quiet_Now : quiet (Now env).
Proof. intros w. now split. Qed.

Lemma quiet_bind {A B} (m : M A) (k : A -> M B) :
  quiet m -> (forall a, quiet (k a)) -> quiet (bind m k).
Proof.
  intros Hm Hk w. unfold bind. specialize (Hm w). destruct (m w) as [a w1].
  cbn [snd] in Hm. destruct (Hk a w1) as (Hi & Hl). destruct Hm as (Hi1 & Hl1).
  split; congruence.
Qed.

Lemma quiet_fill_timestamp ts : quiet (fill_timestamp env ts).
Proof.
  unfold fill_timestamp. destruct (IsZero ts); [| apply quiet_ret].
  apply quiet_bind; [apply quiet_Now | intros t; apply quiet_ret].
Qed.

Lemma quiet_mapM {A B} (f : A -> M B) l : (forall a, quiet (f a)) -> quiet (mapM f l).
Proof.
  intros Hf. induction l as [| a l IH]; [apply quiet_ret |].
  cbn [mapM]. apply quiet_bind; [apply Hf |].
  intros b. apply quiet_bind; [exact IH | intros bs; apply quiet_ret].
Qed.

Lemma accounted_bind {A B} (m : M A) (k : A -> M B) w :
  accounted env w (snd (m w)) ->
  (forall a w1, accounted env w1 (snd (k a w1))) ->
  accounted env w (snd (bind m k w)).
Proof.
  intros Hm Hk. unfold bind. destruct (m w) as [a w1]. cbn [snd] in Hm.
  eapply accounted_trans; [exact Hm | apply Hk].
Qed.

Lemma accounted_mapM {A B} (f : A -> M B) l :
  (forall a w, accounted env w (snd (f a w))) ->
  forall w, accounted env w (snd (mapM f l w)).
Proof.
  intros Hf. induction l as [| a l IH]; intros w; [apply accounted_refl |].
  cbn [mapM]. apply accounted_bind; [apply Hf |].
  intros b w1. apply accounted_bind; [apply IH |].
  intros bs w2. apply accounted_refl.
Qed.

(** A write followed by the check of its error: one statement more, and
    one line more exactly when the session refused it. *)
Lemma write_then_log {T A B} (prep : M T) (stmt : T -> Stmt) (row : T -> A)
    (msg : string) (k : A * option error -> M B) w :
  quiet prep ->
  (forall saved w1, accounted env w1 (snd (k saved w1))) ->
  accounted env w
    (snd ((saved <- (t <- prep ;;
                     err <- Exec env (stmt t) ;;
                     ret (row t, wrap_error msg err)) ;;
           log_if_error (snd saved) ;;;
           k saved) w)).
Proof.
  intros Hprep Hk. unfold bind at 1. unfold bind at 1.
  destruct (Hprep w) as (Hi & Hl). destruct (prep w) as [t w1]. cbn [snd] in Hi, Hl.
  unfold bind at 1. unfold Exec at 1. unfold ret at 1. cbn [snd].
  unfold bind at 1.
  set (w2 := mkWorld (clock_reads w1) (issued w1 ++ [stmt t]) (logged_errors w1)).
  assert (Hlog : accounted env w (snd (log_if_error
                   (wrap_error msg (exec_result env (List.length (issued w1)))) w2))).
  { exists [stmt t]. unfold refusals, refused. cbn [List.length seq filter].
    rewrite Hi. destruct (exec_result env (List.length (issued w))) as [e |];
      cbn [wrap_error log_if_error LogError ret snd issued logged_errors w2 List.length];
      (split; [now rewrite Hi | lia]). }
  destruct (log_if_error (wrap_error msg (exec_result env (List.length (issued w1)))) w2)
    as [u w3]. cbn [snd] in Hlog.
  eapply accounted_trans; [exact Hlog | apply Hk].
Qed.

Lemma processStatusJob_accounted job w :
  accounted env w (snd (processStatusJob env api job w)).
Proof.
  unfold processStatusJob.
  destruct (GetValidator api "head" (ValidatorIndex job)); [| apply accounted_refl].
  apply accounted_bind; [apply quiet_accounted, quiet_Now |].
  intros now w1. unfold SaveValidatorSnapshot.
  apply (write_then_log
           (fill_timestamp env (ToUTC now))
           (fun ts => Query (snapshot_insert
                               (mkSnapshot (ValidatorIndex job) (Slot job) (BeaconAPI.Status a)
                                  (BeaconAPI.Balance a)
                                  (BeaconAPI.EffectiveBalance (BeaconAPI.Validator_ a)) ts)))
           (fun ts => mkSnapshot (ValidatorIndex job) (Slot job) (BeaconAPI.Status a)
                        (BeaconAPI.Balance a)
                        (BeaconAPI.EffectiveBalance (BeaconAPI.Validator_ a)) ts)
           "failed to save validator snapshot"
           (fun saved => ret (Some (fst saved), None))).
  - apply quiet_fill_timestamp.
  - intros saved w2. apply accounted_refl.
Qed.

Lemma processDutiesJob_accounted job w :
  accounted env w (snd (processDutiesJob env api validators job w)).
Proof.
  unfold processDutiesJob.
  destruct (GetAttesterDuties api (Epoch job) validators); [| apply accounted_refl].
  apply accounted_bind.
  { apply quiet_accounted, quiet_mapM. intros d.
    apply quiet_bind; [apply quiet_Now | intros t; apply quiet_ret]. }
  intros duties w1. unfold SaveAttestationDuties.
  apply (write_then_log
           (mapM (fun duty =>
                    ts <- fill_timestamp env (ad_Timestamp duty) ;;
                    ret (mkDuty (ad_ValidatorIndex duty) (ad_Epoch duty) (ad_Slot duty)
                           (ad_CommitteeIndex duty) (ad_CommitteePosition duty) ts))
                 duties)
           (fun ds => Batch (map duty_insert ds))
           (fun ds => ds)
           "failed to save attestation duties batch"
           (fun saved => ret (Some (fst saved), None))).
  - apply quiet_mapM. intros d.
    apply quiet_bind; [apply quiet_fill_timestamp | intros t; apply quiet_ret].
  - intros saved w2. apply accounted_refl.
Qed.

Lemma quiet_collect_rewards job entries : quiet (collect_rewards env job entries).
Proof.
  induction entries as [| r rest IH]; [apply quiet_ret |].
  cbn [collect_rewards]. apply quiet_bind; [apply quiet_Now |].
  intros now. apply quiet_bind.
  - destruct (totalReward r <? 0); [| apply quiet_ret].
    apply quiet_bind; [apply quiet_Now | intros t; apply quiet_ret].
  - intros penalty. apply quiet_bind; [exact IH | intros tail; apply quiet_ret].
Qed.

Lemma processRewardsJob_accounted job w :
  accounted env w (snd (processRewardsJob env api validators job w)).
Proof.
  unfold processRewardsJob.
  destruct (GetAttestationRewards api (Epoch job) validators); [| apply accounted_refl].
  apply accounted_bind; [apply quiet_accounted, quiet_collect_rewards |].
  intros collected w1. unfold SaveAttestationRewards.
  apply (write_then_log
           (mapM (fun reward =>
                    ts <- fill_timestamp env (ar_Timestamp reward) ;;
                    ret (mkReward (ar_ValidatorIndex reward) (ar_Epoch reward)
                           (ar_HeadReward reward) (ar_SourceReward reward)
                           (ar_TargetReward reward) (ar_TotalReward reward) ts))
                 (fst collected))
           (fun rs => Batch (map reward_insert rs))
           (fun rs => rs)
           "failed to save attestation rewards batch"
           (fun saved =>
              mapM (fun penalty =>
                      saved <- SaveValidatorPenalty env penalty ;;
                      log_if_error (snd saved))
                   (snd collected) ;;;
              ret (Some (fst saved), None))).
  - apply quiet_mapM. intros d.
    apply quiet_bind; [apply quiet_fill_timestamp | intros t; apply quiet_ret].
  - intros saved w2. apply accounted_bind; [| intros u w3; apply accounted_refl].
    apply accounted_mapM. intros penalty w3. unfold SaveValidatorPenalty.
    pose proof (write_then_log
           (fill_timestamp env (vp_Timestamp penalty))
           (fun ts => Query (penalty_insert
                               (mkPenalty (vp_ValidatorIndex penalty) (vp_Epoch penalty)
                                  (vp_Slot penalty) (vp_PenaltyType penalty)
                                  (vp_PenaltyGwei penalty) ts)))
           (fun ts => mkPenalty (vp_ValidatorIndex penalty) (vp_Epoch penalty)
                        (vp_Slot penalty) (vp_PenaltyType penalty)
                        (vp_PenaltyGwei penalty) ts)
           "failed to save validator penalty"
           (fun _ => ret tt) w3 (quiet_fill_timestamp _)
           (fun saved w4 => accounted_refl w4)) as H.
    destruct H as (stmts & Hi & Hl). exists stmts.
    revert Hi Hl. unfold bind, Exec, ret, log_if_error, LogError, wrap_error.
    destruct (fill_timestamp env (vp_Timestamp penalty) w3) as [ts w4].
    destruct (exec_result env (List.length (issued w4))); cbn [snd fst]; auto.
Qed.

(** X27.  Whatever a job does, it only adds statements to what the session
    was handed, and it writes exactly one error line for each execution
    the session refused: no refused write goes unlogged, and nothing else
    is logged as an error.  This holds for every job type and every answer
    of the node and of the session. *)
Theorem write_failures_are_logged job w :
  exists stmts,
    issued (snd (Process env api validators job w)) = issued w ++ stmts /\
    logged_errors (snd (Process env api validators job w)) =
      (logged_errors w + refusals env (List.length (issued w)) (List.length stmts))%nat.
Proof.
  change (accounted env w (snd (Process env api validators job w))).
  unfold Process. destruct (Type_ job).
  - apply accounted_bind; [apply processStatusJob_accounted |].
    intros r w1. apply accounted_refl.
  - apply accounted_bind; [apply processDutiesJob_accounted |].
    intros r w1. apply accounted_refl.
  - apply accounted_bind; [apply processRewardsJob_accounted |].
    intros r w1. apply accounted_refl.
  - apply accounted_refl.
Qed.

End WithEnv.

End LoggingFacts.

(** ** The requests of the duty and reward fetches *)

Module PostFacts.
Import BeaconTypes BeaconClient BeaconAPI BeaconPosts.

Lemma append_inv_head (p a b : string) : (p ++ a = p ++ b)%string -> a = b.
Proof.
  induction p as [| c p IH]; cbn; [auto |].
  intros H. injection H as H. auto.
Qed.

Lemma encode_uint_inj a b : is_u64 a -> is_u64 b -> encode_uint a = encode_uint b -> a = b.
Proof.
  intros Ha Hb H.
  destruct (DecoderFacts.encode_uint_spec a Ha) as (_ & _ & <-).
  destruct (DecoderFacts.encode_uint_spec b Hb) as (_ & _ & <-).
  now rewrite H.
Qed.

Lemma request_indices_read_back l :
  Forall is_u64 l ->
  map Uint64Str_UnmarshalJSON (map quoted (request_indices l)) = map Ok l.
Proof.
  unfold request_indices. induction 1 as [| n l Hn _ IH]; [reflexivity |].
  cbn [map]. rewrite IH. f_equal.
  destruct (DecoderFacts.encode_uint_spec n Hn) as (Hne & Hd & Hv).
  destruct (DecoderFacts.Uint64Str_digits (encode_uint n) Hne Hd) as (_ & H).
  - now rewrite Hv.
  - now rewrite H, Hv.
Qed.

Lemma post_shape {A} (decode : string -> result A) net :
  let r := doRequestWithBody A decode net in
  (reply_trace r = [ELimiter] \/ reply_trace r = [ELimiter; EDo 0]) /\
  (reply_error r = None ->
   exists body v, http_do (net 0) = HttpResponse StatusOK body /\
                  decode body = Ok v /\ reply_value r = Some v /\
                  reply_trace r = [ELimiter; EDo 0]).
Proof.
  cbv zeta. unfold doRequestWithBody.
  destruct (limiter_wait (net 0)); [split; [now left | discriminate] |].
  destruct (new_request (net 0)); [split; [now left | discriminate] |].
  destruct (http_do (net 0)) as [e | st body]; [split; [now right | discriminate] |].
  destruct (st =? StatusOK) eqn:Hok; cbn [negb]; [| split; [now right | discriminate]].
  apply Z.eqb_eq in Hok. subst st.
  destruct (decode body) as [v | e] eqn:Hdec; [| split; [now right | discriminate]].
  split; [now right |]. intros _. now exists body, v.
Qed.

(** X28.  GetAttesterDuties and GetAttestationRewards send the validator
    indices as decimal strings, one per index and in order, which the
    integer decoder of this client reads back as the same indices; the
    epoch is part of the path, and different epochs give different paths.
    Each call makes at most one HTTP attempt and never waits on a backoff;
    it returns a response only if that attempt was answered with status 200
    and the body decoded, and then returns what was decoded; every error is
    returned wrapped. *)
Theorem duty_and_reward_requests net :
  (forall indices,
     Forall is_u64 indices ->
     List.length (request_indices indices) = List.length indices /\
     map Uint64Str_UnmarshalJSON (map quoted (request_indices indices)) =
       map Ok indices) /\
  (forall e1 e2, is_u64 e1 -> is_u64 e2 ->
     (duties_path e1 = duties_path e2 -> e1 = e2) /\
     (rewards_path e1 = rewards_path e2 -> e1 = e2)) /\
  (forall decode epoch indices,
     let p := GetAttesterDuties net decode epoch indices in
     path p = duties_path epoch /\ body p = request_indices indices /\
     (calls p = [ELimiter] \/ calls p = [ELimiter; EDo 0]) /\
     (forall resp, answer p = Ok resp ->
        exists text, http_do (net 0) = HttpResponse StatusOK text /\
                     decode text = Ok resp) /\
     (forall err, answer p = Err err -> exists msg cause, err = Wrapped msg cause)) /\
  (forall decode epoch indices,
     let p := GetAttestationRewards net decode epoch indices in
     path p = rewards_path epoch /\ body p = request_indices indices /\
     (calls p = [ELimiter] \/ calls p = [ELimiter; EDo 0]) /\
     (forall data, answer p = Ok data ->
        exists text, http_do (net 0) = HttpResponse StatusOK text /\
                     decode text = Ok data) /\
     (forall err, answer p = Err err -> exists msg cause, err = Wrapped msg cause)).
Proof.
  split; [| split; [| split]].
  - intros indices Hall. split; [apply length_map | now apply request_indices_read_back].
  - intros e1 e2 H1 H2. unfold duties_path, rewards_path.
    split; intros H; apply append_inv_head in H; now apply encode_uint_inj.
  - intros decode epoch indices. cbv zeta. unfold GetAttesterDuties.
    cbn [path body calls answer].
    destruct (post_shape decode net) as (Htr & Hok). cbv zeta in Htr, Hok.
    split; [reflexivity |]. split; [reflexivity |]. split; [exact Htr |].
    destruct (reply_error (doRequestWithBody AttesterDutiesResponse decode net)) as [e |].
    + split; [discriminate |]. intros err H. injection H as <-. now eexists _, _.
    + destruct (Hok eq_refl) as (text & v & Hdo & Hdec & -> & _).
      split; [| discriminate]. intros resp H. injection H as <-. now exists text.
  - intros decode epoch indices. cbv zeta. unfold GetAttestationRewards.
    cbn [path body calls answer].
    destruct (post_shape decode net) as (Htr & Hok). cbv zeta in Htr, Hok.
    split; [reflexivity |]. split; [reflexivity |]. split; [exact Htr |].
    destruct (reply_error (doRequestWithBody AttestationRewardsData decode net)) as [e |].
    + split; [discriminate |]. intros err H. injection H as <-. now eexists _, _.
    + destruct (Hok eq_refl) as (text & v & Hdo & Hdec & -> & _).
      split; [| discriminate]. intros resp H. injection H as <-. now exists text.
Qed.

End PostFacts.

(** ** Finalized epochs over a run of ticks *)

Module CatchupFacts.
Import Scheduler Catchup.

Lemma NextEvents_lastFinal_pending fuel s slot cps events err s' :
  NextEvents fuel s slot cps = Some (events, err, s') ->
  lastFinalEpoch s' =
    match pending_finalized s cps with
    | Some F => F
    | None => lastFinalEpoch s
    end.
Proof.
  rewrite SchedulerFacts.NextEvents_unfold. cbv zeta.
  destruct (SchedulerFacts.after_boundary_fields s slot) as (Hv & Hl & He).
  unfold pending_finalized.
  destruct cps as [c | e0].
  - rewrite Hl. destruct (cp_Epoch (Finalized c) >? lastFinalEpoch s) eqn:Hgt.
    + destruct (finalized_loop _ _ _ _ _ _); [| discriminate].
      intros H. injection H as <- <- <-. reflexivity.
    + intros H. injection H as <- <- <-. exact Hl.
  - intros H. injection H as <- <- <-. exact Hl.
Qed.

Lemma map_seq_shift (f g : nat -> Z) m :
  forall k1 k2,
    (forall i, f (k1 + i)%nat = g (k2 + i)%nat) ->
    map f (seq k1 m) = map g (seq k2 m).
Proof.
  induction m as [| m IH]; intros k1 k2 H; [reflexivity |].
  cbn [seq map]. f_equal.
  - specialize (H O). now rewrite !Nat.add_0_r in H.
  - apply IH. intros i. specialize (H (S i)).
    now rewrite !Nat.add_succ_r in H.
Qed.

Lemma epochs_between_app a b c :
  a <= b -> b <= c ->
  epochs_between a b ++ epochs_between b c = epochs_between a c.
Proof.
  intros Hab Hbc. unfold epochs_between, epochs_from.
  replace (Z.to_nat (c - a)) with (Z.to_nat (b - a) + Z.to_nat (c - b))%nat by lia.
  rewrite seq_app, map_app. f_equal.
  apply map_seq_shift. intros i. lia.
Qed.

Lemma epochs_between_nil a : epochs_between a a = [].
Proof. unfold epochs_between. now rewrite Z.sub_diag. Qed.

Lemma epochs_between_range a b e : In e (epochs_between a b) <-> a < e <= b.
Proof.
  unfold epochs_between, epochs_from. rewrite in_map_iff. split.
  - intros (i & <- & Hi). apply in_seq in Hi. lia.
  - intros H. exists (Z.to_nat (e - a - 1)). split; [lia |]. apply in_seq. lia.
Qed.

Lemma NoDup_map_injective {A B} (f : A -> B) l :
  (forall x y, f x = f y -> x = y) -> NoDup l -> NoDup (map f l).
Proof.
  intros Hinj. induction 1 as [| x l Hx Hl IH]; cbn [map]; constructor; [| exact IH].
  intros Hin. apply in_map_iff in Hin. destruct Hin as (y & Hy & Hin).
  apply Hinj in Hy. now subst y.
Qed.

Lemma epochs_between_NoDup a b : NoDup (epochs_between a b).
Proof.
  unfold epochs_between, epochs_from.
  apply NoDup_map_injective; [| apply seq_NoDup].
  intros i j H. lia.
Qed.

Lemma finalized_of_tick s slot epochs :
  map Epoch (filter is_finalized_event
               (slot_poll_event s slot :: boundary_events s slot ++
                map (finalized_event s slot) epochs)) = epochs.
Proof.
  cbn [filter is_finalized_event slot_poll_event Type_].
  rewrite filter_app.
  replace (filter is_finalized_event (boundary_events s slot)) with (@nil ScheduleEvent)
    by (unfold boundary_events; now destruct (boundary_due s slot)).
  cbn [app]. induction epochs as [| e epochs IH]; [reflexivity |].
  cbn [map filter is_finalized_event finalized_event Type_ Epoch]. now rewrite IH.
Qed.

(** X29.  Over any run of ticks that return, whatever the slots and
    whatever the node answers to the finality lookups (errors, repeated or
    decreasing finalized epochs included), the EPOCH_FINALIZED events
    emitted are exactly one per epoch from the one after the scheduler's
    first lastFinalEpoch up to its last, in ascending order: no epoch is
    reported twice and none in between is left out. *)
Theorem finalized_epochs_exactly_once :
  forall ticks fuel s evs s',
    is_u64 (lastFinalEpoch s) ->
    Forall (fun tick => checkpoints_wf (snd tick)) ticks ->
    run_ticks fuel s ticks = Some (evs, s') ->
    finalized_epochs evs = epochs_between (lastFinalEpoch s) (lastFinalEpoch s') /\
    NoDup (finalized_epochs evs) /\
    (forall e, In e (finalized_epochs evs) <->
               lastFinalEpoch s < e <= lastFinalEpoch s') /\
    is_u64 (lastFinalEpoch s').
Proof.
  assert (Hmain : forall ticks fuel s evs s',
    is_u64 (lastFinalEpoch s) ->
    Forall (fun tick => checkpoints_wf (snd tick)) ticks ->
    run_ticks fuel s ticks = Some (evs, s') ->
    finalized_epochs evs = epochs_between (lastFinalEpoch s) (lastFinalEpoch s') /\
    lastFinalEpoch s <= lastFinalEpoch s' /\ is_u64 (lastFinalEpoch s')).
  { induction ticks as [| [slot cps] rest IH]; intros fuel s evs s' Hlast Hwf Hrun;
      cbn [run_ticks] in Hrun.
    - injection Hrun as <- <-. rewrite epochs_between_nil.
      split; [reflexivity |]. split; [lia | exact Hlast].
    - destruct (NextEvents fuel s slot cps) as [[[events err] s1] |] eqn:Hn; [| discriminate].
      destruct (run_ticks fuel s1 rest) as [[evs1 s2] |] eqn:Hr; [| discriminate].
      injection Hrun as <- <-.
      inversion Hwf as [| t ts Hcps Hrest]; subst. cbn [snd] in Hcps.
      pose proof (TickFacts.NextEvents_events _ _ _ _ _ _ _ Hlast Hcps Hn) as Hev.
      pose proof (NextEvents_lastFinal_pending _ _ _ _ _ _ _ Hn) as Hl1.
      assert (H1 : lastFinalEpoch s <= lastFinalEpoch s1 /\ is_u64 (lastFinalEpoch s1) /\
                   match pending_finalized s cps with
                   | Some F => epochs_between (lastFinalEpoch s) F
                   | None => []
                   end = epochs_between (lastFinalEpoch s) (lastFinalEpoch s1)).
      { rewrite Hl1. unfold pending_finalized, checkpoints_wf in *.
        destruct cps as [c | e0].
        - destruct (cp_Epoch (Finalized c) >? lastFinalEpoch s) eqn:Hgt.
          + apply Z.gtb_lt in Hgt. split; [lia |]. now split.
          + split; [lia |]. split; [exact Hlast |]. now rewrite epochs_between_nil.
        - split; [lia |]. split; [exact Hlast |]. now rewrite epochs_between_nil. }
      destruct H1 as (Hle1 & Hu1 & Heps).
      destruct (IH fuel s1 evs1 s2 Hu1 Hrest Hr) as (IH1 & IH2 & IH3).
      split; [| split; [lia | exact IH3]].
      unfold finalized_epochs in *. cbn [List.concat]. rewrite filter_app, map_app, IH1.
      rewrite Hev, finalized_of_tick, Heps.
      apply epochs_between_app; assumption. }
  intros ticks fuel s evs s' Hlast Hwf Hrun.
  destruct (Hmain ticks fuel s evs s' Hlast Hwf Hrun) as (H1 & H2 & H3).
  split; [exact H1 |]. rewrite H1.
  split; [apply epochs_between_NoDup |]. split; [apply epochs_between_range | exact H3].
Qed.

Lemma NextEvents_lastEpoch fuel s slot cps events err s' :
  NextEvents fuel s slot cps = Some (events, err, s') ->
  lastEpoch s' = (if boundary_due s slot then slot / SlotsPerEpoch else lastEpoch s).
Proof.
  rewrite SchedulerFacts.NextEvents_unfold. cbv zeta.
  destruct (SchedulerFacts.after_boundary_fields s slot) as (Hv & Hl & He).
  destruct cps as [c | e0].
  - destruct (cp_Epoch (Finalized c) >? lastFinalEpoch (after_boundary s slot)).
    + destruct (finalized_loop _ _ _ _ _ _); [| discriminate].
      intros H. injection H as <- <- <-. exact He.
    + intros H. injection H as <- <- <-. exact He.
  - intros H. injection H as <- <- <-. exact He.
Qed.

Lemma boundary_of_tick s slot epochs :
  is_u64 slot ->
  map Epoch (filter is_boundary_event
               (slot_poll_event s slot :: boundary_events s slot ++
                map (finalized_event s slot) epochs)) =
  if boundary_due s slot then [slot / SlotsPerEpoch + 1] else [].
Proof.
  intros Hslot. cbn [filter is_boundary_event slot_poll_event Type_].
  rewrite filter_app.
  replace (filter is_boundary_event (map (finalized_event s slot) epochs))
    with (@nil ScheduleEvent)
    by (induction epochs as [| e epochs IH]; [reflexivity | exact IH]).
  rewrite app_nil_r. unfold boundary_events.
  destruct (boundary_due s slot); [| reflexivity].
  cbn [filter is_boundary_event boundary_event Type_ map Epoch]. f_equal.
  unfold add_u64. apply wrap_u64_id.
  unfold is_u64, max_u64, two64, SlotsPerEpoch in *.
  change (2 ^ 64) with 18446744073709551616 in *.
  assert (0 <= slot / 32) by (apply Z.div_pos; lia).
  assert (slot / 32 <= 576460752303423488) by (apply Z.div_le_upper_bound; lia).
  lia.
Qed.

Lemma nondecreasing_weaken l : forall a b, b <= a -> nondecreasing a l -> nondecreasing b l.
Proof. destruct l as [| x l]; cbn; [auto |]. intros a b Hab (H1 & H2). split; [lia | exact H2]. Qed.

(** X30.  Over a run of ticks at slots that never go back, starting at or
    after the first slot of the scheduler's lastEpoch, the epochs of the
    EPOCH_BOUNDARY events emitted are strictly increasing: the duties of an
    epoch are asked for at most once, also when a slot is visited twice.
    A new scheduler, whose lastEpoch is 0, emits no EPOCH_BOUNDARY event
    during epoch 0, not even at slot 0. *)
Theorem boundary_epochs_increase :
  forall ticks fuel s evs s',
    is_u64 (lastFinalEpoch s) ->
    Forall (fun tick => is_u64 (fst tick) /\ checkpoints_wf (snd tick)) ticks ->
    nondecreasing (SlotsPerEpoch * lastEpoch s) (map fst ticks) ->
    run_ticks fuel s ticks = Some (evs, s') ->
    increasing (lastEpoch s + 1) (boundary_epochs evs) /\
    (lastEpoch s = 0 ->
     Forall (fun tick => fst tick < SlotsPerEpoch) ticks -> boundary_epochs evs = []).
Proof.
  assert (Hmain : forall ticks fuel s evs s',
    is_u64 (lastFinalEpoch s) ->
    Forall (fun tick => is_u64 (fst tick) /\ checkpoints_wf (snd tick)) ticks ->
    nondecreasing (SlotsPerEpoch * lastEpoch s) (map fst ticks) ->
    run_ticks fuel s ticks = Some (evs, s') ->
    increasing (lastEpoch s + 1) (boundary_epochs evs) /\
    (Forall (fun tick => fst tick / SlotsPerEpoch = lastEpoch s) ticks ->
     boundary_epochs evs = [])).
  { induction ticks as [| [slot cps] rest IH]; intros fuel s evs s' Hlast Hwf Hsorted Hrun;
      cbn [run_ticks] in Hrun.
    - injection Hrun as <- <-. cbn. now split.
    - destruct (NextEvents fuel s slot cps) as [[[events err] s1] |] eqn:Hn; [| discriminate].
      destruct (run_ticks fuel s1 rest) as [[evs1 s2] |] eqn:Hr; [| discriminate].
      injection Hrun as <- <-.
      inversion Hwf as [| t ts (Hslot & Hcps) Hrest]; subst. cbn [fst snd] in Hslot, Hcps.
      cbn [map fst nondecreasing] in Hsorted. destruct Hsorted as (Hfrom & Hsorted).
      pose proof (TickFacts.NextEvents_events _ _ _ _ _ _ _ Hlast Hcps Hn) as Hev.
      pose proof (NextEvents_lastFinal_pending _ _ _ _ _ _ _ Hn) as Hl1.
      pose proof (NextEvents_lastEpoch _ _ _ _ _ _ _ Hn) as He1.
      assert (Hu1 : is_u64 (lastFinalEpoch s1)).
      { rewrite Hl1. unfold pending_finalized, checkpoints_wf in *.
        destruct cps as [c | e0]; [| exact Hlast].
        destruct (cp_Epoch (Finalized c) >? lastFinalEpoch s); assumption. }
      assert (Hepoch : lastEpoch s <= slot / SlotsPerEpoch).
      { unfold SlotsPerEpoch in *. apply Z.div_le_lower_bound; lia. }
      assert (Hsorted1 : nondecreasing (SlotsPerEpoch * lastEpoch s1) (map fst rest)).
      { apply nondecreasing_weaken with (a := slot); [| exact Hsorted].
        rewrite He1. unfold SlotsPerEpoch in *.
        destruct (boundary_due s slot).
        - pose proof (Z.mul_div_le slot 32). lia.
        - lia. }
      destruct (IH fuel s1 evs1 s2 Hu1 Hrest Hsorted1 Hr) as (IH1 & IH2).
      unfold boundary_epochs in *. cbn [List.concat]. rewrite filter_app, map_app.
      rewrite Hev, boundary_of_tick by exact Hslot.
      rewrite He1 in IH1, IH2.
      destruct (boundary_due s slot) eqn:Hdue.
      + cbn [app increasing]. split.
        * split; [| exact IH1].
          unfold boundary_due in Hdue. apply andb_true_iff in Hdue.
          destruct Hdue as (_ & Hne). apply negb_true_iff, Z.eqb_neq in Hne. lia.
        * intros Hall. inversion Hall as [| t ts Hhere _]; subst. cbn [fst] in Hhere.
          unfold boundary_due in Hdue. apply andb_true_iff in Hdue.
          destruct Hdue as (_ & Hne). apply negb_true_iff, Z.eqb_neq in Hne. contradiction.
      + cbn [app]. split; [exact IH1 |].
        intros Hall. inversion Hall as [| t ts _ Hothers]; subst. now apply IH2. }
  intros ticks fuel s evs s' Hlast Hwf Hsorted Hrun.
  destruct (Hmain ticks fuel s evs s' Hlast Hwf Hsorted Hrun) as (H1 & H2).
  split; [exact H1 |]. intros H0 Hepoch0. apply H2.
  rewrite H0. clear - Hwf Hepoch0.
  induction ticks as [| [slot cps] rest IH]; [constructor |].
  inversion Hwf as [| t ts (Hslot & _) Hrest]; subst.
  inversion Hepoch0 as [| t ts Hlt Hlts]; subst. cbn [fst] in *.
  constructor; [| now apply IH].
  cbn [fst]. unfold SlotsPerEpoch, is_u64 in *. apply Z.div_small. lia.
Qed.

End CatchupFacts.

(** ** The properties above at concrete inputs *)

Module ExampleFacts.
Import GoTime Examples.

(** Epoch 3 and slot 100. *)
Lemma epoch_3_and_slot_100 :
  (0 <= 3 < Slots.epoch_limit) /\ is_u64 100 /\
  Slots.EpochStartSlot 3 = 32 * 3 /\
  Slots.EpochEndSlot 3 = 32 * 3 + 31 /\
  Slots.SlotToEpoch (Slots.EpochStartSlot 3) = 3 /\
  Slots.SlotToEpoch (Slots.EpochEndSlot 3) = 3 /\
  Slots.IsEpochBoundary (Slots.EpochStartSlot 3) = true /\
  Slots.IsEpochBoundary (Slots.EpochEndSlot 3) = false /\
  0 <= Slots.SlotToEpoch 100 < Slots.epoch_limit /\
  Slots.EpochStartSlot (Slots.SlotToEpoch 100) <= 100
    <= Slots.EpochEndSlot (Slots.SlotToEpoch 100) /\
  (Slots.IsEpochBoundary 100 = true <->
   100 = Slots.EpochStartSlot (Slots.SlotToEpoch 100)).
Proof.
  assert (H3 : 0 <= 3 < Slots.epoch_limit) by (unfold Slots.epoch_limit; lia).
  assert (H100 : is_u64 100) by (unfold is_u64, max_u64, two64; lia).
  split; [exact H3 |]. split; [exact H100 |].
  exact (SlotFacts.slots_and_epochs 3 100 H3 H100).
Defined.

(** Epoch 2^59 + 5 starts, in uint64, at slot 160, as epoch 5 does. *)
Lemma epoch_past_the_limit_wraps :
  is_u64 (2 ^ 59 + 5) /\
  Slots.EpochStartSlot (2 ^ 59 + 5) = 32 * ((2 ^ 59 + 5) mod Slots.epoch_limit) /\
  Slots.SlotToEpoch (Slots.EpochStartSlot (2 ^ 59 + 5)) =
    (2 ^ 59 + 5) mod Slots.epoch_limit /\
  Slots.IsEpochBoundary (Slots.EpochStartSlot (2 ^ 59 + 5)) = true.
Proof.
  assert (H : is_u64 (2 ^ 59 + 5)) by (unfold is_u64, max_u64, two64; lia).
  split; [exact H |].
  exact (SlotFacts.EpochStartSlot_wraps (2 ^ 59 + 5) H).
Defined.

(** 125 s and 5 ns after genesis is slot 10. *)
Lemma current_slot_after_125_seconds :
  SchedulerClock.CurrentSlot genesis in_slot_10 = 10.
Proof.
  apply (ClockFacts.CurrentSlot_in_slot genesis in_slot_10 10 5000000005).
  - lia.
  - unfold SchedulerClock.SlotDuration, GoDuration.Second. lia.
  - unfold SchedulerClock.SlotDuration, GoDuration.Second, GoDuration.maxDuration,
      max_i64, two63. lia.
  - reflexivity.
Defined.



(** The tick at slot 32 with epochs 11 to 13 newly finalized: one STATUS
    job, the DUTIES job for epoch 2, and three REWARDS jobs. *)
Lemma tick_at_slot_32_jobs :
  exists events err s',
    Scheduler.NextEvents 4 Scenarios.scheduler_at_10 32 (Scheduler.finality_ok 13) =
      Some (events, err, s') /\
    Dispatch.sent (Dispatch.processEvents Dispatch.alive events (Dispatch.mkQueue 0 [])) =
      [Monitor.mkJob 100 32 1 Monitor.JobTypeStatus;
       Monitor.mkJob 0 32 2 Monitor.JobTypeDuties;
       Monitor.mkJob 0 32 11 Monitor.JobTypeRewards;
       Monitor.mkJob 0 32 12 Monitor.JobTypeRewards;
       Monitor.mkJob 0 32 13 Monitor.JobTypeRewards].
Proof.
  destruct (Scheduler.NextEvents 4 Scenarios.scheduler_at_10 32 (Scheduler.finality_ok 13))
    as [[[events err] s'] |] eqn:E; [| discriminate E].
  exists events, err, s'. split; [reflexivity |].
  rewrite (TickFacts.tick_jobs 4 Scenarios.scheduler_at_10 32 (Scheduler.finality_ok 13)
             events err s' (Dispatch.mkQueue 0 [])).
  - reflexivity.
  - unfold is_u64, max_u64, two64. lia.
  - unfold is_u64, max_u64, two64. cbn. lia.
  - unfold Scheduler.checkpoints_wf, is_u64, max_u64, two64. cbn. lia.
  - exact E.
Defined.

(** The REWARDS job of epoch 50 with one penalised entry: one line with
    duty_success false and one penalty INSERT. *)
Lemma rewards_job_lines :
  exists result w' stmts,
    Results.work Scenarios.failing_store Scenarios.answering_api [100]
      Scenarios.rewards_job Scenarios.empty_world = (result, w') /\
    Results.consume result =
      map (Results.reward_line Scenarios.rewards_job)
          (BeaconAPI.TotalRewards Scenarios.penalty_rewards) /\
    Storage.issued w' = Storage.issued Scenarios.empty_world ++ stmts /\
    List.length (filter Results.is_failed_duty (Results.consume result)) =
      List.length (filter Results.is_penalty_insert stmts).
Proof.
  exact (ResultsFacts.rewards_result_lines Scenarios.failing_store Scenarios.answering_api
           [100] Scenarios.rewards_job Scenarios.empty_world Scenarios.penalty_rewards
           eq_refl eq_refl).
Defined.

(** A node that always answers 503, with three retries: three waits, the
    first of 100 ms. *)
Lemma waits_of_a_busy_node :
  3 <= max_i64 /\
  exists n,
    BeaconClient.backoff_waits
      (BeaconClient.doRequest unit (fun _ => Ok tt) 3 BeaconClient.always_503) =
    map (fun k => BeaconClient.EBackoff
                    (if Z.of_nat k =? 0 then 100 * Backoff.Millisecond
                     else BeaconClient.jittered_delay
                            (BeaconClient.always_503 (Z.of_nat k))))
        (seq 0 n) /\
    Z.of_nat n <= Z.max 0 3.
Proof.
  assert (H : 3 <= max_i64) by (unfold max_i64, two63; lia).
  split; [exact H |].
  exact (RequestFacts.doRequest_backoff_waits unit (fun _ => Ok tt) 3
           BeaconClient.always_503 H).
Defined.

(** A configuration file with the required fields only: the client built
    from the loaded configuration retries three times. *)
Lemma minimal_config_client :
  Config.Load (Ok "config"%string) (fun _ => Ok minimal_config) =
    Config.LoadOk (Config.setDefaults minimal_config) /\
  ClientSetup.maxRetries (ClientSetup.NewClient (Config.setDefaults minimal_config)) =
    Config.MaxRetries (Config.ScyllaDB (Config.setDefaults minimal_config)) /\
  1 <= ClientSetup.maxRetries (ClientSetup.NewClient (Config.setDefaults minimal_config)) /\
  ClientSetup.baseURL (ClientSetup.NewClient (Config.setDefaults minimal_config))
    <> EmptyString.
Proof.
  split; [reflexivity |].
  destruct (StartupFacts.loaded_client_requests (Ok "config"%string)
              (fun _ => Ok minimal_config) (Config.setDefaults minimal_config) eq_refl)
    as (H1 & H2 & H3 & _).
  split; [exact H1 |]. split; [exact H2 | exact H3].
Defined.

(** In slot 10, waiting for the next slot: the timer ends where slot 11
    starts. *)
Lemma wait_from_slot_10 :
  let c := SchedulerClock.CurrentSlot genesis in_slot_10 in
  let w := SchedulerWait.WaitForSlotInterval genesis 1 in_slot_10 in_slot_10 true in
  let start := GoDuration.ns_of genesis + (c + 1) * SchedulerClock.SlotDuration in
  (SchedulerWait.err w = None -> SchedulerWait.slot w = c + 1) /\
  (forall d, SchedulerWait.timer w = Some d ->
     0 < d <= 1 * SchedulerClock.SlotDuration /\
     GoDuration.ns_of in_slot_10 + d = start) /\
  (SchedulerWait.timer w = None ->
   start <= GoDuration.ns_of in_slot_10 /\ SchedulerWait.err w = None) /\
  (SchedulerWait.err w <> None <-> SchedulerWait.timer w <> None /\ true = false) /\
  (SchedulerWait.err w <> None -> SchedulerWait.slot w = 0) /\
  (1 = 0 -> SchedulerWait.timer w = None /\ SchedulerWait.slot w = c) /\
  SchedulerWait.WaitForNextSlot genesis in_slot_10 in_slot_10 true =
    SchedulerWait.WaitForSlotInterval genesis 1 in_slot_10 in_slot_10 true.
Proof.
  apply (WaitFacts.WaitForSlotInterval_target genesis 1 in_slot_10 in_slot_10 true).
  - unfold GoDuration.time_wf, GoDuration.Second. cbn. lia.
  - cbn. lia.
  - cbn. lia.
  - lia.
  - unfold GoDuration.maxDuration, max_i64, two63. cbn. lia.
  - lia.
  - assert (H : SchedulerClock.CurrentSlot genesis in_slot_10 = 10) by reflexivity.
    rewrite H. assert (Hl : SchedulerClock.last_slot = 768614336) by reflexivity.
    rewrite Hl. lia.
Defined.

Lemma four_ticks_wf :
  Forall (fun tick => is_u64 (fst tick) /\ Scheduler.checkpoints_wf (snd tick)) four_ticks.
Proof.
  unfold four_ticks.
  repeat (constructor;
          [cbn; unfold is_u64, max_u64, two64; repeat split; lia |]).
  constructor.
Qed.

(** Four ticks with finalized epochs 13, an error, 12 and 15 reported:
    epochs 11 to 15 are reported once each. *)
Lemma four_ticks_finalized_epochs :
  exists evs s',
    Scheduler.run_ticks 10 Scenarios.scheduler_at_10 four_ticks = Some (evs, s') /\
    Catchup.finalized_epochs evs = [11; 12; 13; 14; 15] /\
    NoDup (Catchup.finalized_epochs evs).
Proof.
  eexists _, _. split; [vm_compute; reflexivity |].
  assert (H10 : is_u64 (Scheduler.lastFinalEpoch Scenarios.scheduler_at_10))
    by (cbn; unfold is_u64, max_u64, two64; lia).
  assert (Hwf : Forall (fun tick => Scheduler.checkpoints_wf (snd tick)) four_ticks).
  { eapply Forall_impl; [| exact four_ticks_wf]. intros t (_ & H). exact H. }
  destruct (CatchupFacts.finalized_epochs_exactly_once four_ticks 10
              Scenarios.scheduler_at_10 _ _ H10 Hwf eq_refl) as (H1 & H2 & _).
  split; [exact H1 | exact H2].
Defined.

(** The same ticks: the boundaries at slots 32 and 64 are reported once. *)
Lemma four_ticks_boundary_epochs :
  exists evs s',
    Scheduler.run_ticks 10 Scenarios.scheduler_at_10 four_ticks = Some (evs, s') /\
    Catchup.increasing 1 (Catchup.boundary_epochs evs) /\
    Catchup.boundary_epochs evs = [2; 3].
Proof.
  eexists _, _. split; [vm_compute; reflexivity |].
  assert (H10 : is_u64 (Scheduler.lastFinalEpoch Scenarios.scheduler_at_10))
    by (cbn; unfold is_u64, max_u64, two64; lia).
  assert (Hsorted : Catchup.nondecreasing
                      (Scheduler.SlotsPerEpoch * Scheduler.lastEpoch Scenarios.scheduler_at_10)
                      (map fst four_ticks)) by (cbn; lia).
  destruct (CatchupFacts.boundary_epochs_increase four_ticks 10
              Scenarios.scheduler_at_10 _ _ H10 four_ticks_wf Hsorted eq_refl) as (H1 & _).
  split; [exact H1 | reflexivity].
Defined.

End ExampleFacts.
